(** * stl: decoding ASCII and binary STL meshes

    A shallow embedding of [stl.go] (package [stl]) and the properties of
    its two readers and of the dispatcher [ParseSTLBytes].

    Conventions of the embedding.
    - A Go [[]byte] is a [slice]: the bytes below [len] and the bytes of the
      backing array between [len] and [cap].  Go checks an index against
      [len] and the bounds of a slice expression against [cap]; both checks
      are written out and a failed check is a run-time panic.
    - A [float32] is its IEEE-754 bit pattern ([math.Float32bits]), a [Z]
      below 2^32.
    - [fmt.Sprintf] is kept symbolic: a [message] is the format string with
      its arguments.  Every format of the lexer has literal text, so the
      formatted text is never empty and [l.error] differs from the empty
      string exactly when [errorf] was called; the field [error] is
      therefore an [option].
    - The lexer's position [pos] is a Go [int]; it is a [Z] here because the
      code can step it below zero.
    - Storage is not modelled: [make] always succeeds.  Nor is the file
      system: [ParseSTL] reads a file and hands its bytes to
      [ParseSTLBytes], where the embedding starts.
    - The loops of the lexer get a step budget, and using it up is an
      outcome of its own; it is shown never to happen
      ([acceptRun_budget], [parseASCII_budget]). *)

From Stdlib Require Import String Strings.Byte.
From Stdlib Require Import ZArith List Lia Bool.
Import ListNotations.
Open Scope Z_scope.

(** ** Bytes and slices *)

Definition byteZ (b : byte) : Z := Z.of_N (Byte.to_N b).

Definition bytes (s : string) : list byte := list_byte_of_string s.

Definition bytes_Equal (a b : list byte) : bool :=
  if list_eq_dec Byte.byte_eq_dec a b then true else false.

Record slice := mkSlice {
  data : list byte;   (* the bytes at indices 0 .. len-1 *)
  spare : list byte   (* the backing array from len up to cap *)
}.

Definition len (s : slice) : Z := Z.of_nat (length (data s)).
Definition cap (s : slice) : Z := Z.of_nat (length (data s ++ spare s)).

(** A slice that fills its backing array, as [make([]byte, n)] gives. *)
Definition tight (bs : list byte) : slice := mkSlice bs [].

(** [s[i]]: [None] is the index-out-of-range panic. *)
Definition index (s : slice) (i : Z) : option byte :=
  if (0 <=? i) && (i <? len s) then nth_error (data s) (Z.to_nat i) else None.

(** [s[lo:hi]] read as bytes: [None] is the slice-bounds panic.  The upper
    bound is checked against the capacity. *)
Definition subslice (s : slice) (lo hi : Z) : option (list byte) :=
  if (0 <=? lo) && (lo <=? hi) && (hi <=? cap s)
  then Some (firstn (Z.to_nat (hi - lo)) (skipn (Z.to_nat lo) (data s ++ spare s)))
  else None.

(** [s[n:]] for [0 <= n <= len(s)], as a slice again. *)
Definition slice_from (n : nat) (s : slice) : slice :=
  mkSlice (skipn n (data s)) (spare s).

(** ** Data model *)

Definition float32 := Z.

(** The third coordinate is [Z] in the source; it is [Zc] here, since [Z]
    names the integers.  The interface type [error] is [Error], since the
    lexer has a field [error]. *)
Record Vertex := mkVertex { X : float32; Y : float32; Zc : float32 }.

Record Facet := mkFacet {
  Vertices : Vertex * Vertex * Vertex;
  Valid : bool;
  Normal : Vertex
}.

Definition zeroVertex : Vertex := mkVertex 0 0 0.

Definition vertex_at (vs : Vertex * Vertex * Vertex) (j : nat) : Vertex :=
  match vs, j with
  | (a, _, _), 0%nat => a
  | (_, b, _), 1%nat => b
  | (_, _, c), _ => c
  end.

(** ** Errors *)

Inductive arg := argInt (n : Z) | argBytes (bs : list byte).

Record message := Sprintf { format : string; args : list arg }.

Inductive Error :=
| errors_New (text : string)
| io_EOF
| io_ErrUnexpectedEOF
| LexerError (e : message).

(** What a parser hands back: the facets with a nil error, or nil facets
    with the error. *)
Definition parsed := (list Facet * option Error)%type.

Definition failure (e : Error) : parsed := ([], Some e).
Definition success (fs : list Facet) : parsed := (fs, None).

(** ** The binary reader *)

Module Binary.

(** [binary.LittleEndian.Uint32]. *)
Definition Uint32 (b : list byte) : Z :=
  match b with
  | [b0; b1; b2; b3] =>
      Z.lor (Z.lor (Z.lor (byteZ b0) (Z.shiftl (byteZ b1) 8))
                   (Z.shiftl (byteZ b2) 16))
            (Z.shiftl (byteZ b3) 24)
  | _ => 0
  end.

(** A [bytes.Buffer] being read is the list of its unread bytes. *)
Definition reader (A : Type) := list byte -> Error + (A * list byte).

Definition ret {A} (a : A) : reader A := fun buf => inr (a, buf).

Definition bind {A B} (m : reader A) (k : A -> reader B) : reader B :=
  fun buf => match m buf with
             | inl e => inl e
             | inr (a, buf') => k a buf'
             end.

(** [io.ReadFull] of [n > 0] bytes: [EOF] when nothing is left,
    [ErrUnexpectedEOF] when fewer than [n] bytes are. *)
Definition ReadFull (n : nat) : reader (list byte) :=
  fun buf =>
    match buf with
    | [] => inl io_EOF
    | _ => if (length buf <? n)%nat then inl io_ErrUnexpectedEOF
           else inr (firstn n buf, skipn n buf)
    end.

(** [binary.Read(r, binary.LittleEndian, &x)] for a [float32] or [uint32]
    [x]: four bytes, read as a little-endian word. *)
Definition Read32 : reader Z := bind (ReadFull 4) (fun b => ret (Uint32 b)).

(** The same for a [uint16]; its value is never used. *)
Definition Read16 : reader unit := bind (ReadFull 2) (fun _ => ret tt).

End Binary.

Declare Scope reader_scope.
Notation "x <- m ;; k" := (Binary.bind m (fun x => k))
  (at level 61, m at next level, right associativity) : reader_scope.
Delimit Scope reader_scope with reader.

Section ParseBinary.
Import Binary.
Local Open Scope reader_scope.

(** The scratch array [ps] of [parseBinary]. *)
Definition scratch := (float32 * float32 * float32)%type.

Definition vertex_of (ps : scratch) : Vertex :=
  let '(p0, p1, p2) := ps in mkVertex p0 p1 p2.

(** Lines 309-315: three words are read into [t] and dropped; [normal] is
    built from [ps]. *)
Definition readNormal (ps : scratch) : reader Vertex :=
  _ <- Read32 ;; let normal := vertex_of ps in
  _ <- Read32 ;; let normal := vertex_of ps in
  _ <- Read32 ;; let normal := vertex_of ps in
  ret normal.

(** Lines 318-324: one pass of the loop over [j]; the three words go to
    [ps[0]], [ps[1]], [ps[2]]. *)
Definition readVertex (ps : scratch) : reader (Vertex * scratch) :=
  p0 <- Read32 ;; let ps := (p0, snd (fst ps), snd ps) in
  p1 <- Read32 ;; let ps := (fst (fst ps), p1, snd ps) in
  p2 <- Read32 ;; let ps := (fst (fst ps), snd (fst ps), p2) in
  ret (vertex_of ps, ps).

(** Lines 305-335: the loop over [i], [n] passes still to run.  The pass
    stores its facet at index [i] of [facets]; the passes run in index
    order, so the list is built front to back. *)
Fixpoint readTriangles (n : nat) (ps : scratch) : reader (list Facet) :=
  match n with
  | O => ret []
  | S n' =>
      normal <- readNormal ps ;;
      r0 <- readVertex ps ;;
      r1 <- readVertex (snd r0) ;;
      r2 <- readVertex (snd r1) ;;
      let f := mkFacet (fst r0, fst r1, fst r2) true normal in
      _ <- Read16 ;;
      facets <- readTriangles n' (snd r2) ;;
      ret (f :: facets)
  end.

Definition parseBinary (stl : slice) : parsed :=
  if len stl <? 80 then failure (errors_New "Incomplete header on binary STL file.")
  else
    let stl := skipn 80 (data stl) in
    if Z.of_nat (length stl) <? 4
    then failure (errors_New "Binary STL file contains no data.")
    else
      let l := firstn 4 stl in
      let triangles := skipn 4 stl in
      match Read32 l with
      | inl err => failure err
      | inr (numTriangles, _) =>
          match readTriangles (Z.to_nat numTriangles) (0, 0, 0) triangles with
          | inl err => failure err
          | inr (facets, _) => success facets
          end
      end.

End ParseBinary.

(** ** [strconv.ParseFloat(s, 32)]

    The lexer hands [ParseFloat] only text over the characters
    [+-0123456789.eE]; on such text the library reads a decimal literal
    (there is no room for a hexadecimal prefix, an underscore, [inf] or
    [nan]).  [readFloat] follows the library's scanner of that name; the
    value is the binary32 number nearest to the decimal one, ties to even,
    as the library documents, and a value out of range is an error. *)

Module strconv.

Definition isDigit (c : byte) : bool := (48 <=? byteZ c) && (byteZ c <=? 57).
Definition isByte (c : byte) (s : string) : bool := bytes_Equal [c] (bytes s).

Record scan := mkScan {
  mantissa : Z; nd : Z; dp : Z; sawdot : bool; sawdigits : bool
}.

(** The loop over the digits and the dot. *)
Fixpoint scanDigits (s : list byte) (st : scan) : scan * list byte :=
  match s with
  | [] => (st, [])
  | c :: s' =>
      if isByte c "." then
        if sawdot st then (st, s)
        else scanDigits s' (mkScan (mantissa st) (nd st) (nd st) true (sawdigits st))
      else if isDigit c then
        if isByte c "0" && (nd st =? 0)
        then scanDigits s' (mkScan (mantissa st) (nd st) (dp st - 1) (sawdot st) true)
        else scanDigits s'
               (mkScan (mantissa st * 10 + (byteZ c - 48)) (nd st + 1) (dp st)
                       (sawdot st) true)
      else (st, s)
  end.

(** The loop over the digits of the exponent. *)
Fixpoint scanExp (s : list byte) (e : Z) : Z * list byte :=
  match s with
  | [] => (e, [])
  | c :: s' =>
      if isDigit c
      then scanExp s' (if e <? 10000 then e * 10 + (byteZ c - 48) else e)
      else (e, s)
  end.

(** [Some (neg, mantissa, exp, rest)]: the literal read is
    [mantissa * 10^exp], negated when [neg], and [rest] is what follows it;
    [None] when there is no literal. *)
Definition readFloat (s : list byte) : option (bool * Z * Z * list byte) :=
  match s with
  | [] => None
  | c :: s' =>
      let neg := isByte c "-" in
      let s := if isByte c "+" || isByte c "-" then s' else s in
      let '(st, s) := scanDigits s (mkScan 0 0 0 false false) in
      if negb (sawdigits st) then None
      else
        let dp := if sawdot st then dp st else nd st in
        match s with
        | c :: s' =>
            if isByte c "e" || isByte c "E" then
              match s' with
              | [] => None
              | c :: s'' =>
                  let esign := if isByte c "-" then -1 else 1 in
                  let s' := if isByte c "+" || isByte c "-" then s'' else s' in
                  match s' with
                  | [] => None
                  | d :: _ =>
                      if isDigit d then
                        let '(e, s') := scanExp s' 0 in
                        Some (neg, mantissa st, dp + e * esign - nd st, s')
                      else None
                  end
              end
            else Some (neg, mantissa st, dp - nd st, s)
        | [] => Some (neg, mantissa st, dp - nd st, [])
        end
  end.

(** The bits of the binary32 number nearest to [m * 10^e10] ([0 <= m]),
    ties to even; [None] when it is beyond the largest finite one. *)
Definition nearest32 (neg : bool) (m e10 : Z) : option float32 :=
  let sign := if neg then Z.shiftl 1 31 else 0 in
  if m =? 0 then Some sign
  else
    let num := if 0 <=? e10 then m * 10 ^ e10 else m in
    let den := if 0 <=? e10 then 1 else 10 ^ (- e10) in
    let e0 := Z.log2 num - Z.log2 den in
    let above := if 0 <=? e0 then den * 2 ^ e0 <=? num
                 else den <=? num * 2 ^ (- e0) in
    let e := Z.max (if above then e0 else e0 - 1) (-126) in
    let sh := e - 23 in
    let n := if 0 <=? sh then num else num * 2 ^ (- sh) in
    let d := if 0 <=? sh then den * 2 ^ sh else den in
    let q := n / d in
    let r := n mod d in
    let mant := if (d <? 2 * r) || ((d =? 2 * r) && Z.odd q) then q + 1 else q in
    let e := if mant =? 2 ^ 24 then e + 1 else e in
    let mant := if mant =? 2 ^ 24 then 2 ^ 23 else mant in
    if 127 <? e then None
    else if mant <? 2 ^ 23 then Some (Z.lor sign mant)
    else Some (Z.lor sign (Z.lor (Z.shiftl (e + 127) 23) (mant - 2 ^ 23))).

(** [ParseFloat(s, 32)] followed by the conversion to [float32]: [None] is
    a non-nil [err] (bad syntax, text left over, or out of range). *)
Definition ParseFloat (s : list byte) : option float32 :=
  match readFloat s with
  | Some (neg, m, e10, []) => nearest32 neg m e10
  | _ => None
  end.

End strconv.

(** ** The ASCII lexer *)

Definition ident : list byte :=
  bytes "ABCDEFGHIJKLMNOPQRSTUVWXYZabcdefghijklmnopqrstuvwxyz_0123456789.".
Definition spaces : list byte := [x20; x0a; x09; x0d].
Definition floatDigits : list byte := bytes "0123456789.".

Inductive stateFn := fnAsciiFileHeader | fnAsciiFacet | fnAsciiVertex.

Record lexer := mkLexer {
  name : string;
  input : slice;
  state : option stateFn;        (* [None] is the nil function *)
  start : Z;
  pos : Z;
  items : list Facet;            (* the channel's buffer, oldest first *)
  error : option message;        (* [None] is the empty string *)
  meshName : list byte;
  pendingFacet : option Facet    (* [None] is the nil pointer *)
}.

Definition set_state (v : option stateFn) (l : lexer) : lexer :=
  mkLexer (name l) (input l) v (start l) (pos l) (items l) (error l)
          (meshName l) (pendingFacet l).
Definition set_start (v : Z) (l : lexer) : lexer :=
  mkLexer (name l) (input l) (state l) v (pos l) (items l) (error l)
          (meshName l) (pendingFacet l).
Definition set_pos (v : Z) (l : lexer) : lexer :=
  mkLexer (name l) (input l) (state l) (start l) v (items l) (error l)
          (meshName l) (pendingFacet l).
Definition set_items (v : list Facet) (l : lexer) : lexer :=
  mkLexer (name l) (input l) (state l) (start l) (pos l) v (error l)
          (meshName l) (pendingFacet l).
Definition set_error (v : option message) (l : lexer) : lexer :=
  mkLexer (name l) (input l) (state l) (start l) (pos l) (items l) v
          (meshName l) (pendingFacet l).
Definition set_meshName (v : list byte) (l : lexer) : lexer :=
  mkLexer (name l) (input l) (state l) (start l) (pos l) (items l) (error l)
          v (pendingFacet l).
Definition set_pendingFacet (v : option Facet) (l : lexer) : lexer :=
  mkLexer (name l) (input l) (state l) (start l) (pos l) (items l) (error l)
          (meshName l) v.

(** How a run of the lexer ends: with a value, with a run-time panic (a
    send that can never complete is counted with the panics), or, in this
    model only, with the step budget of a loop used up. *)
Inductive panic :=
| IndexOutOfRange (i : Z)
| SliceBoundsOutOfRange (lo hi : Z)
| NilDereference
| SendBlocksForever.

Inductive outcome (A : Type) :=
| Done (a : A)
| Panics (p : panic)
| Exhausted.
Arguments Done {A} a.
Arguments Panics {A} p.
Arguments Exhausted {A}.

(** A method of [*lexer]. *)
Definition M (A : Type) := lexer -> outcome (A * lexer).

Definition ret {A} (a : A) : M A := fun l => Done (a, l).

Definition bind {A B} (m : M A) (k : A -> M B) : M B :=
  fun l => match m l with
           | Done (a, l') => k a l'
           | Panics p => Panics p
           | Exhausted => Exhausted
           end.

Declare Scope lexer_scope.
Delimit Scope lexer_scope with lexer.
Notation "x <- m ;; k" := (bind m (fun x => k))
  (at level 61, m at next level, right associativity) : lexer_scope.
Notation "m ;; k" := (bind m (fun _ => k))
  (at level 61, right associativity) : lexer_scope.
Local Open Scope lexer_scope.

Definition get {A} (f : lexer -> A) : M A := fun l => Done (f l, l).
Definition modify (f : lexer -> lexer) : M unit := fun l => Done (tt, f l).

(** [l.input[lo:hi]]. *)
Definition inputSlice (lo hi : Z) : M (list byte) :=
  fun l => match subslice (input l) lo hi with
           | Some bs => Done (bs, l)
           | None => Panics (SliceBoundsOutOfRange lo hi)
           end.

(** [strings.IndexRune(valid, r)] for a [valid] of ASCII characters: the
    index of the byte [r], and -1 for a rune that is no ASCII character
    (the -1 of end of input, or a byte from 0x80 up). *)
Fixpoint IndexByte (s : list byte) (c : Z) (i : Z) : Z :=
  match s with
  | [] => -1
  | b :: s' => if byteZ b =? c then i else IndexByte s' c (i + 1)
  end.

Definition IndexRune (valid : list byte) (r : Z) : Z :=
  if (0 <=? r) && (r <? 128) then IndexByte valid r 0 else -1.

Definition lex (name : string) (input : slice) (initialState : stateFn) : lexer :=
  mkLexer name input (Some initialState) 0 0 [] None [] None.

Definition next : M Z :=
  fun l =>
    if len (input l) <=? pos l then Done (-1, l)
    else match index (input l) (pos l) with
         | None => Panics (IndexOutOfRange (pos l))
         | Some b => Done (byteZ b, set_pos (pos l + 1) l)
         end.

Definition ignore : M unit := modify (fun l => set_start (pos l) l).

Definition backup : M unit := modify (fun l => set_pos (pos l - 1) l).

Definition peek : M Z := r <- next ;; backup ;; ret r.

Definition accept (valid : list byte) : M bool :=
  r <- next ;;
  if 0 <=? IndexRune valid r then ret true
  else backup ;; ret false.

(** The loop of [acceptRun], with a budget of [fuel] calls of [next]. *)
Fixpoint acceptRunLoop (fuel : nat) (valid : list byte) (result : bool) : M bool :=
  match fuel with
  | O => fun _ => Exhausted
  | S fuel' =>
      r <- next ;;
      if 0 <=? IndexRune valid r then acceptRunLoop fuel' valid true
      else ret result
  end.

(** [next] advances only below [len], so one call more than the bytes
    left is budget enough ([acceptRun_budget]). *)
Definition acceptRun (valid : list byte) : M bool :=
  fun l =>
    (result <- acceptRunLoop (S (Z.to_nat (len (input l) - pos l))) valid false ;;
     backup ;;
     ret result) l.

Definition acceptKeyword (keyword : list byte) : M bool :=
  p <- get pos ;;
  found <- inputSlice p (p + Z.of_nat (length keyword)) ;;
  if bytes_Equal found keyword
  then modify (fun l => set_pos (pos l + Z.of_nat (length keyword)) l) ;; ret true
  else ret false.

(** A send on the channel of capacity 2; with the buffer full and no
    receiver the send would never return. *)
Definition emit (f : Facet) : M unit :=
  fun l =>
    if (2 <=? length (items l))%nat then Panics SendBlocksForever
    else Done (tt, set_start (pos l) (set_items (items l ++ [f]) l)).

Definition errorf (format : string) (args : list arg) : M (option stateFn) :=
  modify (set_error (Some (Sprintf format args))) ;; ret None.

Definition acceptNumber : M bool :=
  accept (bytes "+-") ;;
  digits <- acceptRun floatDigits ;;
  if negb digits then ret false
  else
    e <- accept (bytes "eE") ;;
    if e then
      accept (bytes "+-") ;;
      digits <- acceptRun floatDigits ;;
      if negb digits then ret false else ret true
    else ret true.

(** A loop body either makes the state function return ([inl], with the
    next state) or goes on with a value ([inr]). *)
Definition orReturn (A : Type) := (option stateFn + A)%type.

Definition Return {A} (m : M (option stateFn)) : M (orReturn A) :=
  st <- m ;; ret (inl st).

Definition bindBody {A B} (m : M (orReturn A)) (k : A -> M (orReturn B))
  : M (orReturn B) :=
  r <- m ;; match r with inl st => ret (inl st) | inr a => k a end.

Definition bindFn {A} (m : M (orReturn A)) (k : A -> M (option stateFn))
  : M (option stateFn) :=
  r <- m ;; match r with inl st => ret st | inr a => k a end.

Notation "x <-? m ;; k" := (bindBody m (fun x => k))
  (at level 61, m at next level, right associativity) : lexer_scope.
Notation "x <-! m ;; k" := (bindFn m (fun x => k))
  (at level 61, m at next level, right associativity) : lexer_scope.

Definition expectedKeyword (fmt : string) (n : Z) : M (option stateFn) :=
  p <- get pos ;;
  saw <- inputSlice p (p + n) ;;
  errorf fmt [argInt p; argBytes saw].

Definition expectedNumber : M (option stateFn) :=
  expectedKeyword "Expected a number at %v. Saw %q instead" 1.

(** Lines 163-172, the body of the loop over [j] in [asciiVertex]. *)
Definition vertexCoordinate : M (orReturn float32) :=
  acceptRun spaces ;;
  c <- get pos ;;
  ok <- acceptNumber ;;
  if negb ok then Return expectedNumber
  else
    p <- get pos ;;
    text <- inputSlice c p ;;
    match strconv.ParseFloat text with
    | None => Return (errorf "Unable to parse float from %q" [argBytes text])
    | Some t => ret (inr t)
    end.

(** Lines 157-174, the body of the loop over [i] in [asciiVertex]. *)
Definition vertexLine : M (orReturn Vertex) :=
  acceptRun spaces ;;
  ok <- acceptKeyword (bytes "vertex") ;;
  if negb ok
  then Return (expectedKeyword "Expected keyword 'vertex' at %v. Saw %q instead" 6)
  else
    x <-? vertexCoordinate ;;
    y <-? vertexCoordinate ;;
    z <-? vertexCoordinate ;;
    ret (inr (mkVertex x y z)).

Definition asciiVertex : M (option stateFn) :=
  v0 <-! vertexLine ;;
  v1 <-! vertexLine ;;
  v2 <-! vertexLine ;;
  acceptRun spaces ;;
  ok <- acceptKeyword (bytes "endloop") ;;
  if negb ok
  then expectedKeyword "Expected keyword 'endloop' at %v. Saw %q instead" 7
  else
    acceptRun spaces ;;
    ok <- acceptKeyword (bytes "endfacet") ;;
    if negb ok
    then expectedKeyword "Expected keyword 'endfacet' at %v. Saw %q instead" 8
    else
      acceptRun spaces ;;
      pending <- get pendingFacet ;;
      match pending with
      | None => fun _ => Panics NilDereference
      | Some f =>
          let f := mkFacet (v0, v1, v2) true (Normal f) in
          emit f ;;
          modify (set_pendingFacet None) ;;
          ret (Some fnAsciiFacet)
      end.

(** Lines 206-214 (and twice more below them): one coordinate of the
    normal, read from [l.start]. *)
Definition normalCoordinate : M (orReturn float32) :=
  acceptRun spaces ;;
  ignore ;;
  ok <- acceptNumber ;;
  if negb ok then Return expectedNumber
  else
    s <- get start ;;
    p <- get pos ;;
    text <- inputSlice s p ;;
    match strconv.ParseFloat text with
    | None => Return (errorf "Unable to parse float from %q" [argBytes text])
    | Some t => ret (inr t)
    end.

Definition asciiFacet : M (option stateFn) :=
  acceptRun spaces ;;
  ok <- acceptKeyword (bytes "facet") ;;
  if negb ok then
    done <- acceptKeyword (bytes "endsolid") ;;
    if done then ret None
    else expectedKeyword "Expected keyword 'facet' at %v. Saw %q instead" 5
  else
    acceptRun spaces ;;
    ok <- acceptKeyword (bytes "normal") ;;
    if negb ok
    then expectedKeyword "Expected keyword 'normal' at %v. Saw %q instead" 6
    else
      ni <-! normalCoordinate ;;
      nj <-! normalCoordinate ;;
      nk <-! normalCoordinate ;;
      acceptRun spaces ;;
      ok <- acceptKeyword (bytes "outer") ;;
      if negb ok
      then expectedKeyword "Expected keyword 'outer' at %v. Saw %q instead" 5
      else
        acceptRun spaces ;;
        ok <- acceptKeyword (bytes "loop") ;;
        if negb ok
        then expectedKeyword "Expected keyword 'loop' at %v. Saw %q instead" 4
        else
          modify (set_pendingFacet
                    (Some (mkFacet (zeroVertex, zeroVertex, zeroVertex) false
                                   (mkVertex ni nj nk)))) ;;
          ret (Some fnAsciiVertex).

Definition asciiFileHeader : M (option stateFn) :=
  acceptRun spaces ;;
  acceptRun ident ;;
  s <- get start ;;
  p <- get pos ;;
  c <- inputSlice s p ;;
  if bytes_Equal c (bytes "facet") then
    ignore ;;
    ret (Some fnAsciiFacet)
  else
    modify (set_meshName c) ;;
    ret (Some fnAsciiFacet).

(** The call [l.state(l)]. *)
Definition callState (fn : option stateFn) : M (option stateFn) :=
  match fn with
  | None => fun _ => Panics NilDereference
  | Some fnAsciiFileHeader => asciiFileHeader
  | Some fnAsciiFacet => asciiFacet
  | Some fnAsciiVertex => asciiVertex
  end.

(** [nextFacet], with a budget of [fuel] passes of its loop: a receive
    when the channel holds a facet, a call of the state function
    otherwise. *)
Fixpoint nextFacet (fuel : nat) : M (option Facet) :=
  match fuel with
  | O => fun _ => Exhausted
  | S fuel' =>
      fun l =>
        match items l with
        | item :: rest => Done (Some item, set_items rest l)
        | [] =>
            (st <- callState (state l) ;;
             modify (set_state st) ;;
             match st with
             | None => ret None
             | Some _ => nextFacet fuel'
             end) l
        end
  end.

(** The loop of [parseASCII], entered with the facet [f] just pulled. *)
Fixpoint pullFacets (fuel : nat) (facets : list Facet) (f : option Facet)
  : M (list Facet) :=
  match f with
  | Some f' =>
      if Valid f' then
        match fuel with
        | O => fun _ => Exhausted
        | S fuel' =>
            f'' <- nextFacet 4 ;;
            pullFacets fuel' (facets ++ [f']) f''
        end
      else ret facets
  | None => ret facets
  end.

(** The two loops of [parseASCII] run from a fresh lexer: the facets
    pulled and the lexer as the loops leave it.  A state function that
    does not end the parse leaves at most one facet in the channel, so
    [nextFacet] returns within four passes; every facet pulled moves [pos]
    forward, so the loop of [parseASCII] makes at most [cap] passes
    ([parseASCII_budget]). *)
Definition pullAll (stl : slice) : outcome (list Facet * lexer) :=
  (f <- nextFacet 4 ;; pullFacets (S (Z.to_nat (cap stl))) [] f)
    (lex "ASCII STL" stl fnAsciiFileHeader).

Definition parseASCII (stl : slice) : outcome parsed :=
  match pullAll stl with
  | Done (facets, l) =>
      match error l with
      | Some e => Done (failure (LexerError e))
      | None => Done (success facets)
      end
  | Panics p => Panics p
  | Exhausted => Exhausted
  end.

(** ** The dispatcher *)

Definition ParseSTLBytes (stl : slice) : outcome parsed :=
  if len stl <? 5 then Done (failure (errors_New "STL file too small (<5 bytes)"))
  else if bytes_Equal (firstn 5 (data stl)) (bytes "solid") then
    match parseASCII (slice_from 5 stl) with
    | Done (facets, Some err) =>
        match parseBinary stl with
        | (_, Some err2) => Done (failure err)
        | (facets, None) => Done (success facets)
        end
    | Done (facets, None) => Done (success facets)
    | Panics p => Panics p
    | Exhausted => Exhausted
    end
  else Done (parseBinary stl).

(** * Vocabulary of the statements *)

Section BinaryVocabulary.
Import Binary.

Definition eofish (e : Error) : Prop := e = io_EOF \/ e = io_ErrUnexpectedEOF.

(** [reads k m v]: the reader [m] needs [k] bytes; on a shorter buffer it
    fails with an end-of-file error, on any other it consumes exactly [k]
    bytes and yields [v] of them. *)
Definition reads {A} (k : nat) (m : reader A) (v : list byte -> A) : Prop :=
  forall buf,
    ((length buf < k)%nat -> exists e, m buf = inl e /\ eofish e) /\
    ((k <= length buf)%nat -> m buf = inr (v (firstn k buf), skipn k buf)).

(** The word at offset [off] of a record, and the vertex whose three
    words start there. *)
Definition wordAt (r : list byte) (off : nat) : Z :=
  Uint32 (firstn 4 (skipn off r)).

Definition vertexAt (r : list byte) (off : nat) : Vertex :=
  mkVertex (wordAt r off) (wordAt r (off + 4)) (wordAt r (off + 8)).

Definition scratch_of (v : Vertex) : scratch := (X v, Y v, Zc v).

(** What the layout says a record holds. *)
Definition recordNormal (r : list byte) : Vertex := vertexAt r 0.
Definition recordVertices (r : list byte) : Vertex * Vertex * Vertex :=
  (vertexAt r 12, vertexAt r 24, vertexAt r 36).

(** What [parseBinary] makes of a record, entered with scratch [ps]. *)
Definition facetOf (ps : scratch) (r : list byte) : Facet :=
  mkFacet (recordVertices r) true (vertex_of ps).

Fixpoint decodeFacets (n : nat) (ps : scratch) (bs : list byte) : list Facet :=
  match n with
  | O => []
  | S n' =>
      let r := firstn 50 bs in
      facetOf ps r :: decodeFacets n' (scratch_of (vertexAt r 36)) (skipn 50 bs)
  end.

Fixpoint facetsOf (ps : scratch) (recs : list (list byte)) : list Facet :=
  match recs with
  | [] => []
  | r :: recs' => facetOf ps r :: facetsOf (scratch_of (vertexAt r 36)) recs'
  end.

(** The triangle count declared at bytes 80-83 and the bytes of the
    records after it. *)
Definition declaredCount (stl : slice) : nat :=
  Z.to_nat (Uint32 (firstn 4 (skipn 80 (data stl)))).

Definition recordBytes (stl : slice) : list byte := skipn 84 (data stl).

End BinaryVocabulary.

(** ** Inputs of the tests *)

(** The two records of [TestSimpleBinaryParse]. *)
Definition cubeRecord0 : list byte :=
  [x00;x00;x80;x3f; x00;x00;x00;x00; x00;x00;x00;x00;
   x00;x00;x00;xc0; x00;x00;x00;x3f; x00;x00;x00;xbf;
   x00;x00;x00;xc0; x00;x00;xc0;x3f; x00;x00;x00;xbf;
   x00;x00;x00;xc0; x00;x00;xc0;x3f; x00;x00;x00;x3f;
   x00;x00].

Definition cubeRecord1 : list byte :=
  [x00;x00;x80;x3f; x00;x00;x00;x00; x00;x00;x00;x80;
   x00;x00;x00;xc0; x00;x00;x00;x3f; x00;x00;x00;x3f;
   x00;x00;x00;xc0; x00;x00;x00;x3f; x00;x00;x00;xbf;
   x00;x00;x00;xc0; x00;x00;xc0;x3f; x00;x00;x00;x3f;
   x00;x00].

(** What [parseBinary] returns for the two records: -2 is 3221225472,
    0.5 is 1056964608, -0.5 is 3204448256, 1.5 is 1069547520 and 1 is
    1065353216. *)
Definition simpleFacet0 : Facet :=
  mkFacet (mkVertex 3221225472 1056964608 3204448256,
           mkVertex 3221225472 1069547520 3204448256,
           mkVertex 3221225472 1069547520 1056964608)
          true (mkVertex 0 0 0).

Definition simpleFacet1 : Facet :=
  mkFacet (mkVertex 3221225472 1056964608 1056964608,
           mkVertex 3221225472 1056964608 3204448256,
           mkVertex 3221225472 1069547520 1056964608)
          true (mkVertex 3221225472 1069547520 1056964608).

(** The buffers of [TestSimpleBinaryParse] and of
    [TestNonStandardBinaryParse]. *)
Definition simpleBinary : list byte :=
  repeat x00 80 ++ [x02;x00;x00;x00] ++ cubeRecord0 ++ cubeRecord1.

Definition nonStandardBinary : list byte :=
  bytes "solid" ++ repeat x00 75 ++ [x02;x00;x00;x00] ++
  cubeRecord0 ++ cubeRecord1.

(** What the ASCII parse returns for the text below. *)
Definition asciiFacet0 : Facet :=
  mkFacet (mkVertex 3221225472 1056964608 3204448256,
           mkVertex 3221225472 1069547520 3204448256,
           mkVertex 3221225472 1069547520 1056964608)
          true (mkVertex 1065353216 0 0).

Definition asciiFacet1 : Facet :=
  mkFacet (mkVertex 3221225472 1056964608 1056964608,
           mkVertex 3221225472 1056964608 3204448256,
           mkVertex 3221225472 1069547520 1056964608)
          true (mkVertex 1065353216 0 2147483648).

(** The text of [TestSimpleASCIIParse], line by line. *)
Definition lines (ls : list string) : list byte :=
  match ls with
  | [] => []
  | first :: more =>
      bytes first ++ concat (map (fun line => x0a :: bytes line) more)
  end.

Definition simpleASCII : list byte :=
  lines ["solid OpenSCAD_Model";
         "  facet normal 1 0 0";
         "    outer loop";
         "      vertex -2 0.5 -0.5";
         "      vertex -2 1.5 -0.5";
         "      vertex -2 1.5 0.5";
         "    endloop";
         "  endfacet";
         "  facet normal 1 0 -0";
         "    outer loop";
         "      vertex -2 0.5 0.5";
         "      vertex -2 0.5 -0.5";
         "      vertex -2 1.5 0.5";
         "    endloop";
         "  endfacet";
         "endsolid OpenSCAD_Model"]%string.


(** One well-formed facet block, and the facet it stands for. *)
Definition facetBlock : list byte :=
  bytes "facet normal 0 0 1 outer loop vertex 0 0 0 vertex 1 0 0" ++
  bytes " vertex 0 1 0 endloop endfacet".

Definition oneFacet : Facet :=
  mkFacet (mkVertex 0 0 0, mkVertex 1065353216 0 0, mkVertex 0 1065353216 0)
          true (mkVertex 0 0 1065353216).

(** A nameless solid: the first facet block follows the sentinel. *)
Definition namelessBody : list byte := facetBlock ++ bytes " endsolid".

(** A named solid whose second facet block has no [endloop]. *)
Definition omitsEndloop : list byte :=
  bytes " a " ++ facetBlock ++
  bytes " facet normal 1 0 0 outer loop vertex 0 0 0 vertex 1 0 0" ++
  bytes " vertex 0 1 0 endfacet endsolid".

(** A named solid whose only facet block has no [endfacet]. *)
Definition omitsEndfacet : list byte :=
  bytes " a facet normal 1 0 0 outer loop vertex 0 0 0 vertex 1 0 0" ++
  bytes " vertex 0 1 0 endloop endsolid".

(** A named solid with the literal 1.2.3 in a vertex. *)
Definition twoDots : list byte :=
  bytes " a facet normal 0 0 1 outer loop vertex 0 0 0 vertex 1.2.3 0 0" ++
  bytes " vertex 0 1 0 endloop endfacet endsolid".

(** ** Vocabulary of the lexer's statements *)

(** The lexer [l] stands between [pre] and [rest] of its input. *)
Definition standsAt (l : lexer) (pre rest : list byte) : Prop :=
  data (input l) = pre ++ rest /\ pos l = Z.of_nat (length pre).

(** The byte [b] is one of [valid]. *)
Definition member (valid : list byte) (b : byte) : bool :=
  0 <=? IndexRune valid (byteZ b).

Definition isNil {A} (xs : list A) : bool :=
  match xs with [] => true | _ => false end.

(** The numeric literal grammar in the words of the specification: an
    optional sign, a run of digit and dot characters, and optionally an
    exponent marker, an optional sign and another such run. *)
Definition optionalSign (s : list byte) : Prop :=
  s = [] \/ s = bytes "+" \/ s = bytes "-".

Definition digitDotRun (r : list byte) : Prop :=
  r <> [] /\ Forall (fun b => member floatDigits b = true) r.

Definition exponentPart (x : list byte) : Prop :=
  exists m s r,
    x = m :: s ++ r /\ member (bytes "eE") m = true /\
    optionalSign s /\ digitDotRun r.

Definition permissiveNumber (tok : list byte) : Prop :=
  exists s r x,
    tok = s ++ r ++ x /\ optionalSign s /\ digitDotRun r /\
    (x = [] \/ exponentPart x).

Definition unableToParse (text : list byte) : message :=
  Sprintf "Unable to parse float from %q" [argBytes text].

(** [post m l Q]: run from [l], the method [m] does not use up a step
    budget, and when it returns, [Q] holds of its result and the lexer
    it leaves. *)
Definition post {A} (m : M A) (l : lexer) (Q : A -> lexer -> Prop) : Prop :=
  match m l with
  | Done (a, l') => Q a l'
  | Panics _ => True
  | Exhausted => False
  end.

Definition inBounds (l : lexer) : Prop := pos l <= cap (input l).

(** [moved d l l']: from [l] to [l'] the position went up by [d] at least
    and stayed below the capacity; input, state function, channel and
    error are as they were. *)
Definition moved (d : Z) (l l' : lexer) : Prop :=
  input l' = input l /\ state l' = state l /\ items l' = items l /\
  error l' = error l /\ (inBounds l -> inBounds l') /\ pos l + d <= pos l'.

(** What a pass of [asciiVertex] that goes on to the next facet has done:
    one complete facet more in the channel, the position not behind where
    it was. *)
Definition emitted (l l' : lexer) : Prop :=
  input l' = input l /\ state l' = state l /\ error l' = error l /\
  (exists f, items l' = items l ++ [f] /\ Valid f = true) /\
  (inBounds l -> inBounds l') /\ pos l <= pos l'.

(** Where the loop of [parseASCII] calls [nextFacet]: the channel is
    empty and the state is [fn], the header state at first and the facet
    state from then on. *)
Definition atRest (fn : stateFn) (l : lexer) : Prop :=
  items l = [] /\ inBounds l /\ state l = Some fn.

(** ** Vocabulary of the further statements *)

(** The error of a read that finds [n] bytes, fewer than it needs:
    [io.EOF] when none is left, [io.ErrUnexpectedEOF] otherwise. *)
Definition shortRead (n : nat) : Error :=
  match n with O => io_EOF | S _ => io_ErrUnexpectedEOF end.

(** The error of [parseBinary] when the record bytes, [n] of them, end
    before the records counted do: the last record is cut in a field
    (the fields start at multiples of 4 of the 50 bytes). *)
Definition truncationError (n : nat) : Error :=
  shortRead ((n mod 50) mod 4).

(** The bytes 12-47 of a record: its three vertices. *)
Definition vertexBytes (r : list byte) : list byte := firstn 36 (skipn 12 r).

(** [failsWith k m E]: on a buffer of fewer than [k] bytes the reader [m]
    fails, with the error [E] of the number of bytes it found. *)
Definition failsWith {A} (k : nat) (m : Binary.reader A) (E : nat -> Error) : Prop :=
  forall buf, (length buf < k)%nat -> m buf = inl (E (length buf)).

(** *** Well-formed ASCII text *)

(** A run of white space, and a run of at least one byte. *)
Definition blank (g : list byte) : Prop :=
  Forall (fun b => member spaces b = true) g.

Definition gap (g : list byte) : Prop := g <> [] /\ blank g.

(** A coordinate as it stands in the text: white space, then a literal
    that the tokenizer takes and the conversion turns into [value]. *)
Record coordinate := mkCoordinate {
  before : list byte;
  literal : list byte;
  value : float32
}.

Definition coordinateOK (c : coordinate) : Prop :=
  gap (before c) /\ permissiveNumber (literal c) /\
  strconv.ParseFloat (literal c) = Some (value c).

Definition renderCoordinate (c : coordinate) : list byte :=
  before c ++ literal c.

Record triple := mkTriple { cx : coordinate; cy : coordinate; cz : coordinate }.

Definition tripleOK (t : triple) : Prop :=
  coordinateOK (cx t) /\ coordinateOK (cy t) /\ coordinateOK (cz t).

Definition renderTriple (t : triple) : list byte :=
  renderCoordinate (cx t) ++ renderCoordinate (cy t) ++ renderCoordinate (cz t).

Definition vertexOfTriple (t : triple) : Vertex :=
  mkVertex (value (cx t)) (value (cy t)) (value (cz t)).

(** A facet block as it stands in the text, from its keyword [facet] to
    the white space after its [endfacet]; the fields [g...] are the runs
    of white space before the keyword named. *)
Record facetText := mkFacetText {
  gNormal : list byte;
  tNormal : triple;
  gOuter : list byte;
  gLoop : list byte;
  gVertex0 : list byte;
  tVertex0 : triple;
  gVertex1 : list byte;
  tVertex1 : triple;
  gVertex2 : list byte;
  tVertex2 : triple;
  gEndloop : list byte;
  gEndfacet : list byte;
  gAfter : list byte
}.

Definition facetTextOK (f : facetText) : Prop :=
  gap (gNormal f) /\ tripleOK (tNormal f) /\ gap (gOuter f) /\ gap (gLoop f) /\
  gap (gVertex0 f) /\ tripleOK (tVertex0 f) /\
  gap (gVertex1 f) /\ tripleOK (tVertex1 f) /\
  gap (gVertex2 f) /\ tripleOK (tVertex2 f) /\
  gap (gEndloop f) /\ gap (gEndfacet f) /\ gap (gAfter f).

(** The part of a block that [asciiFacet] reads, and the part that
    [asciiVertex] reads. *)
Definition renderHead (f : facetText) : list byte :=
  bytes "facet" ++ gNormal f ++ bytes "normal" ++ renderTriple (tNormal f) ++
  gOuter f ++ bytes "outer" ++ gLoop f ++ bytes "loop".

Definition renderLoop (f : facetText) : list byte :=
  gVertex0 f ++ bytes "vertex" ++ renderTriple (tVertex0 f) ++
  gVertex1 f ++ bytes "vertex" ++ renderTriple (tVertex1 f) ++
  gVertex2 f ++ bytes "vertex" ++ renderTriple (tVertex2 f) ++
  gEndloop f ++ bytes "endloop" ++ gEndfacet f ++ bytes "endfacet" ++ gAfter f.

Definition renderFacet (f : facetText) : list byte :=
  renderHead f ++ renderLoop f.

(** The facet that the block stands for. *)
Definition facetOfText (f : facetText) : Facet :=
  mkFacet (vertexOfTriple (tVertex0 f), vertexOfTriple (tVertex1 f),
           vertexOfTriple (tVertex2 f))
          true (vertexOfTriple (tNormal f)).

(** The text after the sentinel "solid": white space, a name, white
    space, the facet blocks, the keyword [endsolid] and anything. *)
Definition renderSolid (g0 name g1 : list byte) (fs : list facetText)
           (rest : list byte) : list byte :=
  g0 ++ name ++ g1 ++ concat (map renderFacet fs) ++ bytes "endsolid" ++ rest.

(** [runs m l Q]: run from [l], the method [m] returns, and [Q] holds of
    its result and of the lexer it leaves. *)
Definition runs {A} (m : M A) (l : lexer) (Q : A -> lexer -> Prop) : Prop :=
  exists a l', m l = Done (a, l') /\ Q a l'.

(** Nothing but [start], [pos] and [meshName] differs. *)
Definition kept (l l' : lexer) : Prop :=
  input l' = input l /\ state l' = state l /\ items l' = items l /\
  error l' = error l /\ pendingFacet l' = pendingFacet l.

(** The lexer has read on to stand between [pre] and [rest]. *)
Definition readTo (pre rest : list byte) (l l' : lexer) : Prop :=
  standsAt l' pre rest /\ kept l l'.

Definition spaceHead (text : list byte) : Prop :=
  exists c r, text = c :: r /\ member spaces c = true.

Definition nonSpaceHead (text : list byte) : Prop :=
  exists c r, text = c :: r /\ member spaces c = false.

(** Where the loop of [parseASCII] has the lexer between two facet
    blocks: in the facet state, the channel empty, no error recorded. *)
Definition ready (l : lexer) : Prop :=
  state l = Some fnAsciiFacet /\ items l = [] /\ error l = None.

(** The text of [TestSimpleASCIIParse] block by block: every literal
    follows one space, the lines are indented by 2, 4 and 6 spaces. *)
Definition spaced (lit : string) (v : float32) : coordinate :=
  mkCoordinate (bytes " ") (bytes lit) v.

Definition indent (n : nat) : list byte := x0a :: repeat x20 n.

Definition simpleText0 : facetText :=
  mkFacetText
    (bytes " ")
    (mkTriple (spaced "1" 1065353216) (spaced "0" 0) (spaced "0" 0))
    (indent 4) (bytes " ")
    (indent 6)
    (mkTriple (spaced "-2" 3221225472) (spaced "0.5" 1056964608)
              (spaced "-0.5" 3204448256))
    (indent 6)
    (mkTriple (spaced "-2" 3221225472) (spaced "1.5" 1069547520)
              (spaced "-0.5" 3204448256))
    (indent 6)
    (mkTriple (spaced "-2" 3221225472) (spaced "1.5" 1069547520)
              (spaced "0.5" 1056964608))
    (indent 4) (indent 2) (indent 2).

Definition simpleText1 : facetText :=
  mkFacetText
    (bytes " ")
    (mkTriple (spaced "1" 1065353216) (spaced "0" 0) (spaced "-0" 2147483648))
    (indent 4) (bytes " ")
    (indent 6)
    (mkTriple (spaced "-2" 3221225472) (spaced "0.5" 1056964608)
              (spaced "0.5" 1056964608))
    (indent 6)
    (mkTriple (spaced "-2" 3221225472) (spaced "0.5" 1056964608)
              (spaced "-0.5" 3204448256))
    (indent 6)
    (mkTriple (spaced "-2" 3221225472) (spaced "1.5" 1069547520)
              (spaced "0.5" 1056964608))
    (indent 4) (indent 2) (indent 0).

(** The message of [asciiFacet] at a position [p] where it finds the
    bytes [saw] and neither of its keywords. *)
Definition expectedFacet (p : Z) (saw : list byte) : message :=
  Sprintf "Expected keyword 'facet' at %v. Saw %q instead" [argInt p; argBytes saw].

(** The errors of [parseBinary]: its two messages and the two errors of
    a read at the end of the buffer. *)
Definition binaryError (e : Error) : Prop :=
  e = errors_New "Incomplete header on binary STL file." \/
  e = errors_New "Binary STL file contains no data." \/
  eofish e.

(** *** Panics and endings *)

(** The panics of an index or a slice expression out of range. *)
Definition boundsPanic (p : panic) : Prop :=
  match p with
  | IndexOutOfRange _ | SliceBoundsOutOfRange _ _ => True
  | NilDereference | SendBlocksForever => False
  end.

(** [holds m l Q]: run from [l], the method [m] panics on a bound only,
    and when it returns, [Q] holds of its result and of the lexer it
    leaves (that it does return or panic is [parseASCII_budget]). *)
Definition holds {A} (m : M A) (l : lexer) (Q : A -> lexer -> Prop) : Prop :=
  match m l with
  | Done (a, l') => Q a l'
  | Panics p => boundsPanic p
  | Exhausted => True
  end.

(** An error has been recorded. *)
Definition failed (l l' : lexer) : Prop :=
  input l' = input l /\ error l' <> None.

(** The backing array of [s] holds the bytes [keyword] somewhere. *)
Definition keywordIn (s : slice) (keyword : list byte) : Prop :=
  exists pre rest, data s ++ spare s = pre ++ keyword ++ rest.

(** What a loop body has done: made the state function return nil with
    an error recorded, or read on. *)
Definition stepped {A} (l : lexer) (r : orReturn A) (l' : lexer) : Prop :=
  match r with
  | inl st => st = None /\ failed l l'
  | inr _ => kept l l'
  end.

(** What the facet state has done: ended the parse, with an error or at
    the keyword [endsolid], or set up the pending facet. *)
Definition facetSpec (l : lexer) (st : option stateFn) (l' : lexer) : Prop :=
  match st with
  | None => failed l l' \/ (kept l l' /\ keywordIn (input l) (bytes "endsolid"))
  | Some fn =>
      fn = fnAsciiVertex /\ pendingFacet l' <> None /\
      input l' = input l /\ items l' = items l /\ error l' = error l
  end.

(** The number [x] is what the conversion makes of bytes of the buffer. *)
Definition converted (stl : slice) (x : float32) : Prop :=
  exists lo hi text,
    subslice stl lo hi = Some text /\ strconv.ParseFloat text = Some x.

Definition vertexConverted (stl : slice) (v : Vertex) : Prop :=
  converted stl (X v) /\ converted stl (Y v) /\ converted stl (Zc v).

(** The facet [f] has its three vertices from the buffer [stl]: they are
    what three passes of the loop at lines 156-175, run one after the
    other on a lexer of that buffer, have read, every coordinate the
    conversion of bytes of the buffer. *)
Definition readByLexer (stl : slice) (f : Facet) : Prop :=
  exists l0 l1 l2 l3 v0 v1 v2,
    input l0 = stl /\
    vertexLine l0 = Done (inr v0, l1) /\
    vertexLine l1 = Done (inr v1, l2) /\
    vertexLine l2 = Done (inr v2, l3) /\
    Vertices f = (v0, v1, v2) /\
    vertexConverted stl v0 /\ vertexConverted stl v1 /\ vertexConverted stl v2.

(** A facet as the ASCII parse hands it back: complete, with its
    vertices read from the buffer. *)
Definition completed (stl : slice) (f : Facet) : Prop :=
  Valid f = true /\ readByLexer stl f.


(** What the vertex state has done: ended the parse with an error, or
    sent one complete facet. *)
Definition vertexSpec (l : lexer) (st : option stateFn) (l' : lexer) : Prop :=
  match st with
  | None => failed l l'
  | Some fn =>
      fn = fnAsciiFacet /\ input l' = input l /\ error l' = error l /\
      exists f, items l' = items l ++ [f] /\ completed (input l) f
  end.

(** What [nextFacet] has done: pulled a complete facet and left the lexer
    in the facet state with the channel empty, or ended the parse. *)
Definition pulled (l : lexer) (r : option Facet) (l' : lexer) : Prop :=
  input l' = input l /\
  match r with
  | None => error l' <> None \/ keywordIn (input l) (bytes "endsolid")
  | Some f => completed (input l) f /\ items l' = [] /\ state l' = Some fnAsciiFacet
  end.

(** *** The course of a parse *)

(** The lexers at which the loop of [nextFacet] stands in the course of
    [parseASCII stl]: the fresh lexer; after a call of the state function
    that returns a next state, the lexer with that state assigned
    (line 73); after the receive of a complete facet (lines 70-71, and
    the loop of [parseASCII] goes on), the lexer with the facet taken
    from the channel. *)
Inductive visits (stl : slice) : lexer -> Prop :=
| visits_lex : visits stl (lex "ASCII STL" stl fnAsciiFileHeader)
| visits_call l st l' :
    visits stl l -> items l = [] ->
    callState (state l) l = Done (Some st, l') ->
    visits stl (set_state (Some st) l')
| visits_receive l item rest :
    visits stl l -> items l = item :: rest -> Valid item = true ->
    visits stl (set_items rest l).

(** The rest of [parseASCII] from inside a call of [nextFacet]: [n]
    passes of its loop are left, [p] passes of the loop of [parseASCII],
    and [acc] are the facets appended so far. *)
Definition resume (n p : nat) (acc : list Facet) : M (list Facet) :=
  bind (nextFacet n) (fun f => pullFacets p acc f).

(** A solid whose text ends in the third literal of the normal, the
    literal 1.. of the permissive grammar. *)
Definition cutLiteral : list byte := bytes " a facet normal 0 0 1..".

(** * The binary reader *)

Section BinaryFacts.
Import Binary.

Lemma reads_ret {A} (a : A) : reads 0 (ret a) (fun _ => a).
Proof. intros buf; split; [lia | reflexivity]. Qed.

Lemma reads_ReadFull n : (0 < n)%nat -> reads n (ReadFull n) (fun bs => bs).
Proof.
  intros Hn buf; split; intros H; unfold ReadFull.
  - destruct buf as [|b buf]; [exists io_EOF; split; [reflexivity | now left]|].
    apply Nat.ltb_lt in H. rewrite H.
    exists io_ErrUnexpectedEOF; split; [reflexivity | now right].
  - destruct buf as [|b buf]; [simpl in H; lia|].
    apply Nat.ltb_ge in H. now rewrite H.
Qed.

Lemma reads_bind {A B} k1 k2 (m : reader A) (f : A -> reader B) v1 v2 :
  reads k1 m v1 ->
  (forall a, reads k2 (f a) (v2 a)) ->
  reads (k1 + k2) (bind m f)
        (fun bs => v2 (v1 (firstn k1 bs)) (skipn k1 bs)).
Proof.
  intros Hm Hf buf; unfold bind; split; intros H.
  - destruct (Nat.lt_ge_cases (length buf) k1) as [Hlt | Hge].
    + destruct (proj1 (Hm buf) Hlt) as (e & -> & He). now exists e.
    + rewrite (proj2 (Hm buf) Hge).
      apply (proj1 (Hf _ _)). rewrite length_skipn. lia.
  - rewrite (proj2 (Hm buf)) by lia.
    rewrite (proj2 (Hf _ _)) by (rewrite length_skipn; lia).
    rewrite firstn_firstn, Nat.min_l by lia.
    rewrite skipn_firstn_comm.
    replace (k1 + k2 - k1)%nat with k2 by lia.
    now rewrite skipn_skipn, (Nat.add_comm k2 k1).
Qed.

Lemma reads_ext {A} k k' (m : reader A) v v' :
  reads k m v -> k = k' ->
  (forall bs, length bs = k -> v bs = v' bs) ->
  reads k' m v'.
Proof.
  intros Hm <- Hv buf; split; intros H.
  - exact (proj1 (Hm buf) H).
  - rewrite (proj2 (Hm buf) H), Hv; [reflexivity|].
    rewrite length_firstn; lia.
Qed.

Ltac explicit_bytes bs H :=
  simpl in H;
  repeat (destruct bs as [|? bs]; [discriminate H|]);
  destruct bs; [|discriminate H].

Lemma reads_Read32 : reads 4 Read32 Uint32.
Proof.
  eapply reads_ext.
  - refine (reads_bind _ _ _ _ _ _ _ _);
      [apply reads_ReadFull; lia | intros a; exact (reads_ret _)].
  - reflexivity.
  - intros bs H. explicit_bytes bs H. reflexivity.
Qed.

Lemma reads_Read16 : reads 2 Read16 (fun _ => tt).
Proof.
  eapply reads_ext.
  - refine (reads_bind _ _ _ _ _ _ _ _);
      [apply reads_ReadFull; lia | intros a; exact (reads_ret _)].
  - reflexivity.
  - intros bs H. explicit_bytes bs H. reflexivity.
Qed.

Lemma reads_readNormal ps : reads 12 (readNormal ps) (fun _ => vertex_of ps).
Proof.
  eapply reads_ext.
  - unfold readNormal.
    repeat (refine (reads_bind _ _ _ _ _ _ _ _); [apply reads_Read32 | intros ?; cbv beta zeta]).
    exact (reads_ret _).
  - reflexivity.
  - reflexivity.
Qed.

Lemma reads_readVertex ps :
  reads 12 (readVertex ps) (fun bs => (vertexAt bs 0, scratch_of (vertexAt bs 0))).
Proof.
  eapply reads_ext.
  - unfold readVertex.
    repeat (refine (reads_bind _ _ _ _ _ _ _ _); [apply reads_Read32 | intros ?; cbv beta zeta]).
    exact (reads_ret _).
  - reflexivity.
  - intros bs H. explicit_bytes bs H. reflexivity.
Qed.

Lemma reads_readTriangles n :
  forall ps, reads (50 * n) (readTriangles n ps) (decodeFacets n ps).
Proof.
  induction n as [|n IH]; intros ps.
  - apply reads_ret.
  - eapply reads_ext.
    + cbn [readTriangles].
      refine (reads_bind _ _ _ _ _ _ _ _); [apply reads_readNormal | intros normal; cbv beta zeta].
      refine (reads_bind _ _ _ _ _ _ _ _); [apply reads_readVertex | intros r0; cbv beta zeta].
      refine (reads_bind _ _ _ _ _ _ _ _); [apply reads_readVertex | intros r1; cbv beta zeta].
      refine (reads_bind _ _ _ _ _ _ _ _); [apply reads_readVertex | intros r2; cbv beta zeta].
      refine (reads_bind _ _ _ _ _ _ _ _); [apply reads_Read16 | intros u; cbv beta zeta].
      refine (reads_bind _ _ _ _ _ _ _ _); [apply IH | intros facets; cbv beta zeta].
      exact (reads_ret _).
    + lia.
    + intros bs H.
      do 50 (destruct bs as [|? bs]; [simpl in H; lia|]).
      cbn [firstn skipn Nat.add fst snd decodeFacets].
      rewrite firstn_all2 by (simpl in H; lia).
      reflexivity.
Qed.

Lemma decodeFacets_records recs : forall ps rest,
  Forall (fun r => length r = 50%nat) recs ->
  decodeFacets (length recs) ps (concat recs ++ rest) = facetsOf ps recs.
Proof.
  induction recs as [|r recs IH]; intros ps rest H; [reflexivity|].
  inversion H as [|? ? Hr Hrecs]; subst.
  cbn [length decodeFacets concat facetsOf]. rewrite <- app_assoc.
  rewrite firstn_app, Hr, Nat.sub_diag, firstn_O, app_nil_r.
  rewrite firstn_all2 by lia.
  rewrite skipn_app, Hr, Nat.sub_diag, skipn_O.
  rewrite skipn_all2 by lia.
  cbn [app]. now rewrite IH by assumption.
Qed.

Lemma length_decodeFacets n : forall ps bs, length (decodeFacets n ps bs) = n.
Proof. induction n; intros; simpl; [reflexivity | now rewrite IHn]. Qed.

Lemma length_facetsOf recs : forall ps, length (facetsOf ps recs) = length recs.
Proof. induction recs; intros; simpl; [reflexivity | now rewrite IHrecs]. Qed.

(** The binary reader on a buffer that holds header and count: an
    end-of-file error when the records are short of the count, the decoded
    facets otherwise. *)
Lemma parseBinary_spec stl :
  84 <= len stl ->
  let n := declaredCount stl in
  ((length (recordBytes stl) < 50 * n)%nat ->
     exists e, parseBinary stl = failure e /\ eofish e) /\
  ((50 * n <= length (recordBytes stl))%nat ->
     parseBinary stl =
     success (decodeFacets n (0, 0, 0) (firstn (50 * n) (recordBytes stl)))).
Proof.
  intros Hlen n. unfold parseBinary, len in *.
  destruct (Z.ltb_spec (Z.of_nat (length (data stl))) 80) as [?|_]; [lia|].
  destruct (Z.ltb_spec (Z.of_nat (length (skipn 80 (data stl)))) 4) as [H|_];
    [rewrite length_skipn in H; lia|].
  rewrite (proj2 (reads_Read32 _))
    by (rewrite length_firstn, length_skipn; lia).
  rewrite firstn_firstn, Nat.min_id, skipn_skipn.
  change (4 + 80)%nat with 84%nat.
  fold (recordBytes stl). fold (declaredCount stl). fold n.
  split; intros H.
  - destruct (proj1 (reads_readTriangles n (0, 0, 0) (recordBytes stl)) H)
      as (e & -> & He).
    now exists e.
  - now rewrite (proj2 (reads_readTriangles n (0, 0, 0) (recordBytes stl)) H).
Qed.

(** A well-formed binary buffer: header, count, the records counted, and
    anything after them. *)
Lemma parseBinary_wellformed header count recs trailing extra :
  length header = 80%nat ->
  length count = 4%nat ->
  Uint32 count = Z.of_nat (length recs) ->
  Forall (fun r => length r = 50%nat) recs ->
  parseBinary (mkSlice (header ++ count ++ concat recs ++ trailing) extra) =
  success (facetsOf (0, 0, 0) recs).
Proof.
  intros Hh Hc Hn Hrecs.
  set (stl := mkSlice _ _).
  assert (Hlen : 84 <= len stl).
  { unfold len, stl; cbn [data]. rewrite !length_app. lia. }
  assert (Hcount : declaredCount stl = length recs).
  { unfold declaredCount, stl; cbn [data].
    rewrite skipn_app, Hh, Nat.sub_diag, skipn_O.
    rewrite skipn_all2 by lia. cbn [app].
    rewrite firstn_app, Hc, Nat.sub_diag, firstn_O, app_nil_r.
    rewrite firstn_all2 by lia. rewrite Hn. apply Nat2Z.id. }
  assert (Hbody : recordBytes stl = concat recs ++ trailing).
  { unfold recordBytes, stl; cbn [data].
    rewrite app_assoc, skipn_app, length_app, Hh, Hc.
    change (84 - (80 + 4))%nat with 0%nat. rewrite skipn_O.
    rewrite skipn_all2 by (rewrite length_app; lia). reflexivity. }
  assert (Hsize : length (concat recs) = (50 * length recs)%nat).
  { clear -Hrecs. induction Hrecs as [|r recs Hr _ IH]; [reflexivity|].
    cbn [concat length]. rewrite length_app, IH, Hr. lia. }
  destruct (parseBinary_spec stl Hlen) as [_ Hok].
  rewrite Hok by (rewrite Hbody, length_app, Hcount; lia).
  rewrite Hcount, Hbody, <- Hsize, firstn_app, Nat.sub_diag, firstn_O,
    firstn_all, app_nil_r.
  rewrite <- (app_nil_r (concat recs)).
  now rewrite decodeFacets_records by assumption.
Qed.

Lemma parseBinary_short stl :
  len stl < 84 ->
  parseBinary stl =
  failure (errors_New (if len stl <? 80
                       then "Incomplete header on binary STL file."
                       else "Binary STL file contains no data.")).
Proof.
  intros H. unfold parseBinary.
  destruct (Z.ltb_spec (len stl) 80) as [_|H80]; [reflexivity|].
  unfold len in *. rewrite length_skipn.
  destruct (Z.ltb_spec (Z.of_nat (length (data stl) - 80)) 4) as [_|?];
    [reflexivity | lia].
Qed.

Lemma parseBinary_success stl fs :
  parseBinary stl = success fs ->
  84 <= len stl /\
  fs = decodeFacets (declaredCount stl) (0, 0, 0)
         (firstn (50 * declaredCount stl) (recordBytes stl)).
Proof.
  intros H.
  destruct (Z.lt_ge_cases (len stl) 84) as [Hlt | Hge].
  - rewrite (parseBinary_short _ Hlt) in H. discriminate.
  - split; [assumption|].
    destruct (parseBinary_spec stl Hge) as [Hbad Hok].
    destruct (Nat.lt_ge_cases (length (recordBytes stl)) (50 * declaredCount stl))
      as [Hshort | Hfull].
    + destruct (Hbad Hshort) as (e & He & _). rewrite He in H. discriminate.
    + rewrite (Hok Hfull) in H. now injection H as <-.
Qed.

Lemma vertex_of_scratch_of v : vertex_of (scratch_of v) = v.
Proof. now destruct v. Qed.

Lemma decodeFacets_chain n : forall ps bs,
  (forall f, nth_error (decodeFacets n ps bs) 0 = Some f ->
             Normal f = vertex_of ps) /\
  (forall i f g,
      nth_error (decodeFacets n ps bs) i = Some f ->
      nth_error (decodeFacets n ps bs) (S i) = Some g ->
      Normal g = vertex_at (Vertices f) 2).
Proof.
  induction n as [|n IH]; intros ps bs; cbn [decodeFacets]; split.
  - intros f H; discriminate.
  - intros i f g H; now destruct i.
  - intros f [= <-]. reflexivity.
  - intros [|i] f g Hf Hg.
    + injection Hf as <-. cbn [nth_error] in Hg.
      apply (proj1 (IH _ _)) in Hg.
      rewrite Hg, vertex_of_scratch_of. reflexivity.
    + exact (proj2 (IH _ _) i f g Hf Hg).
Qed.

Lemma decodeFacets_valid n : forall ps bs,
  Forall (fun f => Valid f = true) (decodeFacets n ps bs).
Proof.
  induction n; intros; cbn [decodeFacets]; constructor; [reflexivity | apply IHn].
Qed.

Lemma parseBinary_valid stl :
  Forall (fun f => Valid f = true) (fst (parseBinary stl)).
Proof.
  destruct (Z.lt_ge_cases (len stl) 84) as [Hlt | Hge].
  - rewrite (parseBinary_short _ Hlt). constructor.
  - destruct (parseBinary_spec stl Hge) as [Hbad Hok].
    destruct (Nat.lt_ge_cases (length (recordBytes stl)) (50 * declaredCount stl))
      as [Hshort | Hfull].
    + destruct (Hbad Hshort) as (e & -> & _). constructor.
    + rewrite (Hok Hfull). apply decodeFacets_valid.
Qed.

(** C2, at the buffer of [TestSimpleBinaryParse]: the two facets come back
    in record order with the vertices of their records, but the first
    record's normal, (1, 0, 0) at its bytes 0-11, is not the [Normal] of
    the first facet, which is (0, 0, 0). *)
Theorem parseBinary_drops_record_normal :
  ParseSTLBytes (tight simpleBinary) = Done ([simpleFacet0; simpleFacet1], None) /\
  parseBinary (tight simpleBinary) = ([simpleFacet0; simpleFacet1], None) /\
  Vertices simpleFacet0 = recordVertices cubeRecord0 /\
  Vertices simpleFacet1 = recordVertices cubeRecord1 /\
  recordNormal cubeRecord0 = mkVertex 1065353216 0 0 /\
  Normal simpleFacet0 = mkVertex 0 0 0 /\
  Normal simpleFacet0 <> recordNormal cubeRecord0.
Proof. repeat split; try reflexivity. vm_compute. discriminate. Qed.

(** C3: in what the binary reader returns, the [Normal] of the facet at
    index 0 is the zero vector, and the [Normal] of every later facet is
    the third vertex of the facet before it; the normal of the facet's own
    record plays no part. *)
Theorem parseBinary_normal_is_stale stl fs :
  parseBinary stl = success fs ->
  (forall f, nth_error fs 0 = Some f -> Normal f = zeroVertex) /\
  (forall i f g,
      nth_error fs i = Some f -> nth_error fs (S i) = Some g ->
      Normal g = vertex_at (Vertices f) 2).
Proof.
  intros H. apply parseBinary_success in H as [_ ->].
  apply decodeFacets_chain.
Qed.

Lemma parseBinary_normal_is_stale_witness :
  parseBinary (tight simpleBinary) = success [simpleFacet0; simpleFacet1] /\
  Normal simpleFacet0 = zeroVertex /\
  Normal simpleFacet1 = vertex_at (Vertices simpleFacet0) 2.
Proof.
  pose proof (parseBinary_normal_is_stale (tight simpleBinary)
                [simpleFacet0; simpleFacet1] eq_refl) as [H0 H1].
  split; [reflexivity|]. split.
  - apply H0. reflexivity.
  - apply (H1 0%nat); reflexivity.
Defined.

(** C7: a buffer shorter than 80 bytes fails with the header error; one
    with fewer than 4 bytes after the header fails with the count error;
    one whose records are shorter than the count declares fails with an
    end-of-file error.  Each failure hands back no facets. *)
Theorem parseBinary_truncated stl :
  (len stl < 80 ->
   parseBinary stl = ([], Some (errors_New "Incomplete header on binary STL file."))) /\
  (80 <= len stl < 84 ->
   parseBinary stl = ([], Some (errors_New "Binary STL file contains no data."))) /\
  (84 <= len stl ->
   len stl - 84 < 50 * Z.of_nat (declaredCount stl) ->
   exists e, parseBinary stl = ([], Some e) /\
             (e = io_EOF \/ e = io_ErrUnexpectedEOF)).
Proof.
  split; [|split].
  - intros H. rewrite parseBinary_short by lia.
    destruct (Z.ltb_spec (len stl) 80); [reflexivity | lia].
  - intros H. rewrite parseBinary_short by lia.
    destruct (Z.ltb_spec (len stl) 80); [lia | reflexivity].
  - intros H Hshort.
    apply (proj1 (parseBinary_spec stl H)).
    unfold recordBytes, len in *. rewrite length_skipn. lia.
Qed.

Lemma parseBinary_truncated_witness :
  parseBinary (tight (repeat x00 79)) =
    ([], Some (errors_New "Incomplete header on binary STL file.")) /\
  parseBinary (tight (repeat x00 83)) =
    ([], Some (errors_New "Binary STL file contains no data.")) /\
  exists e, parseBinary (tight (removelast simpleBinary)) = ([], Some e) /\
            (e = io_EOF \/ e = io_ErrUnexpectedEOF).
Proof.
  split; [|split].
  - apply (proj1 (parseBinary_truncated (tight (repeat x00 79)))).
    vm_compute. reflexivity.
  - apply (proj1 (proj2 (parseBinary_truncated (tight (repeat x00 83))))).
    vm_compute. split; [discriminate | reflexivity].
  - apply (proj2 (proj2 (parseBinary_truncated (tight (removelast simpleBinary))))).
    + vm_compute. discriminate.
    + vm_compute. reflexivity.
Defined.

(** C10: with header, count and the records counted in place, whatever
    follows the last record is ignored: the decode succeeds with one facet
    per record, the same facets as without the trailing bytes. *)
Theorem parseBinary_ignores_trailing_bytes header count recs trailing extra :
  length header = 80%nat ->
  length count = 4%nat ->
  Binary.Uint32 count = Z.of_nat (length recs) ->
  Forall (fun r => length r = 50%nat) recs ->
  exists facets,
    parseBinary (mkSlice (header ++ count ++ concat recs ++ trailing) extra)
      = (facets, None) /\
    length facets = length recs /\
    parseBinary (mkSlice (header ++ count ++ concat recs) extra)
      = (facets, None).
Proof.
  intros Hh Hc Hn Hrecs. exists (facetsOf (0, 0, 0) recs).
  split; [|split].
  - now apply parseBinary_wellformed.
  - apply length_facetsOf.
  - rewrite <- (app_nil_r (concat recs)).
    now apply parseBinary_wellformed.
Qed.

Lemma parseBinary_ignores_trailing_bytes_witness :
  exists facets,
    parseBinary (mkSlice (repeat x00 80 ++ [x02; x00; x00; x00] ++
                          concat [cubeRecord0; cubeRecord1] ++ bytes "trailer")
                         []) = (facets, None) /\
    length facets = 2%nat /\
    parseBinary (mkSlice (repeat x00 80 ++ [x02; x00; x00; x00] ++
                          concat [cubeRecord0; cubeRecord1]) [])
      = (facets, None).
Proof.
  apply (parseBinary_ignores_trailing_bytes
           (repeat x00 80) [x02; x00; x00; x00] [cubeRecord0; cubeRecord1]
           (bytes "trailer") []).
  - reflexivity.
  - reflexivity.
  - reflexivity.
  - repeat constructor.
Defined.

End BinaryFacts.

(** * The lexer *)

Lemma set_pos_set_pos p q l : set_pos p (set_pos q l) = set_pos p l.
Proof. reflexivity. Qed.

Lemma Done_set_pos {A} (a : A) p q l :
  p = q -> Done (a, set_pos p l) = Done (a, set_pos q l).
Proof. now intros ->. Qed.

Lemma set_pos_same l p : p = pos l -> set_pos p l = l.
Proof. intros ->. now destruct l. Qed.

Lemma standsAt_step l pre xs rest :
  standsAt l pre (xs ++ rest) ->
  standsAt (set_pos (pos l + Z.of_nat (length xs)) l) (pre ++ xs) rest.
Proof.
  intros [Hd Hp]. split; cbn.
  - now rewrite Hd, app_assoc.
  - rewrite length_app. lia.
Qed.

Lemma standsAt_set_pos l q pre rest :
  standsAt (set_pos q l) pre rest ->
  data (input l) = pre ++ rest /\ q = Z.of_nat (length pre).
Proof. intros H; exact H. Qed.

Lemma next_at l pre b rest :
  standsAt l pre (b :: rest) ->
  next l = Done (byteZ b, set_pos (pos l + 1) l).
Proof.
  intros [Hd Hp]. unfold next, index, len. rewrite Hd, Hp, length_app.
  cbn [length].
  destruct (Z.leb_spec (Z.of_nat (length pre + S (length rest)))
                       (Z.of_nat (length pre))) as [?|_]; [lia|].
  destruct (Z.leb_spec 0 (Z.of_nat (length pre))) as [_|?]; [|lia].
  destruct (Z.ltb_spec (Z.of_nat (length pre))
                       (Z.of_nat (length pre + S (length rest)))) as [_|?]; [|lia].
  cbn [andb]. rewrite Nat2Z.id, nth_error_app2, Nat.sub_diag by lia.
  reflexivity.
Qed.

Lemma acceptRunLoop_at valid run :
  forall fuel l pre d rest result,
    standsAt l pre (run ++ d :: rest) ->
    Forall (fun b => member valid b = true) run ->
    member valid d = false ->
    (length run < fuel)%nat ->
    acceptRunLoop fuel valid result l =
    Done (result || negb (isNil run),
          set_pos (pos l + Z.of_nat (length run) + 1) l).
Proof.
  induction run as [|b run IH]; intros fuel l pre d rest result Hat Hrun Hd Hfuel;
    (destruct fuel as [|fuel]; [simpl in Hfuel; lia|]);
    cbn [acceptRunLoop]; unfold bind.
  - rewrite (next_at l pre d rest Hat).
    unfold member in Hd. rewrite Hd. cbn [length isNil negb ret Z.of_nat].
    rewrite orb_false_r, Z.add_0_r. reflexivity.
  - rewrite (next_at l pre b (run ++ d :: rest) Hat).
    inversion Hrun as [|? ? Hb Hrun']; subst.
    unfold member in Hb. rewrite Hb.
    apply (standsAt_step l pre [b]) in Hat.
    change (Z.of_nat (length [b])) with 1 in Hat.
    rewrite (IH fuel _ _ d rest true Hat Hrun' Hd) by (simpl in Hfuel; lia).
    rewrite set_pos_set_pos, orb_true_r. cbn [pos set_pos isNil negb length].
    apply Done_set_pos. lia.
Qed.

(** [acceptRun] over a run that ends before the end of the input takes the
    run and nothing else. *)
Lemma acceptRun_at valid run l pre d rest :
  standsAt l pre (run ++ d :: rest) ->
  Forall (fun b => member valid b = true) run ->
  member valid d = false ->
  acceptRun valid l =
  Done (negb (isNil run), set_pos (pos l + Z.of_nat (length run)) l).
Proof.
  intros Hat Hrun Hd. unfold acceptRun, bind.
  rewrite (acceptRunLoop_at valid run _ l pre d rest false Hat Hrun Hd).
  - unfold backup, modify, ret. cbn [pos set_pos orb].
    rewrite set_pos_set_pos. apply Done_set_pos. lia.
  - destruct Hat as [Hdata Hp]. unfold len.
    rewrite Hdata, Hp, !length_app. cbn [length]. lia.
Qed.

Lemma accept_hit valid l pre b rest :
  standsAt l pre (b :: rest) ->
  member valid b = true ->
  accept valid l = Done (true, set_pos (pos l + 1) l).
Proof.
  intros Hat Hb. unfold accept, bind. rewrite (next_at l pre b rest Hat).
  unfold member in Hb. now rewrite Hb.
Qed.

Lemma accept_miss valid l pre b rest :
  standsAt l pre (b :: rest) ->
  member valid b = false ->
  accept valid l = Done (false, l).
Proof.
  intros Hat Hb. unfold accept, bind. rewrite (next_at l pre b rest Hat).
  unfold member in Hb. rewrite Hb. unfold backup, modify, ret.
  cbn [pos set_pos]. rewrite set_pos_set_pos, set_pos_same by lia.
  reflexivity.
Qed.

Lemma subslice_at s pre xs rest :
  data s = pre ++ xs ++ rest ->
  subslice s (Z.of_nat (length pre)) (Z.of_nat (length pre) + Z.of_nat (length xs))
  = Some xs.
Proof.
  intros Hd. unfold subslice, cap. rewrite Hd, !length_app.
  destruct (Z.leb_spec 0 (Z.of_nat (length pre))) as [_|?]; [|lia].
  destruct (Z.leb_spec (Z.of_nat (length pre))
              (Z.of_nat (length pre) + Z.of_nat (length xs))) as [_|?]; [|lia].
  destruct (Z.leb_spec (Z.of_nat (length pre) + Z.of_nat (length xs))
              (Z.of_nat (length pre + (length xs + length rest) + length (spare s))))
    as [_|?]; [|lia].
  cbn [andb]. f_equal.
  rewrite Nat2Z.id, <- !app_assoc, skipn_app, Nat.sub_diag, skipn_all2 by lia.
  cbn [app skipn].
  replace (Z.to_nat _) with (length xs) by lia.
  rewrite firstn_app, Nat.sub_diag, firstn_all2 by lia.
  cbn [firstn]. apply app_nil_r.
Qed.

Lemma bytes_Equal_refl a : bytes_Equal a a = true.
Proof. unfold bytes_Equal. now destruct (list_eq_dec _ a a). Qed.

Lemma bytes_Equal_eq a b : bytes_Equal a b = true -> a = b.
Proof. unfold bytes_Equal. now destruct (list_eq_dec _ a b). Qed.

Lemma acceptKeyword_hit keyword l pre rest :
  standsAt l pre (keyword ++ rest) ->
  acceptKeyword keyword l =
  Done (true, set_pos (pos l + Z.of_nat (length keyword)) l).
Proof.
  intros [Hd Hp]. unfold acceptKeyword, bind, get, inputSlice.
  rewrite Hp, (subslice_at _ pre keyword rest Hd), bytes_Equal_refl.
  cbn. now rewrite Hp.
Qed.

(** The text between an earlier position and the lexer's. *)
Lemma inputSlice_at l pre xs rest :
  standsAt l (pre ++ xs) rest ->
  inputSlice (Z.of_nat (length pre)) (pos l) l = Done (xs, l).
Proof.
  intros [Hd Hp]. unfold inputSlice. rewrite Hp, length_app, Nat2Z.inj_add.
  rewrite <- app_assoc in Hd. now rewrite (subslice_at _ pre xs rest Hd).
Qed.

(** Facts about the character classes, checked byte by byte. *)
Ltac by_bytes b := revert b; intros []; vm_compute; congruence.

Lemma floatDigit_not_sign b :
  member floatDigits b = true -> member (bytes "+-") b = false.
Proof. by_bytes b. Qed.

Lemma floatDigit_not_space b :
  member floatDigits b = true -> member spaces b = false.
Proof. by_bytes b. Qed.

Lemma exponent_not_floatDigit b :
  member (bytes "eE") b = true -> member floatDigits b = false.
Proof. by_bytes b. Qed.

Lemma space_not_floatDigit b :
  member spaces b = true -> member floatDigits b = false.
Proof. by_bytes b. Qed.

Lemma space_not_exponent b :
  member spaces b = true -> member (bytes "eE") b = false.
Proof. by_bytes b. Qed.

Lemma head_of_run r :
  digitDotRun r -> exists b r', r = b :: r' /\ member floatDigits b = true.
Proof.
  intros [Hne Hall]. destruct r as [|b r']; [contradiction|].
  inversion Hall; subst. now exists b, r'.
Qed.

(** The optional sign and the run after it, as [acceptNumber] takes them
    twice; [k] is what the code does next with the result of [acceptRun]. *)
Lemma signedRun_at {A} (k : bool -> M A) l pre s r c rest :
  standsAt l pre (s ++ r ++ c :: rest) ->
  optionalSign s -> digitDotRun r -> member floatDigits c = false ->
  bind (accept (bytes "+-")) (fun _ => bind (acceptRun floatDigits) k) l =
  k true (set_pos (pos l + Z.of_nat (length (s ++ r))) l).
Proof.
  intros Hat Hs Hr Hc.
  destruct (head_of_run r Hr) as (b & r' & Hb & Hmem).
  assert (Hsign : exists sg,
            accept (bytes "+-") l =
            Done (sg, set_pos (pos l + Z.of_nat (length s)) l)).
  { destruct Hs as [-> | [-> | ->]].
    - exists false. rewrite Hb in Hat.
      rewrite (accept_miss _ l pre b (r' ++ c :: rest) Hat)
        by now apply floatDigit_not_sign.
      cbn [length Z.of_nat]. rewrite set_pos_same by lia. reflexivity.
    - exists true. now rewrite (accept_hit _ l pre _ _ Hat).
    - exists true. now rewrite (accept_hit _ l pre _ _ Hat). }
  destruct Hsign as (sg & Hsign).
  unfold bind at 1. rewrite Hsign.
  apply standsAt_step in Hat.
  unfold bind. rewrite (acceptRun_at _ r _ _ c rest Hat (proj2 Hr) Hc).
  rewrite Hb at 1. cbn [isNil negb pos set_pos].
  rewrite set_pos_set_pos, length_app, Nat2Z.inj_add, Z.add_assoc.
  reflexivity.
Qed.

(** The tokenizer takes every literal of the permissive grammar that a
    white-space byte follows, whole. *)
Lemma acceptNumber_permissive l pre tok d rest :
  standsAt l pre (tok ++ d :: rest) ->
  member spaces d = true ->
  permissiveNumber tok ->
  acceptNumber l = Done (true, set_pos (pos l + Z.of_nat (length tok)) l).
Proof.
  intros Hat Hd (s & r & x & -> & Hs & Hr & Hx).
  unfold acceptNumber.
  destruct Hx as [-> | (m & s' & r' & -> & Hm & Hs' & Hr')].
  - rewrite app_nil_r in *. rewrite <- app_assoc in Hat.
    rewrite (signedRun_at _ l pre s r d rest Hat Hs Hr)
      by now apply space_not_floatDigit.
    cbn [negb]. rewrite app_assoc in Hat. apply standsAt_step in Hat.
    unfold bind. rewrite (accept_miss _ _ _ d rest Hat)
      by now apply space_not_exponent.
    reflexivity.
  - assert (Hshape : (s ++ r ++ m :: s' ++ r') ++ d :: rest =
                     s ++ r ++ m :: s' ++ r' ++ d :: rest).
    { rewrite <- !app_assoc. cbn [app]. now rewrite <- app_assoc. }
    rewrite Hshape in Hat. clear Hshape.
    rewrite (signedRun_at _ l pre s r m (s' ++ r' ++ d :: rest) Hat Hs Hr)
      by now apply exponent_not_floatDigit.
    cbn [negb]. rewrite app_assoc in Hat. apply standsAt_step in Hat.
    unfold bind at 1. rewrite (accept_hit _ _ _ m _ Hat Hm).
    apply (standsAt_step _ _ [m]) in Hat.
    rewrite (signedRun_at _ _ _ s' r' d rest Hat Hs' Hr')
      by now apply space_not_floatDigit.
    cbn [negb pos set_pos ret]. rewrite !set_pos_set_pos.
    apply Done_set_pos.
    rewrite !length_app. cbn [length]. rewrite !length_app. lia.
Qed.

Lemma permissive_head tok :
  permissiveNumber tok ->
  exists b t, tok = b :: t /\ member spaces b = false.
Proof.
  intros (s & r & x & -> & Hs & Hr & _).
  destruct (head_of_run r Hr) as (b & r' & -> & Hb).
  destruct Hs as [-> | [-> | ->]]; cbn [app bytes list_byte_of_string].
  - exists b, (r' ++ x). split; [reflexivity | now apply floatDigit_not_space].
  - eexists _, _. split; reflexivity.
  - eexists _, _. split; reflexivity.
Qed.

(** The [acceptRun(spaces)] that opens a coordinate takes the white
    space before the literal and stops at the literal. *)
Lemma acceptRun_spaces_before l pre ws tok rest :
  standsAt l pre (ws ++ tok ++ rest) ->
  Forall (fun b => member spaces b = true) ws ->
  permissiveNumber tok ->
  acceptRun spaces l =
  Done (negb (isNil ws), set_pos (pos l + Z.of_nat (length ws)) l).
Proof.
  intros Hat Hws Htok. destruct (permissive_head tok Htok) as (b & t & -> & Hb).
  now apply (acceptRun_at spaces ws l pre b (t ++ rest)).
Qed.

Lemma inputSlice_token l pre tok rest c p :
  standsAt l (pre ++ tok) rest ->
  c = Z.of_nat (length pre) -> p = pos l ->
  inputSlice c p l = Done (tok, l).
Proof. intros Hat -> ->. now apply inputSlice_at with (rest := rest). Qed.

Ltac token_text pre tok rest :=
  match goal with
  | |- context [inputSlice ?a ?b ?L] =>
      replace (inputSlice a b L) with (Done (tok, L))
        by (symmetry; apply (inputSlice_token L pre tok rest);
            [assumption | assumption | reflexivity])
  end.

(** An [inl] from a loop body is the state function's return. *)
Lemma bindBody_returned {A B} (m : M (orReturn A)) (k : A -> M (orReturn B)) l st l' :
  m l = Done (inl st, l') -> bindBody m k l = Done (inl st, l').
Proof. intros H. unfold bindBody, bind. now rewrite H. Qed.

Lemma bindFn_returned {A} (m : M (orReturn A)) (k : A -> M (option stateFn)) l st l' :
  m l = Done (inl st, l') -> bindFn m k l = Done (st, l').
Proof. intros H. unfold bindFn, bind. now rewrite H. Qed.

(** A literal of the permissive grammar that stands where a coordinate
    is read, after any white space and before a white-space byte, and
    that the conversion rejects. *)
Lemma coordinate_at_literal l pre ws tok d rest :
  standsAt l pre (ws ++ tok ++ d :: rest) ->
  Forall (fun b => member spaces b = true) ws ->
  member spaces d = true ->
  permissiveNumber tok ->
  strconv.ParseFloat tok = None ->
  let l1 := set_pos (pos l + Z.of_nat (length ws)) l in
  let l2 := set_pos (pos l + Z.of_nat (length (ws ++ tok))) l in
  acceptNumber l1 = Done (true, l2) /\
  vertexCoordinate l =
    Done (inl None, set_error (Some (unableToParse tok)) l2) /\
  normalCoordinate l =
    Done (inl None, set_error (Some (unableToParse tok)) (set_start (pos l1) l2)).
Proof.
  intros Hat Hws Hd Htok Hbad l1 l2.
  pose proof (acceptRun_spaces_before l pre ws tok (d :: rest) Hat Hws Htok) as Hsp.
  fold l1 in Hsp.
  assert (Hat1 : standsAt l1 (pre ++ ws) (tok ++ d :: rest))
    by exact (standsAt_step l pre ws _ Hat).
  assert (Hl2 : set_pos (pos l1 + Z.of_nat (length tok)) l1 = l2).
  { unfold l1, l2. rewrite set_pos_set_pos, length_app, Nat2Z.inj_add.
    cbn [pos set_pos]. now rewrite Z.add_assoc. }
  pose proof (acceptNumber_permissive l1 (pre ++ ws) tok d rest Hat1 Hd Htok) as Hnum.
  rewrite Hl2 in Hnum.
  assert (Hat2 : standsAt l2 ((pre ++ ws) ++ tok) (d :: rest)).
  { rewrite <- Hl2. exact (standsAt_step l1 (pre ++ ws) tok _ Hat1). }
  assert (Hc : pos l1 = Z.of_nat (length (pre ++ ws))) by apply Hat1.
  split; [exact Hnum|]. split.
  - unfold vertexCoordinate, bind, get. rewrite Hsp, Hnum.
    cbn [negb].
    token_text (pre ++ ws) tok (d :: rest).
    rewrite Hbad. reflexivity.
  - unfold normalCoordinate, bind, get, ignore, modify. rewrite Hsp.
    assert (Hat1' : standsAt (set_start (pos l1) l1) (pre ++ ws) (tok ++ d :: rest))
      by exact Hat1.
    rewrite (acceptNumber_permissive _ (pre ++ ws) tok d rest Hat1' Hd Htok).
    cbn [negb pos set_pos start set_start].
    apply standsAt_step in Hat1'.
    token_text (pre ++ ws) tok (d :: rest).
    rewrite Hbad. unfold Return, errorf, bind, modify, ret.
    cbn [set_error]. rewrite <- Hl2. reflexivity.
Qed.

(** One pass of [nextFacet] with the channel empty. *)
Lemma nextFacet_call fuel l :
  items l = [] ->
  nextFacet (S fuel) l =
  bind (callState (state l))
       (fun st => bind (modify (set_state st))
                       (fun _ => match st with
                                 | None => ret None
                                 | Some _ => nextFacet fuel
                                 end)) l.
Proof. intros H. cbn [nextFacet]. now rewrite H. Qed.


(** ** A family of inputs that end in the conversion *)

Lemma ident_not_space b :
  member ident b = true -> member spaces b = false.
Proof. by_bytes b. Qed.

Lemma space_not_ident b :
  member spaces b = true -> member ident b = false.
Proof. by_bytes b. Qed.

Lemma bytes_Equal_neq a b : a <> b -> bytes_Equal a b = false.
Proof. unfold bytes_Equal. now destruct (list_eq_dec _ a b). Qed.

(** The header state over a mesh name that white space follows. *)
Lemma asciiFileHeader_named l name s rest :
  standsAt l [] (name ++ s :: rest) ->
  start l = 0 ->
  name <> [] -> name <> bytes "facet" ->
  Forall (fun b => member ident b = true) name ->
  member spaces s = true ->
  asciiFileHeader l =
  Done (Some fnAsciiFacet,
        set_meshName name (set_pos (Z.of_nat (length name)) l)).
Proof.
  intros Hat Hstart Hne Hname Hid Hs.
  destruct name as [|n0 name']; [contradiction|].
  inversion Hid as [|? ? Hn0 Hid']; subst.
  assert (Hpos : pos l = 0) by apply Hat.
  unfold asciiFileHeader, bind.
  rewrite (acceptRun_at spaces [] l [] n0 (name' ++ s :: rest) Hat)
    by (auto using ident_not_space).
  cbn [isNil negb length Z.of_nat]. rewrite set_pos_same by lia.
  rewrite (acceptRun_at ident (n0 :: name') l [] s rest Hat Hid)
    by (auto using space_not_ident).
  rewrite Hpos, Z.add_0_l.
  unfold get. cbn [start pos set_pos]. rewrite Hstart.
  pose proof (standsAt_step l [] (n0 :: name') (s :: rest) Hat) as Hat'.
  rewrite Hpos, Z.add_0_l in Hat'.
  change 0 with (Z.of_nat (length (@nil byte))).
  change (Z.of_nat (length (n0 :: name')))
    with (pos (set_pos (Z.of_nat (length (n0 :: name'))) l)) at 1.
  rewrite (inputSlice_at _ [] (n0 :: name') (s :: rest) Hat').
  now rewrite (bytes_Equal_neq _ _ Hname).
Qed.

(** The facet state up to a first coordinate of the normal that the
    conversion rejects. *)
Lemma asciiFacet_rejects_normal l pre w1 w2 ws tok d rest :
  standsAt l pre
    (w1 ++ bytes "facet" ++ w2 ++ bytes "normal" ++ ws ++ tok ++ d :: rest) ->
  Forall (fun b => member spaces b = true) w1 ->
  Forall (fun b => member spaces b = true) w2 ->
  Forall (fun b => member spaces b = true) ws ->
  member spaces d = true ->
  permissiveNumber tok ->
  strconv.ParseFloat tok = None ->
  exists l', asciiFacet l = Done (None, l') /\
             error l' = Some (unableToParse tok) /\ items l' = items l.
Proof.
  intros Hat Hw1 Hw2 Hws Hd Htok Hbad.
  unfold asciiFacet. unfold bind at 1.
  rewrite (acceptRun_at spaces w1 l pre x66 _ Hat Hw1 eq_refl).
  apply standsAt_step in Hat. unfold bind at 1.
  rewrite (acceptKeyword_hit (bytes "facet") _ _ _ Hat). cbn [negb].
  apply standsAt_step in Hat. unfold bind at 1.
  rewrite (acceptRun_at spaces w2 _ _ x6e _ Hat Hw2 eq_refl).
  apply standsAt_step in Hat. unfold bind at 1.
  rewrite (acceptKeyword_hit (bytes "normal") _ _ _ Hat). cbn [negb].
  apply standsAt_step in Hat.
  destruct (coordinate_at_literal _ _ ws tok d rest Hat Hws Hd Htok Hbad)
    as (_ & _ & Hnormal).
  rewrite (bindFn_returned _ _ _ _ _ Hnormal).
  eexists. split; [reflexivity|]. split; reflexivity.
Qed.

(** A solid with a name, then a facet block whose normal starts with a
    literal of the permissive grammar that is no floating-point literal:
    the parse fails with the error of the conversion, whatever follows and
    whatever the capacity. *)
Lemma parseASCII_rejects_normal name w1 w2 ws tok d rest extra :
  name <> [] -> name <> bytes "facet" ->
  Forall (fun b => member ident b = true) name ->
  w1 <> [] ->
  Forall (fun b => member spaces b = true) w1 ->
  Forall (fun b => member spaces b = true) w2 ->
  Forall (fun b => member spaces b = true) ws ->
  member spaces d = true ->
  permissiveNumber tok ->
  strconv.ParseFloat tok = None ->
  parseASCII
    (mkSlice (name ++ w1 ++ bytes "facet" ++ w2 ++ bytes "normal" ++
              ws ++ tok ++ d :: rest) extra) =
  Done ([], Some (LexerError (unableToParse tok))).
Proof.
  intros Hne Hname Hid Hw1ne Hw1 Hw2 Hws Hd Htok Hbad.
  set (stl := mkSlice _ extra).
  set (l0 := lex "ASCII STL" stl fnAsciiFileHeader).
  destruct w1 as [|s w1']; [contradiction|].
  assert (Hs : member spaces s = true) by now inversion Hw1.
  assert (Hat0 : standsAt l0 [] (name ++ s :: w1' ++ bytes "facet" ++ w2 ++
                                 bytes "normal" ++ ws ++ tok ++ d :: rest))
    by (split; reflexivity).
  pose proof (asciiFileHeader_named l0 name s _ Hat0 eq_refl Hne Hname Hid Hs)
    as Hheader.
  set (l1 := set_state (Some fnAsciiFacet)
               (set_meshName name (set_pos (Z.of_nat (length name)) l0))).
  assert (Hat1 : standsAt l1 ([] ++ name)
                   ((s :: w1') ++ bytes "facet" ++ w2 ++ bytes "normal" ++
                    ws ++ tok ++ d :: rest))
    by exact (standsAt_step l0 [] name _ Hat0).
  destruct (asciiFacet_rejects_normal l1 _ _ w2 ws tok d rest
              Hat1 Hw1 Hw2 Hws Hd Htok Hbad) as (l2 & Hfacet & Herr & Hitems).
  assert (Hpull : pullAll stl = Done ([], set_state None l2)).
  { unfold pullAll. fold l0. unfold bind at 1.
    rewrite (nextFacet_call 3 l0 eq_refl). unfold bind at 1.
    change (callState (state l0) l0) with (asciiFileHeader l0).
    rewrite Hheader. unfold bind at 1, modify at 1. fold l1.
    rewrite (nextFacet_call 2 l1 eq_refl). unfold bind at 1.
    change (callState (state l1) l1) with (asciiFacet l1).
    rewrite Hfacet. reflexivity. }
  unfold parseASCII. rewrite Hpull. cbn [error set_state]. now rewrite Herr.
Qed.

(** The conversion is the gate, away from the end of the input.  Whenever
    the tokenizer has accepted, for a coordinate of a vertex or of the
    normal, and [ParseFloat] rejects the text captured, the coordinate
    makes its state function return nil with the error of the
    conversion recorded.  And the
    tokenizer is permissive: a literal of the permissive grammar that
    stands where a coordinate is read, after any white space and before a
    white-space byte, is accepted whole, so when it is no floating-point
    literal (1.2.3 is one such) the parse ends in the conversion and not
    in the tokenizer.  Last, the whole parse for such a literal at the
    head of the first normal: it fails with the error of the
    conversion. *)
Theorem conversion_is_the_gate :
  (forall l sp l1 l2 text,
      acceptRun spaces l = Done (sp, l1) ->
      acceptNumber l1 = Done (true, l2) ->
      subslice (input l2) (pos l1) (pos l2) = Some text ->
      strconv.ParseFloat text = None ->
      vertexCoordinate l =
        Done (inl None, set_error (Some (unableToParse text)) l2)) /\
  (forall l sp l1 l2 text,
      acceptRun spaces l = Done (sp, l1) ->
      acceptNumber (set_start (pos l1) l1) = Done (true, l2) ->
      subslice (input l2) (start l2) (pos l2) = Some text ->
      strconv.ParseFloat text = None ->
      normalCoordinate l =
        Done (inl None, set_error (Some (unableToParse text)) l2)) /\
  (forall l pre ws tok d rest,
      standsAt l pre (ws ++ tok ++ d :: rest) ->
      Forall (fun b => member spaces b = true) ws ->
      member spaces d = true ->
      permissiveNumber tok ->
      strconv.ParseFloat tok = None ->
      let l1 := set_pos (pos l + Z.of_nat (length ws)) l in
      let l2 := set_pos (pos l + Z.of_nat (length (ws ++ tok))) l in
      acceptNumber l1 = Done (true, l2) /\
      vertexCoordinate l =
        Done (inl None, set_error (Some (unableToParse tok)) l2) /\
      normalCoordinate l =
        Done (inl None,
              set_error (Some (unableToParse tok)) (set_start (pos l1) l2))) /\
  (forall name w1 w2 ws tok d rest extra,
      name <> [] -> name <> bytes "facet" ->
      Forall (fun b => member ident b = true) name ->
      w1 <> [] ->
      Forall (fun b => member spaces b = true) w1 ->
      Forall (fun b => member spaces b = true) w2 ->
      Forall (fun b => member spaces b = true) ws ->
      member spaces d = true ->
      permissiveNumber tok ->
      strconv.ParseFloat tok = None ->
      parseASCII
        (mkSlice (name ++ w1 ++ bytes "facet" ++ w2 ++ bytes "normal" ++
                  ws ++ tok ++ d :: rest) extra) =
      Done ([], Some (LexerError (unableToParse tok)))).
Proof.
  split; [|split; [|split]].
  - intros l sp l1 l2 text Hsp Hnum Htext Hbad.
    unfold vertexCoordinate, bind, get. rewrite Hsp, Hnum. cbn [negb].
    unfold inputSlice. now rewrite Htext, Hbad.
  - intros l sp l1 l2 text Hsp Hnum Htext Hbad.
    unfold normalCoordinate, bind, get, ignore, modify. rewrite Hsp, Hnum.
    cbn [negb]. unfold inputSlice. now rewrite Htext, Hbad.
  - exact coordinate_at_literal.
  - exact parseASCII_rejects_normal.
Qed.

Lemma conversion_is_the_gate_witness :
  let l := set_pos 52 (lex "ASCII STL" (tight twoDots) fnAsciiFileHeader) in
  acceptNumber (set_pos 53 l) = Done (true, set_pos 58 l) /\
  vertexCoordinate l =
    Done (inl None, set_error (Some (unableToParse (bytes "1.2.3"))) (set_pos 58 l)) /\
  parseASCII (tight (bytes "a facet normal 1.2.3 0 0")) =
    Done ([], Some (LexerError (unableToParse (bytes "1.2.3")))) /\
  parseASCII (tight twoDots) =
    Done ([], Some (LexerError (unableToParse (bytes "1.2.3")))).
Proof.
  intros l.
  assert (Htok : permissiveNumber (bytes "1.2.3")).
  { exists [], (bytes "1.2.3"), []. repeat split.
    - now left.
    - discriminate.
    - repeat constructor.
    - now left. }
  destruct (proj1 (proj2 (proj2 conversion_is_the_gate)) l (firstn 52 twoDots)
              [x20] (bytes "1.2.3") x20 (skipn 59 twoDots))
    as (Hnum & Hvertex & _).
  - split; vm_compute; reflexivity.
  - repeat constructor.
  - vm_compute. reflexivity.
  - exact Htok.
  - vm_compute. reflexivity.
  - split; [exact Hnum|]. split; [exact Hvertex|]. split.
    + apply (proj2 (proj2 (proj2 conversion_is_the_gate)) (bytes "a") [x20] [x20]
               [x20] (bytes "1.2.3") x20 (bytes "0 0") []).
      * discriminate.
      * discriminate.
      * repeat constructor.
      * discriminate.
      * repeat constructor.
      * repeat constructor.
      * repeat constructor.
      * vm_compute. reflexivity.
      * exact Htok.
      * vm_compute. reflexivity.
    + vm_compute. reflexivity.
Defined.

(** * The step budgets are never used up *)

Lemma post_ret {A} (a : A) l (Q : A -> lexer -> Prop) : Q a l -> post (ret a) l Q.
Proof. exact (fun H => H). Qed.

Lemma post_bind {A B} (m : M A) (k : A -> M B) l (Q : B -> lexer -> Prop) :
  post m l (fun a l' => post (k a) l' Q) -> post (bind m k) l Q.
Proof. unfold post, bind. now destruct (m l) as [[a l']| |]. Qed.

Lemma post_weaken {A} (m : M A) l (Q Q' : A -> lexer -> Prop) :
  post m l Q -> (forall a l', Q a l' -> Q' a l') -> post m l Q'.
Proof. unfold post. destruct (m l) as [[a l']| |]; auto. Qed.

Lemma moved_refl l : moved 0 l l.
Proof. unfold moved. repeat split; auto; lia. Qed.

Lemma moved_trans d1 d2 l l1 l2 :
  moved d1 l l1 -> moved d2 l1 l2 -> moved (d1 + d2) l l2.
Proof.
  unfold moved, inBounds.
  intros (Hi & Hs & Hq & He & Hb & Hp) (Hi' & Hs' & Hq' & He' & Hb' & Hp').
  rewrite Hi in *. repeat split; try congruence; [auto | lia].
Qed.

Lemma moved_less d d' l l' : moved d l l' -> d' <= d -> moved d' l l'.
Proof. unfold moved. intros (? & ? & ? & ? & ? & ?) ?. repeat split; auto; lia. Qed.

Lemma len_le_cap s : len s <= cap s.
Proof. unfold len, cap. rewrite length_app. lia. Qed.

Lemma post_get {A} (f : lexer -> A) l : post (get f) l (fun a l' => a = f l /\ l' = l).
Proof. now split. Qed.

Lemma post_inputSlice lo hi l : post (inputSlice lo hi) l (fun _ l' => l' = l).
Proof. unfold post, inputSlice. now destruct (subslice _ _ _). Qed.

Lemma post_next l :
  post next l (fun r l' => moved 0 l l').
Proof.
  unfold post, next.
  destruct (Z.leb_spec (len (input l)) (pos l)) as [_|Hlt];
    [apply moved_refl|].
  destruct (index _ _); [|exact I].
  unfold moved, inBounds; cbn. pose proof (len_le_cap (input l)).
  repeat split; auto; lia.
Qed.

Lemma post_backup l : post backup l (fun _ l' => moved (-1) l l').
Proof. unfold post, backup, modify, moved, inBounds; cbn. repeat split; auto; lia. Qed.

Lemma post_ignore l : post ignore l (fun _ l' => moved 0 l l').
Proof. unfold post, ignore, modify, moved, inBounds; cbn. repeat split; auto; lia. Qed.

Lemma next_reads l r l' :
  next l = Done (r, l') ->
  (r = -1 /\ l' = l) \/
  (0 <= r /\ pos l < len (input l) /\ l' = set_pos (pos l + 1) l).
Proof.
  unfold next. destruct (Z.leb_spec (len (input l)) (pos l)) as [?|Hlt].
  - intros [= <- <-]. now left.
  - destruct (index _ _) as [b|]; [|discriminate].
    intros [= <- <-]. right. repeat split; auto.
    unfold byteZ. lia.
Qed.

Lemma post_accept valid l :
  post (accept valid) l (fun b l' => moved (if b then 1 else -1) l l').
Proof.
  unfold accept, post, bind.
  destruct (next l) as [[r l1]| |] eqn:Hnext; [|exact I|].
  - pose proof (post_next l) as Hn. unfold post in Hn. rewrite Hnext in Hn.
    destruct (Z.leb_spec 0 (IndexRune valid r)) as [Hvalid|_].
    + cbn. destruct (next_reads _ _ _ Hnext) as [[-> _] | (_ & Hlt & ->)];
        [vm_compute in Hvalid; contradiction|].
      destruct Hn as (? & ? & ? & ? & ? & _).
      unfold moved. repeat split; auto. cbn. lia.
    + cbn. apply (moved_trans 0 (-1) _ _ _ Hn).
      pose proof (post_backup l1) as Hb. exact Hb.
  - pose proof (post_next l) as Hn. unfold post in Hn. now rewrite Hnext in Hn.
Qed.

(** The loop of [acceptRun] reads on only below [len]. *)
Lemma post_acceptRunLoop valid fuel :
  forall l result,
    (Z.to_nat (len (input l) - pos l) < fuel)%nat ->
    post (acceptRunLoop fuel valid result) l
         (fun b l' => moved 0 l l' /\
                      (b = true -> result = true \/ pos l + 1 <= pos l')).
Proof.
  induction fuel as [|fuel IH]; intros l result Hfuel; [lia|].
  cbn [acceptRunLoop]. unfold post, bind.
  destruct (next l) as [[r l1]| |] eqn:Hnext; [|exact I|].
  - destruct (Z.leb_spec 0 (IndexRune valid r)) as [Hvalid|Hinvalid].
    + destruct (next_reads _ _ _ Hnext) as [[-> _] | (_ & Hlt & ->)];
        [vm_compute in Hvalid; contradiction|].
      assert (Hfuel' : (Z.to_nat (len (input (set_pos (pos l + 1) l))
                                  - pos (set_pos (pos l + 1) l)) < fuel)%nat)
        by (cbn; lia).
      specialize (IH (set_pos (pos l + 1) l) true Hfuel').
      unfold post in IH.
      destruct (acceptRunLoop fuel valid true _) as [[b l2]| |]; auto.
      destruct IH as [Hm Hb]. split.
      * apply (moved_less (0 + 0)); [|lia].
        eapply moved_trans; [|exact Hm].
        pose proof (post_next l) as Hn. unfold post in Hn.
        now rewrite Hnext in Hn.
      * intros _. right. destruct Hm as (_ & _ & _ & _ & _ & Hp).
        cbn in Hp. lia.
    + pose proof (post_next l) as Hn. unfold post in Hn. rewrite Hnext in Hn.
      cbn. split; [exact Hn | auto].
  - pose proof (post_next l) as Hn. unfold post in Hn. now rewrite Hnext in Hn.
Qed.

(** The budget of [acceptRun] is never used up. *)
Lemma acceptRun_budget valid l :
  post (acceptRun valid) l
       (fun b l' => moved (-1) l l' /\ (b = true -> pos l <= pos l')).
Proof.
  unfold acceptRun. apply post_bind.
  eapply post_weaken; [apply post_acceptRunLoop; lia|].
  intros b l1 [Hm Hb]; cbv beta.
  apply post_bind. eapply post_weaken; [apply post_backup|].
  intros u l2 H2; cbv beta. apply post_ret. split.
  - exact (moved_trans _ _ _ _ _ Hm H2).
  - intros Hbt. destruct (Hb Hbt) as [?|Hp]; [discriminate|].
    destruct H2 as (_ & _ & _ & _ & _ & ?). lia.
Qed.

Lemma post_acceptKeyword keyword l :
  post (acceptKeyword keyword) l
       (fun b l' => moved 0 l l' /\
                    (b = true -> pos l + Z.of_nat (length keyword) <= pos l')).
Proof.
  unfold post, acceptKeyword, bind, get, inputSlice, subslice.
  destruct ((0 <=? pos l) && _ && (_ <=? cap (input l))) eqn:Hok; [|exact I].
  destruct (bytes_Equal _ keyword); cbn.
  - apply andb_prop in Hok as [_ Hcap]. apply Z.leb_le in Hcap.
    unfold moved, inBounds; cbn. repeat split; auto; lia.
  - split; [apply moved_refl | discriminate].
Qed.

Lemma post_acceptRun valid l :
  post (acceptRun valid) l (fun b l' => moved (if b then 0 else -1) l l').
Proof.
  eapply post_weaken; [apply acceptRun_budget|].
  intros [|] l' [Hm Hb]; [|exact Hm].
  specialize (Hb eq_refl). unfold moved in *.
  destruct Hm as (? & ? & ? & ? & ? & ?). repeat split; auto; lia.
Qed.

Lemma post_keyword keyword l :
  post (acceptKeyword keyword) l
       (fun b l' => moved (if b then Z.of_nat (length keyword) else 0) l l').
Proof.
  eapply post_weaken; [apply post_acceptKeyword|].
  intros [|] l' [Hm Hb]; [|exact Hm].
  specialize (Hb eq_refl). unfold moved in *.
  destruct Hm as (? & ? & ? & ? & ? & ?). repeat split; auto; lia.
Qed.

(** One step of a method: its specification, then the rest. *)
Tactic Notation "step" uconstr(lem) "as" ident(a) ident(l) ident(H) :=
  apply post_bind; eapply post_weaken; [apply lem | cbv beta; intros a l H].

(** The moves made so far, added up. *)
Ltac chain :=
  repeat match goal with
         | H : _ /\ _ |- _ => destruct H
         | H : ?l' = ?l |- _ => is_var l'; subst l'
         | H1 : moved _ ?l0 ?l1, H2 : moved _ ?l1 ?l2 |- _ =>
             pose proof (moved_trans _ _ _ _ _ H1 H2); clear H1 H2
         end.

Ltac moved_enough :=
  cbv beta; chain;
  repeat match goal with b : bool |- _ => destruct b end;
  match goal with
  | H : moved _ ?l ?l' |- moved _ ?l ?l' =>
      apply (moved_less _ _ _ _ H); vm_compute; discriminate
  | |- moved _ ?l ?l => apply (moved_less 0); [apply moved_refl | vm_compute; discriminate]
  end.

Lemma post_acceptNumber l : post acceptNumber l (fun _ l' => moved (-2) l l').
Proof.
  unfold acceptNumber.
  step post_accept as sign l1 H1. step post_acceptRun as digits l2 H2.
  destruct digits; cbn [negb].
  - step post_accept as e l3 H3. destruct e.
    + step post_accept as sign' l4 H4. step post_acceptRun as digits' l5 H5.
      destruct digits'; cbn [negb]; apply post_ret; moved_enough.
    + apply post_ret. moved_enough.
  - apply post_ret. moved_enough.
Qed.

Lemma post_errorf fmt args l : post (errorf fmt args) l (fun st _ => st = None).
Proof. reflexivity. Qed.

Lemma post_expectedKeyword fmt n l :
  post (expectedKeyword fmt n) l (fun st _ => st = None).
Proof.
  unfold expectedKeyword.
  step post_get as p l1 H1. step post_inputSlice as saw l2 H2. apply post_errorf.
Qed.

Lemma post_Return {A} (m : M (option stateFn)) l (Q : A -> lexer -> Prop) :
  post m l (fun st _ => st = None) ->
  post (Return m) l
       (fun r l' => match r with inl st => st = None | inr a => Q a l' end).
Proof.
  intros H. unfold Return. apply post_bind.
  eapply post_weaken; [exact H|]. intros st l' ->. now apply post_ret.
Qed.

(** A coordinate either ends the state function with nil or moves on. *)
Lemma post_vertexCoordinate l :
  post vertexCoordinate l
       (fun r l' => match r with inl st => st = None | inr _ => moved (-3) l l' end).
Proof.
  unfold vertexCoordinate.
  step post_acceptRun as sp l1 H1. step post_get as c l2 H2.
  step post_acceptNumber as ok l3 H3.
  destruct ok; cbn [negb].
  - step post_get as p l4 H4. step post_inputSlice as text l5 H5.
    destruct (strconv.ParseFloat _).
    + apply post_ret. destruct sp; moved_enough.
    + apply post_Return, post_errorf.
  - apply post_Return, post_expectedKeyword.
Qed.

Lemma post_normalCoordinate l :
  post normalCoordinate l
       (fun r l' => match r with inl st => st = None | inr _ => moved (-3) l l' end).
Proof.
  unfold normalCoordinate.
  step post_acceptRun as sp l1 H1. step post_ignore as u l2 H2.
  step post_acceptNumber as ok l3 H3.
  destruct ok; cbn [negb].
  - step post_get as s l4 H4. step post_get as p l5 H5.
    step post_inputSlice as text l6 H6.
    destruct (strconv.ParseFloat _).
    + apply post_ret. destruct sp; moved_enough.
    + apply post_Return, post_errorf.
  - apply post_Return, post_expectedKeyword.
Qed.

Lemma post_bindBody {A B} (m : M (orReturn A)) (k : A -> M (orReturn B)) l
      (Q : A -> lexer -> Prop) (Q' : B -> lexer -> Prop) :
  post m l (fun r l' => match r with inl st => st = None | inr a => Q a l' end) ->
  (forall a l', Q a l' ->
     post (k a) l'
          (fun r l'' => match r with inl st => st = None | inr b => Q' b l'' end)) ->
  post (bindBody m k) l
       (fun r l' => match r with inl st => st = None | inr b => Q' b l' end).
Proof.
  intros Hm Hk. unfold bindBody. apply post_bind.
  eapply post_weaken; [exact Hm|]. intros [st|a] l' H; cbv beta.
  - now apply post_ret.
  - now apply Hk.
Qed.

Lemma post_bindFn {A} (m : M (orReturn A)) (k : A -> M (option stateFn)) l
      (Q : A -> lexer -> Prop) (Q' : option stateFn -> lexer -> Prop) :
  post m l (fun r l' => match r with inl st => st = None | inr a => Q a l' end) ->
  (forall a l', Q a l' ->
     post (k a) l' (fun st l'' => st = None \/ Q' st l'')) ->
  post (bindFn m k) l (fun st l' => st = None \/ Q' st l').
Proof.
  intros Hm Hk. unfold bindFn. apply post_bind.
  eapply post_weaken; [exact Hm|]. intros [st|a] l' H; cbv beta.
  - apply post_ret. now left.
  - now apply Hk.
Qed.

Lemma post_vertexLine l :
  post vertexLine l
       (fun r l' => match r with inl st => st = None | inr _ => moved (-4) l l' end).
Proof.
  unfold vertexLine.
  step post_acceptRun as sp l0 H0. step post_keyword as ok l0' H0'.
  destruct ok; cbn [negb].
  - eapply post_bindBody; [apply post_vertexCoordinate | cbv beta; intros x l1 Hx].
    eapply post_bindBody; [apply post_vertexCoordinate | cbv beta; intros y l2 Hy].
    eapply post_bindBody; [apply post_vertexCoordinate | cbv beta; intros z l3 Hz].
    apply post_ret. destruct sp; moved_enough.
  - apply post_Return, post_expectedKeyword.
Qed.

Lemma post_set_meshName c l :
  post (modify (set_meshName c)) l (fun _ l' => moved 0 l l').
Proof. unfold post, modify, moved, inBounds; cbn. repeat split; auto; lia. Qed.

Lemma post_set_pendingFacet f l :
  post (modify (set_pendingFacet f)) l (fun _ l' => moved 0 l l').
Proof. unfold post, modify, moved, inBounds; cbn. repeat split; auto; lia. Qed.

Lemma post_asciiFileHeader l :
  post asciiFileHeader l
       (fun st l' => st = Some fnAsciiFacet /\ moved (-2) l l').
Proof.
  unfold asciiFileHeader.
  step post_acceptRun as sp l1 H1. step post_acceptRun as id l2 H2.
  step post_get as s l3 H3. step post_get as p l4 H4.
  step post_inputSlice as c l5 H5.
  destruct (bytes_Equal c _).
  - step post_ignore as u l6 H6. apply post_ret. split; [reflexivity|].
    moved_enough.
  - step post_set_meshName as u l6 H6. apply post_ret. split; [reflexivity|].
    moved_enough.
Qed.

Lemma post_asciiFacet l :
  post asciiFacet l
       (fun st l' => st = None \/ (st = Some fnAsciiVertex /\ moved 7 l l')).
Proof.
  unfold asciiFacet.
  step post_acceptRun as sp1 l1 H1. step post_keyword as facet l2 H2.
  destruct facet; cbn [negb].
  2:{ step post_keyword as done l3 H3. destruct done.
      - apply post_ret. now left.
      - eapply post_weaken; [apply post_expectedKeyword|]. now left. }
  step post_acceptRun as sp2 l3 H3. step post_keyword as normal l4 H4.
  destruct normal; cbn [negb].
  2:{ eapply post_weaken; [apply post_expectedKeyword|]. now left. }
  eapply post_bindFn; [apply post_normalCoordinate | cbv beta; intros ni l5 H5].
  eapply post_bindFn; [apply post_normalCoordinate | cbv beta; intros nj l6 H6].
  eapply post_bindFn; [apply post_normalCoordinate | cbv beta; intros nk l7 H7].
  step post_acceptRun as sp3 l8 H8. step post_keyword as outer l9 H9.
  destruct outer; cbn [negb].
  2:{ eapply post_weaken; [apply post_expectedKeyword|]. now left. }
  step post_acceptRun as sp4 l10 H10. step post_keyword as loop l11 H11.
  destruct loop; cbn [negb].
  2:{ eapply post_weaken; [apply post_expectedKeyword|]. now left. }
  step post_set_pendingFacet as u l12 H12. apply post_ret.
  right. split; [reflexivity|]. moved_enough.
Qed.

Lemma post_asciiVertex l :
  post asciiVertex l
       (fun st l' => st = None \/ (st = Some fnAsciiFacet /\ emitted l l')).
Proof.
  unfold asciiVertex.
  eapply post_bindFn; [apply post_vertexLine | cbv beta; intros v0 l1 H1].
  eapply post_bindFn; [apply post_vertexLine | cbv beta; intros v1 l2 H2].
  eapply post_bindFn; [apply post_vertexLine | cbv beta; intros v2 l3 H3].
  step post_acceptRun as sp1 l4 H4. step post_keyword as endloop l5 H5.
  destruct endloop; cbn [negb].
  2:{ eapply post_weaken; [apply post_expectedKeyword|]. now left. }
  step post_acceptRun as sp2 l6 H6. step post_keyword as endfacet l7 H7.
  destruct endfacet; cbn [negb].
  2:{ eapply post_weaken; [apply post_expectedKeyword|]. now left. }
  step post_acceptRun as sp3 l8 H8. step post_get as pending l9 H9.
  destruct H9 as [-> ->].
  assert (Hm : moved 0 l l8) by moved_enough.
  destruct (pendingFacet l8) as [f|]; [|exact I].
  unfold post, bind, emit, modify, ret.
  destruct (2 <=? length (items l8))%nat; [exact I|].
  right. split; [reflexivity|].
  destruct Hm as (Hi & Hs & Hq & He & Hb & Hp).
  unfold emitted, inBounds in *; cbn.
  refine (conj Hi (conj Hs (conj He (conj _ (conj _ _))))).
  - rewrite Hq. eexists. split; reflexivity.
  - intros H. pose proof (Hb H) as Hb'. rewrite ?Hi in *. exact Hb'.
  - lia.
Qed.

(** From the facet state [nextFacet] needs three passes: the facet state,
    the vertex state, and the receive. *)
Lemma post_nextFacet_facet fuel l :
  atRest fnAsciiFacet l ->
  post (nextFacet (3 + fuel)) l
       (fun r l' => match r with
                    | None => True
                    | Some f => atRest fnAsciiFacet l' /\ input l' = input l /\
                                pos l + 7 <= pos l'
                    end).
Proof.
  intros (Hq & Hb & Hs). unfold post. cbn [nextFacet Nat.add]. rewrite Hq, Hs.
  unfold bind at 1. cbn [callState].
  pose proof (post_asciiFacet l) as H1. unfold post in H1.
  destruct (asciiFacet l) as [[st l1]| |]; [|exact I|exact H1].
  destruct H1 as [-> | [-> H1]]; [exact I|].
  unfold bind, modify, ret. cbn [items set_state state callState].
  destruct H1 as (Hi1 & Hs1 & Hq1 & He1 & Hb1 & Hp1).
  rewrite Hq1, Hq.
  pose proof (post_asciiVertex (set_state (Some fnAsciiVertex) l1)) as H2.
  unfold post in H2.
  destruct (asciiVertex _) as [[st l2]| |]; [|exact I|exact H2].
  destruct H2 as [-> | [-> H2]]; [exact I|].
  destruct H2 as (Hi2 & Hs2 & He2 & (f & Hq2 & Hf) & Hb2 & Hp2).
  cbn [items set_state state input pos error] in *.
  rewrite Hq2, Hq1, Hq. cbn [app].
  unfold atRest, inBounds in *. cbn [items set_items set_state state input pos].
  rewrite Hi2, Hi1 in *.
  refine (conj (conj eq_refl (conj _ eq_refl)) (conj eq_refl _)); [|lia].
  apply Hb2. cbn [pos input set_state]. rewrite Hi1. auto.
Qed.

(** From the header state it needs one pass more. *)
Lemma post_nextFacet_header l :
  atRest fnAsciiFileHeader l ->
  post (nextFacet 4) l
       (fun r l' => match r with
                    | None => True
                    | Some f => atRest fnAsciiFacet l' /\ input l' = input l /\
                                pos l + 5 <= pos l'
                    end).
Proof.
  intros (Hq & Hb & Hs). unfold post.
  rewrite (nextFacet_call 3 l Hq), Hs.
  unfold bind at 1. cbn [callState].
  pose proof (post_asciiFileHeader l) as H1. unfold post in H1.
  destruct (asciiFileHeader l) as [[st l1]| |]; [|exact I|exact H1].
  destruct H1 as [-> (Hi1 & Hs1 & Hq1 & He1 & Hb1 & Hp1)].
  unfold bind at 1, modify, ret.
  assert (Hrest : atRest fnAsciiFacet (set_state (Some fnAsciiFacet) l1)).
  { unfold atRest, inBounds in *. cbn [items pos input state set_state].
    rewrite Hq1. repeat split; auto. }
  pose proof (post_nextFacet_facet 0 _ Hrest) as H2.
  unfold post in H2. cbn [Nat.add] in H2.
  destruct (nextFacet 3 _) as [[[f|] l2]| |]; auto.
  destruct H2 as (Hrest2 & Hi2 & Hp2). cbn [input pos set_state] in *.
  refine (conj Hrest2 (conj _ _)); [congruence | lia].
Qed.

(** Every pass of the loop of [parseASCII] finds the position further on,
    and the position stays below the capacity. *)
Lemma post_pullFacets fuel :
  forall facets f l,
    (f = None \/
     (atRest fnAsciiFacet l /\ (Z.to_nat (cap (input l) - pos l) < fuel)%nat)) ->
    post (pullFacets fuel facets f) l (fun _ _ => True).
Proof.
  induction fuel as [|fuel IH]; intros facets f l H;
    destruct f as [f|]; cbn [pullFacets];
    try exact I; destruct (Valid f); try exact I;
    destruct H as [H | [Hrest Hfuel]]; try discriminate; try lia.
  apply post_bind.
  eapply post_weaken; [apply (post_nextFacet_facet 1 l Hrest)|].
  intros [f'|] l' HQ; cbv beta; apply IH; [right | now left].
  destruct HQ as (Hrest' & Hi & Hp). split; [exact Hrest'|].
  destruct Hrest' as (_ & Hb & _). unfold inBounds in Hb.
  rewrite Hi in *. lia.
Qed.

(** The step budgets of the model are never used up: the ASCII parse
    returns or panics. *)
Lemma parseASCII_budget stl : parseASCII stl <> Exhausted.
Proof.
  assert (H : post (bind (nextFacet 4)
                         (fun f => pullFacets (S (Z.to_nat (cap stl))) [] f))
                   (lex "ASCII STL" stl fnAsciiFileHeader) (fun _ _ => True)).
  { apply post_bind. eapply post_weaken.
    - apply post_nextFacet_header. unfold atRest, inBounds; cbn.
      repeat split. unfold cap. lia.
    - intros [f|] l' HQ; cbv beta; apply post_pullFacets; [right | now left].
      destruct HQ as (Hrest & Hi & Hp). split; [exact Hrest|].
      destruct Hrest as (_ & Hb & _). unfold inBounds in Hb.
      rewrite Hi in *. cbn [input pos lex] in *. lia. }
  unfold parseASCII, pullAll. unfold post in H.
  destruct (bind _ _ _) as [[facets l]| |]; [|discriminate|contradiction].
  destruct (error l); discriminate.
Qed.

Lemma ParseSTLBytes_budget stl : ParseSTLBytes stl <> Exhausted.
Proof.
  unfold ParseSTLBytes. pose proof (parseASCII_budget (slice_from 5 stl)) as H.
  destruct (len stl <? 5); [discriminate|].
  destruct (bytes_Equal _ _); [|discriminate].
  destruct (parseASCII _) as [[facets [err|]]| |]; try discriminate;
    [|contradiction].
  destruct (parseBinary stl) as [bf [e|]]; discriminate.
Qed.

(** A state function that records an error returns nil: while the state
    functions return a next state, the error stays as it was. *)
Lemma error_ends_state fn l st l' :
  callState (Some fn) l = Done (Some st, l') -> error l' = error l.
Proof.
  intros H. destruct fn; cbn [callState] in H.
  - pose proof (post_asciiFileHeader l) as P. unfold post in P. rewrite H in P.
    apply P.
  - pose proof (post_asciiFacet l) as P. unfold post in P. rewrite H in P.
    destruct P as [? | [_ P]]; [discriminate | apply P].
  - pose proof (post_asciiVertex l) as P. unfold post in P. rewrite H in P.
    destruct P as [? | [_ P]]; [discriminate | apply P].
Qed.

(** * The ASCII parse and the dispatcher *)

Lemma pullFacets_valid fuel :
  forall facets f l out l',
    Forall (fun f => Valid f = true) facets ->
    pullFacets fuel facets f l = Done (out, l') ->
    Forall (fun f => Valid f = true) out.
Proof.
  induction fuel as [|fuel IH]; intros facets f l out l' Hall H;
    destruct f as [f|]; cbn [pullFacets] in H;
    try (injection H as <- <-; exact Hall);
    destruct (Valid f) eqn:Hf;
    try (injection H as <- <-; exact Hall);
    try discriminate.
  unfold bind in H.
  destruct (nextFacet 4 l) as [[f' l1]| |]; try discriminate.
  apply (IH _ _ _ _ _ (proj2 (Forall_app _ _ _)
                         (conj Hall (Forall_cons _ Hf (Forall_nil _)))) H).
Qed.

Lemma parseASCII_valid stl facets err :
  parseASCII stl = Done (facets, err) ->
  Forall (fun f => Valid f = true) facets.
Proof.
  unfold parseASCII, pullAll, bind. intros H.
  destruct (nextFacet 4 _) as [[f l]| |]; try discriminate.
  destruct (pullFacets _ _ _ _) as [[out l']| |] eqn:Hpull; try discriminate.
  destruct (error l'); injection H as <- <-.
  - constructor.
  - apply (pullFacets_valid _ _ _ _ _ _ (Forall_nil _) Hpull).
Qed.

(** The three parses of the tests. *)
Example parse_simpleASCII :
  ParseSTLBytes (tight simpleASCII) = Done ([asciiFacet0; asciiFacet1], None).
Proof. vm_compute. reflexivity. Qed.

Example parse_simpleBinary :
  ParseSTLBytes (tight simpleBinary) = Done ([simpleFacet0; simpleFacet1], None).
Proof. vm_compute. reflexivity. Qed.

Example parse_nonStandardBinary :
  ParseSTLBytes (tight nonStandardBinary) =
  Done ([simpleFacet0; simpleFacet1], None).
Proof. vm_compute. reflexivity. Qed.

(** C1: on a buffer that starts with "solid" and whose ASCII parse fails,
    the binary reader is run on the whole buffer; its facets are the
    result when it succeeds, and the error of the ASCII parse is the
    result when it fails too. *)
Theorem ParseSTLBytes_fallback stl facets err :
  5 <= len stl ->
  firstn 5 (data stl) = bytes "solid" ->
  parseASCII (slice_from 5 stl) = Done (facets, Some err) ->
  ParseSTLBytes stl =
  Done (match parseBinary stl with
        | (binaryFacets, None) => (binaryFacets, None)
        | (_, Some _) => ([], Some err)
        end).
Proof.
  intros Hlen Hsolid Hascii. unfold ParseSTLBytes.
  destruct (Z.ltb_spec (len stl) 5) as [?|_]; [lia|].
  rewrite Hsolid, bytes_Equal_refl, Hascii.
  now destruct (parseBinary stl) as [binaryFacets [err2|]].
Qed.

Lemma ParseSTLBytes_fallback_witness :
  ParseSTLBytes (tight nonStandardBinary) =
    Done ([simpleFacet0; simpleFacet1], None) /\
  ParseSTLBytes (mkSlice (bytes "solid foo") (repeat x00 23)) =
    Done ([], Some (LexerError
                      (Sprintf "Expected keyword 'facet' at %v. Saw %q instead"
                               [argInt 3; argBytes [x6f; x00; x00; x00; x00]]))).
Proof.
  split.
  - rewrite (ParseSTLBytes_fallback (tight nonStandardBinary) []
               (LexerError
                  (Sprintf "Expected keyword 'facet' at %v. Saw %q instead"
                           [argInt 0; argBytes [x00; x00; x00; x00; x00]]))).
    + vm_compute. reflexivity.
    + vm_compute. discriminate.
    + vm_compute. reflexivity.
    + vm_compute. reflexivity.
  - rewrite (ParseSTLBytes_fallback (mkSlice (bytes "solid foo") (repeat x00 23)) []
               (LexerError
                  (Sprintf "Expected keyword 'facet' at %v. Saw %q instead"
                           [argInt 3; argBytes [x6f; x00; x00; x00; x00]]))).
    + vm_compute. reflexivity.
    + vm_compute. discriminate.
    + vm_compute. reflexivity.
    + vm_compute. reflexivity.
Defined.

(** C4, at a nameless solid.  With the facet keyword right after the
    sentinel the header state leaves the mesh name unset and enters the
    facet state, but with the cursor past the keyword; the facet state
    asks for the keyword again and the parse fails.  With white space
    between sentinel and keyword the text compared with "facet" starts
    with that white space, the keyword becomes the mesh name, and the
    parse fails the same way. *)
Theorem nameless_solid_is_rejected :
  (exists l,
     asciiFileHeader (lex "ASCII STL" (tight namelessBody) fnAsciiFileHeader)
       = Done (Some fnAsciiFacet, l) /\
     pos l = 5 /\ start l = 5 /\ meshName l = []) /\
  parseASCII (tight namelessBody) =
    Done ([], Some (LexerError
                      (Sprintf "Expected keyword 'facet' at %v. Saw %q instead"
                               [argInt 6; argBytes (bytes "norma")]))) /\
  ParseSTLBytes (tight (bytes "solid" ++ namelessBody)) =
    Done ([], Some (LexerError
                      (Sprintf "Expected keyword 'facet' at %v. Saw %q instead"
                               [argInt 6; argBytes (bytes "norma")]))) /\
  (exists l,
     asciiFileHeader (lex "ASCII STL" (tight (x20 :: namelessBody)) fnAsciiFileHeader)
       = Done (Some fnAsciiFacet, l) /\
     pos l = 6 /\ meshName l = bytes " facet") /\
  ParseSTLBytes (tight (bytes "solid " ++ namelessBody)) =
    Done ([], Some (LexerError
                      (Sprintf "Expected keyword 'facet' at %v. Saw %q instead"
                               [argInt 7; argBytes (bytes "norma")]))) /\
  ParseSTLBytes (tight (bytes "solid a " ++ namelessBody)) =
    Done ([oneFacet], None).
Proof.
  split; [|split; [|split; [|split; [|split]]]].
  - eexists. split; [vm_compute; reflexivity|]. repeat split.
  - vm_compute. reflexivity.
  - lazy. reflexivity.
  - eexists. split; [vm_compute; reflexivity|]. repeat split.
  - lazy. reflexivity.
  - vm_compute. reflexivity.
Qed.

(** C5, at the end of the input.  On the five bytes "solid", whatever the
    capacity, the lexer steps its position back to -1 at the end of the
    input and then indexes the input there.  On "solid foo" in a buffer of
    that capacity, and on a solid cut off after a facet block in a buffer
    with one spare byte, the keyword comparison slices past the capacity.
    All three are run-time panics, not lexer errors.  With room behind the
    input the same text yields the lexer error, with offset and bytes
    seen. *)
Theorem lexer_panics_at_end_of_input :
  (forall extra,
     ParseSTLBytes (mkSlice (bytes "solid") extra) = Panics (IndexOutOfRange (-1))) /\
  ParseSTLBytes (tight (bytes "solid foo")) = Panics (SliceBoundsOutOfRange 3 8) /\
  ParseSTLBytes (mkSlice (bytes "solid a " ++ facetBlock ++ [x0a]) [x00]) =
    Panics (SliceBoundsOutOfRange 88 93) /\
  ParseSTLBytes (mkSlice (bytes "solid foo") (repeat x00 23)) =
    Done ([], Some (LexerError
                      (Sprintf "Expected keyword 'facet' at %v. Saw %q instead"
                               [argInt 3; argBytes [x6f; x00; x00; x00; x00]]))).
Proof.
  split; [|split; [|split]].
  - intros extra. vm_compute. reflexivity.
  - vm_compute. reflexivity.
  - vm_compute. reflexivity.
  - vm_compute. reflexivity.
Qed.


(** When the state function called returns nil, [nextFacet] returns nil
    and the loop of [parseASCII] ends. *)
Lemma nextFacet_ends fuel l l' :
  items l = [] ->
  callState (state l) l = Done (None, l') ->
  nextFacet (S fuel) l = Done (None, set_state None l').
Proof.
  intros Hq Hcall. cbn [nextFacet]. rewrite Hq. unfold bind. now rewrite Hcall.
Qed.

Lemma pullFacets_ends fuel facets l :
  pullFacets fuel facets None l = Done (facets, l).
Proof. now destruct fuel. Qed.

(** * Further properties of the binary reader *)

Section BinaryMore.
Import Binary.

Lemma facetsOf_nth recs :
  forall ps i r f,
    nth_error recs i = Some r ->
    nth_error (facetsOf ps recs) i = Some f ->
    Vertices f = recordVertices r /\ Valid f = true.
Proof.
  induction recs as [|r0 recs IH]; intros ps [|i] r f Hr Hf;
    cbn [nth_error facetsOf] in *; try discriminate.
  - injection Hr as <-. injection Hf as <-. now split.
  - exact (IH _ i r f Hr Hf).
Qed.

(** X1: a binary buffer made of an 80-byte header that does not start
    with "solid", a count, as many 50-byte records and anything after
    them is decoded by [ParseSTLBytes] to one facet per record, in record
    order, each with the three vertices of its record's bytes 12-47 and
    with [Valid] set. *)
Theorem ParseSTLBytes_binary_wellformed header count recs trailing extra :
  length header = 80%nat ->
  firstn 5 header <> bytes "solid" ->
  length count = 4%nat ->
  Uint32 count = Z.of_nat (length recs) ->
  Forall (fun r => length r = 50%nat) recs ->
  exists facets,
    ParseSTLBytes (mkSlice (header ++ count ++ concat recs ++ trailing) extra)
      = Done (facets, None) /\
    length facets = length recs /\
    forall i r f,
      nth_error recs i = Some r -> nth_error facets i = Some f ->
      Vertices f = recordVertices r /\ Valid f = true.
Proof.
  intros Hh Hsolid Hc Hn Hrecs. exists (facetsOf (0, 0, 0) recs).
  split; [|split].
  - unfold ParseSTLBytes.
    destruct (Z.ltb_spec (len (mkSlice (header ++ count ++ concat recs ++ trailing)
                                       extra)) 5) as [Hlt|_].
    + unfold len in Hlt. cbn [data] in Hlt. rewrite length_app in Hlt. lia.
    + cbn [data]. rewrite firstn_app, Hh. cbn [Nat.sub firstn].
      rewrite app_nil_r, bytes_Equal_neq by assumption.
      now rewrite parseBinary_wellformed.
  - apply length_facetsOf.
  - intros i r f. apply facetsOf_nth.
Qed.

Lemma ParseSTLBytes_binary_wellformed_witness :
  exists facets,
    ParseSTLBytes (mkSlice (repeat x00 80 ++ [x02; x00; x00; x00] ++
                            concat [cubeRecord0; cubeRecord1] ++ []) [])
      = Done (facets, None) /\
    length facets = 2%nat /\
    forall i r f,
      nth_error [cubeRecord0; cubeRecord1] i = Some r ->
      nth_error facets i = Some f ->
      Vertices f = recordVertices r /\ Valid f = true.
Proof.
  apply (ParseSTLBytes_binary_wellformed (repeat x00 80) [x02; x00; x00; x00]
           [cubeRecord0; cubeRecord1] [] []).
  - reflexivity.
  - discriminate.
  - reflexivity.
  - reflexivity.
  - repeat constructor.
Defined.

Lemma recordVertices_vertexBytes r r' :
  length r = 50%nat -> length r' = 50%nat ->
  vertexBytes r = vertexBytes r' ->
  recordVertices r = recordVertices r'.
Proof.
  intros H H' Hv.
  do 50 (destruct r as [|? r]; [discriminate H|]).
  do 50 (destruct r' as [|? r']; [discriminate H'|]).
  unfold vertexBytes in Hv. cbn [firstn skipn] in Hv.
  injection Hv as -> -> -> -> -> -> -> -> -> -> -> -> -> -> -> -> -> ->
                  -> -> -> -> -> -> -> -> -> -> -> -> -> -> -> -> -> ->.
  reflexivity.
Qed.

Lemma facetsOf_vertexBytes recs recs' :
  Forall2 (fun r r' => length r = 50%nat /\ length r' = 50%nat /\
                       vertexBytes r = vertexBytes r') recs recs' ->
  forall ps, facetsOf ps recs = facetsOf ps recs'.
Proof.
  induction 1 as [|r r' recs recs' (Hr & Hr' & Hv) _ IH]; intros ps;
    [reflexivity|].
  cbn [facetsOf]. unfold facetOf.
  pose proof (recordVertices_vertexBytes r r' Hr Hr' Hv) as Heq.
  rewrite Heq.
  assert (H36 : vertexAt r 36 = vertexAt r' 36).
  { unfold recordVertices in Heq. congruence. }
  now rewrite H36, IH.
Qed.

(** X2: what the binary reader returns depends on the count and on the
    bytes 12-47 of each record only: the 80 bytes of the header, the
    normal at bytes 0-11 of a record, its attribute bytes 48-49 and
    whatever follows the last record make no difference. *)
Theorem parseBinary_reads_vertex_bytes_only
        header header' count count' recs recs' trailing trailing' extra extra' :
  length header = 80%nat -> length header' = 80%nat ->
  length count = 4%nat -> length count' = 4%nat ->
  Uint32 count = Z.of_nat (length recs) ->
  Uint32 count' = Z.of_nat (length recs') ->
  Forall2 (fun r r' => length r = 50%nat /\ length r' = 50%nat /\
                       vertexBytes r = vertexBytes r') recs recs' ->
  parseBinary (mkSlice (header ++ count ++ concat recs ++ trailing) extra) =
  parseBinary (mkSlice (header' ++ count' ++ concat recs' ++ trailing') extra').
Proof.
  intros Hh Hh' Hc Hc' Hn Hn' Hrecs.
  rewrite !parseBinary_wellformed; try assumption.
  - f_equal. now apply facetsOf_vertexBytes.
  - clear -Hrecs. induction Hrecs as [|? ? ? ? (_ & ? & _)]; now constructor.
  - clear -Hrecs. induction Hrecs as [|? ? ? ? (? & _)]; now constructor.
Qed.

Lemma parseBinary_reads_vertex_bytes_only_witness :
  parseBinary (mkSlice (repeat x00 80 ++ [x01; x00; x00; x00] ++
                        concat [cubeRecord0] ++ []) []) =
  parseBinary (mkSlice (repeat xff 80 ++ [x01; x00; x00; x00] ++
                        concat [repeat x07 12 ++ vertexBytes cubeRecord0 ++ [xff; xff]]
                        ++ bytes "tail") [x00]).
Proof.
  apply parseBinary_reads_vertex_bytes_only.
  - reflexivity.
  - reflexivity.
  - reflexivity.
  - reflexivity.
  - reflexivity.
  - reflexivity.
  - repeat constructor.
Defined.

(** X3: the binary reader succeeds exactly on the buffers that hold the
    header, the count and all the records counted, and then it returns as
    many facets as the count says. *)
Theorem parseBinary_succeeds_iff stl :
  ((exists facets, parseBinary stl = (facets, None)) <->
   84 <= len stl /\ 84 + 50 * Z.of_nat (declaredCount stl) <= len stl) /\
  (forall facets, parseBinary stl = (facets, None) ->
                  length facets = declaredCount stl).
Proof.
  split; [split|].
  - intros (facets & H). destruct (parseBinary_success _ _ H) as [Hlen ->].
    split; [assumption|].
    destruct (parseBinary_spec stl Hlen) as [Hbad _].
    destruct (Nat.lt_ge_cases (length (recordBytes stl)) (50 * declaredCount stl))
      as [Hshort | Hfull].
    + destruct (Hbad Hshort) as (e & He & _). rewrite He in H. discriminate.
    + unfold recordBytes, len in *. rewrite length_skipn in Hfull. lia.
  - intros [Hlen Hfull]. eexists.
    apply (proj2 (parseBinary_spec stl Hlen)).
    unfold recordBytes, len in *. rewrite length_skipn. lia.
  - intros facets H. destruct (parseBinary_success _ _ H) as [_ ->].
    apply length_decodeFacets.
Qed.

Lemma parseBinary_succeeds_iff_witness :
  (exists facets, parseBinary (tight simpleBinary) = (facets, None)) /\
  length [simpleFacet0; simpleFacet1] = declaredCount (tight simpleBinary).
Proof.
  destruct (parseBinary_succeeds_iff (tight simpleBinary)) as [Hiff Hlen].
  split.
  - apply (proj2 Hiff). vm_compute. split; discriminate.
  - apply Hlen. reflexivity.
Defined.

Lemma failsWith_ret {A} (a : A) E : failsWith 0 (ret a) E.
Proof. intros buf H. lia. Qed.

Lemma failsWith_ReadFull n : failsWith n (ReadFull n) shortRead.
Proof.
  intros buf H. unfold ReadFull. destruct buf as [|b buf]; [reflexivity|].
  apply Nat.ltb_lt in H. now rewrite H.
Qed.

Lemma failsWith_bind {A B} k1 k2 (m : reader A) (f : A -> reader B) v1 E1 E2 :
  reads k1 m v1 -> failsWith k1 m E1 ->
  (forall a, failsWith k2 (f a) E2) ->
  failsWith (k1 + k2) (bind m f)
            (fun n => if (n <? k1)%nat then E1 n else E2 (n - k1)%nat).
Proof.
  intros Hm Hfail Hf buf H. unfold bind.
  destruct (Nat.ltb_spec (length buf) k1) as [Hlt | Hge].
  - now rewrite (Hfail buf Hlt).
  - rewrite (proj2 (Hm buf) Hge).
    rewrite Hf by (rewrite length_skipn; lia).
    now rewrite length_skipn.
Qed.

Lemma failsWith_ext {A} k k' (m : reader A) E E' :
  failsWith k m E -> k = k' ->
  (forall n, (n < k)%nat -> E n = E' n) ->
  failsWith k' m E'.
Proof. intros Hm <- HE buf H. rewrite (Hm buf H). f_equal. now apply HE. Qed.

Tactic Notation "small_cases" ident(n) integer(k) :=
  do k (destruct n as [|n]; [reflexivity|]); exfalso; lia.

Lemma failsWith_Read32 : failsWith 4 Read32 shortRead.
Proof.
  eapply failsWith_ext.
  - refine (failsWith_bind _ _ _ _ _ _ _ _ _ _);
      [exact (reads_ReadFull 4 ltac:(lia)) | apply failsWith_ReadFull
       | intros a; exact (failsWith_ret _ shortRead)].
  - reflexivity.
  - intros n H. small_cases n 4.
Qed.

Lemma failsWith_Read16 : failsWith 2 Read16 shortRead.
Proof.
  eapply failsWith_ext.
  - refine (failsWith_bind _ _ _ _ _ _ _ _ _ _);
      [exact (reads_ReadFull 2 ltac:(lia)) | apply failsWith_ReadFull
       | intros a; exact (failsWith_ret _ shortRead)].
  - reflexivity.
  - intros n H. small_cases n 2.
Qed.

Ltac fails_word :=
  refine (failsWith_bind _ _ _ _ _ _ _ _ _ _);
  [apply reads_Read32 | apply failsWith_Read32 | intros ?; cbv beta zeta].

Lemma failsWith_readNormal ps :
  failsWith 12 (readNormal ps) (fun n => shortRead (n mod 4)).
Proof.
  eapply failsWith_ext.
  - unfold readNormal. do 3 fails_word. exact (failsWith_ret _ shortRead).
  - reflexivity.
  - intros n H. small_cases n 12.
Qed.

Lemma failsWith_readVertex ps :
  failsWith 12 (readVertex ps) (fun n => shortRead (n mod 4)).
Proof.
  eapply failsWith_ext.
  - unfold readVertex. do 3 fails_word. exact (failsWith_ret _ shortRead).
  - reflexivity.
  - intros n H. small_cases n 12.
Qed.

Lemma truncationError_next n : truncationError (50 + n) = truncationError n.
Proof.
  unfold truncationError. f_equal. f_equal.
  rewrite Nat.add_comm. exact (Nat.Div0.mod_add n 1 50).
Qed.

Lemma failsWith_readTriangles n :
  forall ps, failsWith (50 * n) (readTriangles n ps) truncationError.
Proof.
  induction n as [|n IH]; intros ps.
  - intros buf H. lia.
  - eapply failsWith_ext.
    + cbn [readTriangles].
      refine (failsWith_bind _ _ _ _ _ _ _ _ _ _);
        [apply reads_readNormal | apply failsWith_readNormal
         | intros normal; cbv beta zeta].
      refine (failsWith_bind _ _ _ _ _ _ _ _ _ _);
        [apply reads_readVertex | apply failsWith_readVertex
         | intros r0; cbv beta zeta].
      refine (failsWith_bind _ _ _ _ _ _ _ _ _ _);
        [apply reads_readVertex | apply failsWith_readVertex
         | intros r1; cbv beta zeta].
      refine (failsWith_bind _ _ _ _ _ _ _ _ _ _);
        [apply reads_readVertex | apply failsWith_readVertex
         | intros r2; cbv beta zeta].
      refine (failsWith_bind _ _ _ _ _ _ _ _ _ _);
        [apply reads_Read16 | apply failsWith_Read16
         | intros u; cbv beta zeta].
      refine (failsWith_bind _ _ _ _ _ _ _ _ _ _);
        [apply reads_readTriangles | apply IH
         | intros facets; exact (failsWith_ret _ truncationError)].
    + lia.
    + intros m Hm. cbv beta.
      destruct (Nat.lt_ge_cases m 50) as [Hlt | Hge].
      * clear -Hlt. do 50 (destruct m as [|m]; [reflexivity|]). exfalso. lia.
      * assert (Hk : exists k, m = (50 + k)%nat) by (exists (m - 50)%nat; lia).
        destruct Hk as (k & ->).
        destruct (Nat.ltb_spec (50 + k) 12) as [?|_]; [lia|].
        destruct (Nat.ltb_spec (50 + k - 12) 12) as [?|_]; [lia|].
        destruct (Nat.ltb_spec (50 + k - 12 - 12) 12) as [?|_]; [lia|].
        destruct (Nat.ltb_spec (50 + k - 12 - 12 - 12) 12) as [?|_]; [lia|].
        destruct (Nat.ltb_spec (50 + k - 12 - 12 - 12 - 12) 2) as [?|_]; [lia|].
        destruct (Nat.ltb_spec (50 + k - 12 - 12 - 12 - 12 - 2) (50 * n))
          as [_|?]; [|lia].
        replace (50 + k - 12 - 12 - 12 - 12 - 2)%nat with k by lia.
        now rewrite truncationError_next.
Qed.

(** X4: when the buffer holds header and count but ends before the
    records counted do, the error of the binary reader tells where the
    last record is cut: [io.EOF] when the bytes end where a field of the
    record starts, [io.ErrUnexpectedEOF] when they end inside a field. *)
Theorem parseBinary_truncation_error stl :
  84 <= len stl ->
  len stl - 84 < 50 * Z.of_nat (declaredCount stl) ->
  parseBinary stl =
  ([], Some (if (Z.to_nat (len stl - 84) mod 50) mod 4 =? 0
             then io_EOF else io_ErrUnexpectedEOF)%nat).
Proof.
  intros Hlen Hshort.
  assert (Hbody : length (recordBytes stl) = Z.to_nat (len stl - 84)).
  { unfold recordBytes, len. rewrite length_skipn. lia. }
  unfold parseBinary, len in *.
  destruct (Z.ltb_spec (Z.of_nat (length (data stl))) 80) as [?|_]; [lia|].
  destruct (Z.ltb_spec (Z.of_nat (length (skipn 80 (data stl)))) 4) as [H|_];
    [rewrite length_skipn in H; lia|].
  rewrite (proj2 (reads_Read32 _))
    by (rewrite length_firstn, length_skipn; lia).
  rewrite firstn_firstn, Nat.min_id, skipn_skipn.
  change (4 + 80)%nat with 84%nat.
  fold (recordBytes stl). fold (declaredCount stl).
  rewrite (failsWith_readTriangles (declaredCount stl) (0, 0, 0) (recordBytes stl))
    by lia.
  unfold failure, truncationError. rewrite Hbody.
  now destruct ((Z.to_nat _ mod 50) mod 4)%nat.
Qed.

Lemma parseBinary_truncation_error_witness :
  parseBinary (tight (firstn 132 simpleBinary)) = ([], Some io_EOF) /\
  parseBinary (tight (firstn 133 simpleBinary)) = ([], Some io_ErrUnexpectedEOF).
Proof.
  split.
  - rewrite (parseBinary_truncation_error (tight (firstn 132 simpleBinary))).
    + reflexivity.
    + vm_compute. discriminate.
    + vm_compute. reflexivity.
  - rewrite (parseBinary_truncation_error (tight (firstn 133 simpleBinary))).
    + reflexivity.
    + vm_compute. discriminate.
    + vm_compute. reflexivity.
Defined.

End BinaryMore.

(** * Further properties of the ASCII parse *)

Lemma runs_ret {A} (a : A) l (Q : A -> lexer -> Prop) : Q a l -> runs (ret a) l Q.
Proof. intros H. now exists a, l. Qed.

Lemma runs_bind {A B} (m : M A) (k : A -> M B) l (Q : B -> lexer -> Prop) :
  runs m l (fun a l' => runs (k a) l' Q) -> runs (bind m k) l Q.
Proof.
  intros (a & l' & Hm & b & l'' & Hk & HQ). exists b, l''.
  unfold bind. now rewrite Hm.
Qed.

Lemma runs_weaken {A} (m : M A) l (Q Q' : A -> lexer -> Prop) :
  runs m l Q -> (forall a l', Q a l' -> Q' a l') -> runs m l Q'.
Proof. intros (a & l' & Hm & HQ) H. exists a, l'. auto. Qed.

Lemma kept_refl l : kept l l.
Proof. repeat split. Qed.

Lemma kept_trans l l1 l2 : kept l l1 -> kept l1 l2 -> kept l l2.
Proof.
  unfold kept. intros (? & ? & ? & ? & ?) (? & ? & ? & ? & ?).
  repeat split; congruence.
Qed.

Lemma kept_set_pos p l : kept l (set_pos p l).
Proof. repeat split. Qed.

Lemma gap_spaceHead g rest : gap g -> spaceHead (g ++ rest).
Proof.
  intros [Hne Hg]. destruct g as [|c g]; [contradiction|].
  inversion Hg; subst. now exists c, (g ++ rest).
Qed.

Lemma literal_nonSpaceHead tok rest : permissiveNumber tok -> nonSpaceHead (tok ++ rest).
Proof.
  intros H. destruct (permissive_head tok H) as (b & t & -> & Hb).
  now exists b, (t ++ rest).
Qed.

Lemma runs_spaces l pre g rest :
  standsAt l pre (g ++ rest) -> blank g -> nonSpaceHead rest ->
  runs (acceptRun spaces) l (fun _ l' => readTo (pre ++ g) rest l l').
Proof.
  intros Hat Hg (c & r & -> & Hc).
  exists (negb (isNil g)), (set_pos (pos l + Z.of_nat (length g)) l).
  split; [now apply (acceptRun_at spaces g l pre c r)|].
  split; [now apply standsAt_step | apply kept_set_pos].
Qed.

Lemma runs_keyword keyword l pre rest :
  standsAt l pre (keyword ++ rest) ->
  runs (acceptKeyword keyword) l
       (fun ok l' => ok = true /\ readTo (pre ++ keyword) rest l l').
Proof.
  intros Hat.
  exists true, (set_pos (pos l + Z.of_nat (length keyword)) l).
  split; [now apply (acceptKeyword_hit keyword l pre rest)|].
  split; [reflexivity|].
  split; [now apply standsAt_step | apply kept_set_pos].
Qed.

(** A coordinate whose literal the conversion accepts. *)
Lemma coordinate_reads_literal l pre ws tok d rest v :
  standsAt l pre (ws ++ tok ++ d :: rest) ->
  Forall (fun b => member spaces b = true) ws ->
  member spaces d = true ->
  permissiveNumber tok ->
  strconv.ParseFloat tok = Some v ->
  let l1 := set_pos (pos l + Z.of_nat (length ws)) l in
  let l2 := set_pos (pos l + Z.of_nat (length (ws ++ tok))) l in
  vertexCoordinate l = Done (inr v, l2) /\
  normalCoordinate l = Done (inr v, set_start (pos l1) l2).
Proof.
  intros Hat Hws Hd Htok Hgood l1 l2.
  pose proof (acceptRun_spaces_before l pre ws tok (d :: rest) Hat Hws Htok) as Hsp.
  fold l1 in Hsp.
  assert (Hat1 : standsAt l1 (pre ++ ws) (tok ++ d :: rest))
    by exact (standsAt_step l pre ws _ Hat).
  assert (Hl2 : set_pos (pos l1 + Z.of_nat (length tok)) l1 = l2).
  { unfold l1, l2. rewrite set_pos_set_pos, length_app, Nat2Z.inj_add.
    cbn [pos set_pos]. now rewrite Z.add_assoc. }
  pose proof (acceptNumber_permissive l1 (pre ++ ws) tok d rest Hat1 Hd Htok) as Hnum.
  rewrite Hl2 in Hnum.
  assert (Hat2 : standsAt l2 ((pre ++ ws) ++ tok) (d :: rest)).
  { rewrite <- Hl2. exact (standsAt_step l1 (pre ++ ws) tok _ Hat1). }
  assert (Hc : pos l1 = Z.of_nat (length (pre ++ ws))) by apply Hat1.
  split.
  - unfold vertexCoordinate, bind, get. rewrite Hsp, Hnum.
    cbn [negb].
    token_text (pre ++ ws) tok (d :: rest).
    rewrite Hgood. reflexivity.
  - unfold normalCoordinate, bind, get, ignore, modify. rewrite Hsp.
    assert (Hat1' : standsAt (set_start (pos l1) l1) (pre ++ ws) (tok ++ d :: rest))
      by exact Hat1.
    rewrite (acceptNumber_permissive _ (pre ++ ws) tok d rest Hat1' Hd Htok).
    cbn [negb pos set_pos start set_start].
    apply standsAt_step in Hat1'.
    token_text (pre ++ ws) tok (d :: rest).
    rewrite Hgood. unfold ret. rewrite <- Hl2. reflexivity.
Qed.

Lemma runs_vertexCoordinate l pre c rest :
  standsAt l pre (renderCoordinate c ++ rest) ->
  coordinateOK c -> spaceHead rest ->
  runs vertexCoordinate l
       (fun r l' => r = inr (value c) /\
                    readTo (pre ++ renderCoordinate c) rest l l').
Proof.
  intros Hat ([_ Hws] & Htok & Hv) (d & r & -> & Hd).
  unfold renderCoordinate in *. rewrite <- app_assoc in Hat.
  destruct (coordinate_reads_literal l pre _ _ d r _ Hat Hws Hd Htok Hv) as [H _].
  eexists _, _. split; [exact H|]. split; [reflexivity|].
  split; [|apply kept_set_pos].
  rewrite app_assoc in Hat. exact (standsAt_step l pre _ _ Hat).
Qed.

Lemma runs_normalCoordinate l pre c rest :
  standsAt l pre (renderCoordinate c ++ rest) ->
  coordinateOK c -> spaceHead rest ->
  runs normalCoordinate l
       (fun r l' => r = inr (value c) /\
                    readTo (pre ++ renderCoordinate c) rest l l').
Proof.
  intros Hat ([_ Hws] & Htok & Hv) (d & r & -> & Hd).
  unfold renderCoordinate in *. rewrite <- app_assoc in Hat.
  destruct (coordinate_reads_literal l pre _ _ d r _ Hat Hws Hd Htok Hv) as [_ H].
  eexists _, _. split; [exact H|]. split; [reflexivity|].
  split; [|repeat split].
  rewrite app_assoc in Hat. exact (standsAt_step l pre _ _ Hat).
Qed.

Lemma runs_bindBody {A B} (m : M (orReturn A)) (k : A -> M (orReturn B)) l
      (a : A) (Q : lexer -> Prop) (Q' : orReturn B -> lexer -> Prop) :
  runs m l (fun r l' => r = inr a /\ Q l') ->
  (forall l', Q l' -> runs (k a) l' Q') ->
  runs (bindBody m k) l Q'.
Proof.
  intros Hm Hk. unfold bindBody. apply runs_bind.
  eapply runs_weaken; [exact Hm|]. intros r l' [-> HQ]. now apply Hk.
Qed.

Lemma runs_bindFn {A} (m : M (orReturn A)) (k : A -> M (option stateFn)) l
      (a : A) (Q : lexer -> Prop) (Q' : option stateFn -> lexer -> Prop) :
  runs m l (fun r l' => r = inr a /\ Q l') ->
  (forall l', Q l' -> runs (k a) l' Q') ->
  runs (bindFn m k) l Q'.
Proof.
  intros Hm Hk. unfold bindFn. apply runs_bind.
  eapply runs_weaken; [exact Hm|]. intros r l' [-> HQ]. now apply Hk.
Qed.

Lemma coordinate_spaceHead c rest : coordinateOK c -> spaceHead (renderCoordinate c ++ rest).
Proof.
  intros (Hg & _). unfold renderCoordinate. rewrite <- app_assoc.
  now apply gap_spaceHead.
Qed.

Lemma keyword_nonSpaceHead c k rest :
  member spaces c = false -> nonSpaceHead ((c :: k) ++ rest).
Proof. intros H. now exists c, (k ++ rest). Qed.

Lemma standsAt_pre l pre pre' rest :
  standsAt l pre rest -> pre = pre' -> standsAt l pre' rest.
Proof. now intros H <-. Qed.

(** One step of a method that returns: its lemma, then the rest. *)
Tactic Notation "run" uconstr(lem) "as" ident(a) ident(l) ident(H) :=
  apply runs_bind; eapply runs_weaken; [eapply lem | cbv beta; intros a l H].

Ltac heads :=
  first [ assumption
        | apply gap_spaceHead; assumption
        | apply coordinate_spaceHead; assumption
        | apply literal_nonSpaceHead; assumption
        | apply keyword_nonSpaceHead; reflexivity ].

Ltac lists_agree := rewrite <- ?app_assoc; reflexivity.

Lemma runs_vertexLine l pre g t rest :
  standsAt l pre (g ++ bytes "vertex" ++ renderTriple t ++ rest) ->
  blank g -> tripleOK t -> spaceHead rest ->
  runs vertexLine l
       (fun r l' => r = inr (vertexOfTriple t) /\
                    readTo (pre ++ g ++ bytes "vertex" ++ renderTriple t) rest l l').
Proof.
  intros Hat Hg (Hx & Hy & Hz) Hrest. unfold vertexLine.
  run (runs_spaces _ _ _ _ Hat Hg) as sp l1 H1; [heads|].
  destruct H1 as [Hat1 K1].
  run (runs_keyword _ _ _ _ Hat1) as ok l2 H2.
  destruct H2 as (-> & Hat2 & K2). cbn [negb].
  unfold renderTriple in Hat2. rewrite <- !app_assoc in Hat2.
  eapply runs_bindBody;
    [apply (runs_vertexCoordinate _ _ _ _ Hat2 Hx); heads | intros l3 [Hat3 K3]].
  eapply runs_bindBody;
    [apply (runs_vertexCoordinate _ _ _ _ Hat3 Hy); heads | intros l4 [Hat4 K4]].
  eapply runs_bindBody;
    [apply (runs_vertexCoordinate _ _ _ _ Hat4 Hz); heads | intros l5 [Hat5 K5]].
  apply runs_ret. split; [reflexivity|]. split.
  - apply (standsAt_pre _ _ _ _ Hat5). unfold renderTriple. lists_agree.
  - eauto using kept_trans.
Qed.

Lemma runs_modify (f : lexer -> lexer) l :
  runs (modify f) l (fun _ l' => l' = f l).
Proof. now exists tt, (f l). Qed.

Lemma runs_get {A} (f : lexer -> A) l :
  runs (get f) l (fun a l' => a = f l /\ l' = l).
Proof. now exists (f l), l. Qed.

(** The facet state over the head of a block: the normal is read and
    kept in the pending facet. *)
Lemma runs_asciiFacet l pre w f rest :
  standsAt l pre (w ++ renderHead f ++ rest) ->
  blank w -> facetTextOK f ->
  runs asciiFacet l
       (fun st l' =>
          st = Some fnAsciiVertex /\
          standsAt l' (pre ++ w ++ renderHead f) rest /\
          input l' = input l /\ state l' = state l /\ items l' = items l /\
          error l' = error l /\
          pendingFacet l' =
            Some (mkFacet (zeroVertex, zeroVertex, zeroVertex) false
                          (vertexOfTriple (tNormal f)))).
Proof.
  intros Hat Hw (HgN & (Hx & Hy & Hz) & HgO & HgL & _).
  unfold asciiFacet, renderHead in *. rewrite <- !app_assoc in Hat.
  run (runs_spaces _ _ _ _ Hat Hw) as sp l1 H1; [heads|].
  destruct H1 as [Hat1 K1].
  run (runs_keyword _ _ _ _ Hat1) as ok l2 H2.
  destruct H2 as (-> & Hat2 & K2). cbn [negb].
  run (runs_spaces _ _ _ _ Hat2 (proj2 HgN)) as sp2 l3 H3; [heads|].
  destruct H3 as [Hat3 K3].
  run (runs_keyword _ _ _ _ Hat3) as ok l4 H4.
  destruct H4 as (-> & Hat4 & K4). cbn [negb].
  unfold renderTriple in Hat4. rewrite <- !app_assoc in Hat4.
  eapply runs_bindFn;
    [apply (runs_normalCoordinate _ _ _ _ Hat4 Hx); heads | intros l5 [Hat5 K5]].
  eapply runs_bindFn;
    [apply (runs_normalCoordinate _ _ _ _ Hat5 Hy); heads | intros l6 [Hat6 K6]].
  eapply runs_bindFn;
    [apply (runs_normalCoordinate _ _ _ _ Hat6 Hz); heads | intros l7 [Hat7 K7]].
  run (runs_spaces _ _ _ _ Hat7 (proj2 HgO)) as sp3 l8 H8; [heads|].
  destruct H8 as [Hat8 K8].
  run (runs_keyword _ _ _ _ Hat8) as ok l9 H9.
  destruct H9 as (-> & Hat9 & K9). cbn [negb].
  run (runs_spaces _ _ _ _ Hat9 (proj2 HgL)) as sp4 l10 H10; [heads|].
  destruct H10 as [Hat10 K10].
  run (runs_keyword _ _ _ _ Hat10) as ok l11 H11.
  destruct H11 as (-> & Hat11 & K11). cbn [negb].
  run runs_modify as u l12 H12. subst l12.
  apply runs_ret. split; [reflexivity|].
  assert (K : kept l l11) by eauto 12 using kept_trans.
  destruct K as (Ki & Ks & Kq & Ke & Kp).
  split; [|repeat split; assumption].
  apply (standsAt_pre l11 _ _ _ Hat11). unfold renderTriple. lists_agree.
Qed.

(** The vertex state over the rest of a block: the facet is completed and
    sent, and the white space after the block is taken. *)
Lemma runs_asciiVertex l pre f rest pending :
  standsAt l pre (renderLoop f ++ rest) ->
  facetTextOK f -> nonSpaceHead rest ->
  pendingFacet l = Some pending -> items l = [] ->
  runs asciiVertex l
       (fun st l' =>
          st = Some fnAsciiFacet /\
          standsAt l' (pre ++ renderLoop f) rest /\
          input l' = input l /\ state l' = state l /\ error l' = error l /\
          items l' = [mkFacet (vertexOfTriple (tVertex0 f),
                               vertexOfTriple (tVertex1 f),
                               vertexOfTriple (tVertex2 f))
                              true (Normal pending)] /\
          pendingFacet l' = None).
Proof.
  intros Hat (_ & _ & _ & _ & Hg0 & Ht0 & Hg1 & Ht1 & Hg2 & Ht2 & HgE & HgF & HgA)
         Hrest Hpending Hitems.
  unfold asciiVertex, renderLoop in *. rewrite <- !app_assoc in Hat.
  eapply runs_bindFn;
    [apply (runs_vertexLine _ _ _ _ _ Hat (proj2 Hg0) Ht0); heads
    | intros l1 [Hat1 K1]].
  eapply runs_bindFn;
    [apply (runs_vertexLine _ _ _ _ _ Hat1 (proj2 Hg1) Ht1); heads
    | intros l2 [Hat2 K2]].
  eapply runs_bindFn;
    [apply (runs_vertexLine _ _ _ _ _ Hat2 (proj2 Hg2) Ht2); heads
    | intros l3 [Hat3 K3]].
  run (runs_spaces _ _ _ _ Hat3 (proj2 HgE)) as sp l4 H4; [heads|].
  destruct H4 as [Hat4 K4].
  run (runs_keyword _ _ _ _ Hat4) as ok l5 H5.
  destruct H5 as (-> & Hat5 & K5). cbn [negb].
  run (runs_spaces _ _ _ _ Hat5 (proj2 HgF)) as sp2 l6 H6; [heads|].
  destruct H6 as [Hat6 K6].
  run (runs_keyword _ _ _ _ Hat6) as ok l7 H7.
  destruct H7 as (-> & Hat7 & K7). cbn [negb].
  run (runs_spaces _ _ _ _ Hat7 (proj2 HgA)) as sp3 l8 H8; [heads|].
  destruct H8 as [Hat8 K8].
  assert (K : kept l l8) by eauto 12 using kept_trans.
  destruct K as (Ki & Ks & Kq & Ke & Kp).
  run runs_get as p l9 H9. destruct H9 as [-> ->].
  rewrite Kp, Hpending.
  unfold runs, bind, emit, modify, ret. rewrite Kq, Hitems. cbn [length Nat.leb].
  eexists _, _. split; [reflexivity|]. cbn.
  split; [reflexivity|]. split; [|repeat split; assumption].
  apply (standsAt_pre l8 _ _ _ Hat8). unfold renderTriple. lists_agree.
Qed.

Lemma acceptKeyword_miss keyword l pre found rest :
  standsAt l pre (found ++ rest) ->
  length found = length keyword -> found <> keyword ->
  acceptKeyword keyword l = Done (false, l).
Proof.
  intros [Hd Hp] Hlen Hne. unfold acceptKeyword, bind, get, inputSlice.
  rewrite Hp, <- Hlen, (subslice_at _ pre found rest Hd).
  now rewrite (bytes_Equal_neq _ _ Hne).
Qed.

Lemma nextFacet_receive fuel l item rest :
  items l = item :: rest ->
  nextFacet (S fuel) l = Done (Some item, set_items rest l).
Proof. intros H. cbn [nextFacet]. now rewrite H. Qed.

(** One pull over a facet block: the facet it stands for. *)
Lemma nextFacet_block fuel l pre w f rest :
  ready l ->
  standsAt l pre (w ++ renderFacet f ++ rest) ->
  blank w -> facetTextOK f -> nonSpaceHead rest ->
  exists l',
    nextFacet (3 + fuel) l = Done (Some (facetOfText f), l') /\
    ready l' /\ standsAt l' (pre ++ w ++ renderFacet f) rest /\
    input l' = input l.
Proof.
  intros (Hs & Hq & He) Hat Hw Hf Hrest.
  unfold renderFacet in Hat. rewrite <- app_assoc in Hat.
  destruct (runs_asciiFacet l pre w f _ Hat Hw Hf)
    as (st & l1 & Hfacet & -> & Hat1 & Hi1 & Hs1 & Hq1 & He1 & Hp1).
  cbn [Nat.add]. rewrite (nextFacet_call _ l Hq), Hs.
  unfold bind at 1. cbn [callState]. rewrite Hfacet.
  unfold bind at 1, modify at 1.
  set (l1' := set_state (Some fnAsciiVertex) l1).
  assert (Hq1' : items l1' = []) by (cbn; congruence).
  destruct (runs_asciiVertex l1' _ f rest _ Hat1 Hf Hrest Hp1 Hq1')
    as (st & l2 & Hvertex & -> & Hat2 & Hi2 & Hs2 & He2 & Hq2 & Hp2).
  rewrite (nextFacet_call _ l1' Hq1'). unfold bind at 1.
  cbn [state set_state l1' callState]. fold l1'. rewrite Hvertex.
  unfold bind at 1, modify at 1.
  set (l2' := set_state (Some fnAsciiFacet) l2).
  rewrite (nextFacet_receive fuel l2' _ [] Hq2).
  eexists. split; [reflexivity|]. split; [|split].
  - repeat split. unfold l1' in He2. cbn in *. congruence.
  - apply (standsAt_pre _ _ _ _ Hat2). unfold renderFacet. lists_agree.
  - unfold l1' in Hi2. cbn in *. congruence.
Qed.

(** The pull that finds [endsolid]: the parse ends, no error recorded. *)
Lemma nextFacet_endsolid fuel l pre w rest :
  ready l ->
  standsAt l pre (w ++ bytes "endsolid" ++ rest) ->
  blank w ->
  exists l', nextFacet (S fuel) l = Done (None, l') /\ error l' = None.
Proof.
  intros (Hs & Hq & He) Hat Hw.
  rewrite (nextFacet_call _ l Hq), Hs. unfold bind at 1. cbn [callState].
  unfold asciiFacet. unfold bind at 1.
  rewrite (acceptRun_at spaces w l pre x65 (bytes "ndsolid" ++ rest) Hat Hw eq_refl).
  apply standsAt_step in Hat.
  unfold bind at 1.
  rewrite (acceptKeyword_miss (bytes "facet") _ _ (bytes "endso")
             (bytes "lid" ++ rest) Hat eq_refl) by discriminate.
  cbn [negb]. unfold bind at 1.
  rewrite (acceptKeyword_hit (bytes "endsolid") _ _ rest Hat).
  eexists. split; [reflexivity|]. exact He.
Qed.

Lemma blocks_nonSpaceHead fs rest :
  nonSpaceHead (concat (map renderFacet fs) ++ bytes "endsolid" ++ rest).
Proof.
  destruct fs as [|f fs]; cbn [map concat].
  - now apply keyword_nonSpaceHead.
  - unfold renderFacet, renderHead. rewrite <- !app_assoc.
    now apply keyword_nonSpaceHead.
Qed.

(** The loop of [parseASCII] over the facet blocks left, up to
    [endsolid]. *)
Lemma pullFacets_blocks rest fs :
  forall l pre acc f0 fuel,
    Valid f0 = true -> ready l ->
    standsAt l pre (concat (map renderFacet fs) ++ bytes "endsolid" ++ rest) ->
    Forall facetTextOK fs ->
    (length fs < fuel)%nat ->
    exists l',
      pullFacets fuel acc (Some f0) l =
        Done (acc ++ f0 :: map facetOfText fs, l') /\
      error l' = None.
Proof.
  induction fs as [|f fs IH]; intros l pre acc f0 fuel Hvalid Hready Hat Hok Hfuel;
    (destruct fuel as [|fuel]; [simpl in Hfuel; lia|]);
    cbn [pullFacets]; rewrite Hvalid; unfold bind.
  - destruct (nextFacet_endsolid 3 l pre [] rest Hready Hat (Forall_nil _))
      as (l' & -> & He).
    exists l'. split; [|exact He]. now destruct fuel.
  - inversion Hok as [|? ? Hf Hok']; subst.
    cbn [map concat] in Hat. rewrite <- app_assoc in Hat.
    destruct (nextFacet_block 1 l pre [] f _ Hready Hat (Forall_nil _) Hf
                (blocks_nonSpaceHead fs rest))
      as (l1 & Hnext & Hready1 & Hat1 & _).
    cbn [Nat.add] in Hnext. rewrite Hnext.
    destruct (IH l1 _ (acc ++ [f0]) (facetOfText f) fuel eq_refl Hready1 Hat1 Hok')
      as (l' & -> & He); [simpl in Hfuel; lia|].
    exists l'. split; [|exact He]. now rewrite <- app_assoc.
Qed.

(** The header state over white space, a name and white space. *)
Lemma runs_asciiFileHeader l g0 name g1 rest :
  standsAt l [] (g0 ++ name ++ g1 ++ rest) ->
  start l = 0 ->
  blank g0 -> name <> [] ->
  Forall (fun b => member ident b = true) name ->
  gap g1 ->
  runs asciiFileHeader l
       (fun st l' => st = Some fnAsciiFacet /\
                     standsAt l' (g0 ++ name) (g1 ++ rest) /\
                     input l' = input l /\ items l' = items l /\
                     error l' = error l).
Proof.
  intros Hat Hstart Hg0 Hne Hname [Hg1ne Hg1].
  destruct name as [|n0 name']; [contradiction|].
  assert (Hn0 : member ident n0 = true) by now inversion Hname.
  destruct g1 as [|s g1']; [contradiction|].
  assert (Hs : member spaces s = true) by now inversion Hg1.
  assert (Hpos : pos l = 0) by apply Hat.
  set (l1 := set_pos (pos l + Z.of_nat (length g0)) l).
  set (l2 := set_pos (pos l1 + Z.of_nat (length (n0 :: name'))) l1).
  assert (Hat1 : standsAt l1 ([] ++ g0) ((n0 :: name') ++ (s :: g1') ++ rest))
    by exact (standsAt_step l [] g0 _ Hat).
  assert (Hat2 : standsAt l2 (([] ++ g0) ++ n0 :: name') ((s :: g1') ++ rest))
    by exact (standsAt_step l1 _ (n0 :: name') _ Hat1).
  assert (Hrun : asciiFileHeader l =
                 (if bytes_Equal (g0 ++ n0 :: name') (bytes "facet")
                  then Done (Some fnAsciiFacet, set_start (pos l2) l2)
                  else Done (Some fnAsciiFacet,
                             set_meshName (g0 ++ n0 :: name') l2))).
  { unfold asciiFileHeader, bind.
    rewrite (acceptRun_at spaces g0 l [] n0 (name' ++ (s :: g1') ++ rest) Hat Hg0)
      by now apply ident_not_space.
    fold l1.
    rewrite (acceptRun_at ident (n0 :: name') l1 _ s (g1' ++ rest) Hat1 Hname)
      by now apply space_not_ident.
    fold l2. unfold get.
    assert (Hstart2 : start l2 = Z.of_nat (length (@nil byte))) by exact Hstart.
    rewrite Hstart2.
    rewrite (inputSlice_at l2 [] (g0 ++ n0 :: name') ((s :: g1') ++ rest) Hat2).
    now destruct (bytes_Equal _ _). }
  rewrite app_nil_l in Hat2.
  destruct (bytes_Equal _ _);
    eexists _, _; (split; [exact Hrun|]);
    (split; [reflexivity|]); (split; [exact Hat2|]); repeat split.
Qed.

Lemma length_blocks fs : (length fs <= length (concat (map renderFacet fs)))%nat.
Proof.
  induction fs as [|f fs IH]; [reflexivity|].
  cbn [map concat length]. unfold renderFacet at 1, renderHead.
  rewrite !length_app. change (length (bytes "facet")) with 5%nat. lia.
Qed.

(** X5: a well-formed ASCII text parses to the facets of its blocks.  Let
    the bytes after the sentinel be white space (or none), a name, white
    space, any number of facet blocks whose keywords and literals are set
    apart by white space and whose literals the conversion accepts, and
    the keyword [endsolid]; then the parse succeeds with one facet per
    block, in the order of the text, each with the normal and the three
    vertices that its literals convert to and with [Valid] set.  What
    follows [endsolid], and the capacity of the buffer, make no
    difference. *)
Theorem parseASCII_wellformed g0 name g1 fs rest extra :
  blank g0 ->
  name <> [] -> Forall (fun b => member ident b = true) name ->
  gap g1 ->
  Forall facetTextOK fs ->
  parseASCII (mkSlice (renderSolid g0 name g1 fs rest) extra) =
    Done (map facetOfText fs, None) /\
  ParseSTLBytes (mkSlice (bytes "solid" ++ renderSolid g0 name g1 fs rest) extra) =
    Done (map facetOfText fs, None).
Proof.
  intros Hg0 Hne Hname Hg1 Hok.
  assert (Hascii : parseASCII (mkSlice (renderSolid g0 name g1 fs rest) extra) =
                   Done (map facetOfText fs, None)).
  { set (stl := mkSlice _ extra).
    set (l0 := lex "ASCII STL" stl fnAsciiFileHeader).
    assert (Hat0 : standsAt l0 [] (g0 ++ name ++ g1 ++
                     concat (map renderFacet fs) ++ bytes "endsolid" ++ rest))
      by (split; reflexivity).
    destruct (runs_asciiFileHeader l0 g0 name g1 _ Hat0 eq_refl Hg0 Hne Hname Hg1)
      as (st & l1 & Hheader & -> & Hat1 & Hi1 & Hq1 & He1).
    set (l1' := set_state (Some fnAsciiFacet) l1).
    assert (Hready : ready l1') by (repeat split; assumption).
    assert (Hpull : exists l', pullAll stl = Done (map facetOfText fs, l') /\
                               error l' = None).
    { unfold pullAll. fold l0. unfold bind at 1.
      rewrite (nextFacet_call 3 l0 eq_refl). unfold bind at 1.
      change (callState (state l0) l0) with (asciiFileHeader l0).
      rewrite Hheader. unfold bind at 1, modify at 1. fold l1'.
      destruct fs as [|f fs'].
      - destruct (nextFacet_endsolid 2 l1' _ g1 rest Hready Hat1 (proj2 Hg1))
          as (l' & -> & He).
        exists l'. split; [reflexivity | exact He].
      - inversion Hok as [|? ? Hf Hok']; subst.
        cbn [map concat] in Hat1. rewrite <- app_assoc in Hat1.
        destruct (nextFacet_block 0 l1' _ g1 f _ Hready Hat1 (proj2 Hg1) Hf
                    (blocks_nonSpaceHead fs' rest))
          as (l2 & Hnext & Hready2 & Hat2 & _).
        cbn [Nat.add] in Hnext. rewrite Hnext.
        apply (pullFacets_blocks rest fs' l2 _ [] (facetOfText f)
                 (S (Z.to_nat (cap stl))) eq_refl Hready2 Hat2 Hok').
        pose proof (length_blocks fs') as Hlen.
        unfold cap, stl, renderSolid. cbn [data map concat].
        rewrite !length_app. lia. }
    destruct Hpull as (l' & Hpull & He).
    unfold parseASCII. now rewrite Hpull, He. }
  split; [exact Hascii|].
  unfold ParseSTLBytes.
  destruct (Z.ltb_spec (len (mkSlice (bytes "solid" ++ renderSolid g0 name g1 fs rest)
                                     extra)) 5) as [Hlt|_].
  - unfold len in Hlt. cbn [data] in Hlt. rewrite length_app in Hlt.
    change (length (bytes "solid")) with 5%nat in Hlt. lia.
  - change (firstn 5 (data (mkSlice (bytes "solid" ++ renderSolid g0 name g1 fs rest)
                                    extra))) with (bytes "solid").
    rewrite bytes_Equal_refl.
    change (slice_from 5 (mkSlice (bytes "solid" ++ renderSolid g0 name g1 fs rest)
                                  extra))
      with (mkSlice (renderSolid g0 name g1 fs rest) extra).
    now rewrite Hascii.
Qed.

Lemma permissiveNumber_unsigned r : digitDotRun r -> permissiveNumber r.
Proof.
  intros Hr. exists [], r, []. rewrite app_nil_r.
  repeat split; try apply Hr; now left.
Qed.

Lemma permissiveNumber_signed s r :
  member (bytes "+-") s = true -> digitDotRun r -> permissiveNumber (s :: r).
Proof.
  intros Hs Hr. exists [s], r, []. rewrite app_nil_r.
  split; [reflexivity|]. split; [|split; [exact Hr | now left]].
  right. revert Hs. destruct s; vm_compute; intros; try discriminate; auto.
Qed.

Ltac run_of := split; [discriminate | repeat constructor].

Ltac literal_ok :=
  first [ solve [apply permissiveNumber_unsigned; run_of]
        | solve [apply permissiveNumber_signed; [reflexivity | run_of]] ].

Ltac coordinate_ok := split; [run_of | split; [literal_ok | reflexivity]].

Ltac triple_ok := split; [coordinate_ok | split; coordinate_ok].

Ltac block_ok := repeat (split; [first [triple_ok | run_of] |]); run_of.

Lemma parseASCII_wellformed_witness :
  ParseSTLBytes (tight simpleASCII) = Done ([asciiFacet0; asciiFacet1], None).
Proof.
  refine (proj2 (parseASCII_wellformed
                   (bytes " ") (bytes "OpenSCAD_Model") (indent 2)
                   [simpleText0; simpleText1] (bytes " OpenSCAD_Model") []
                   _ _ _ _ _)).
  - repeat constructor.
  - discriminate.
  - repeat constructor.
  - run_of.
  - constructor; [block_ok | constructor; [block_ok | constructor]].
Defined.

(** * Texts that the facet state rejects *)

(** The header state over white space and a name, either of which may be
    missing, up to a byte [d] that ends them. *)
Lemma asciiFileHeader_at l g0 name d rest :
  standsAt l [] (g0 ++ name ++ d :: rest) ->
  start l = 0 ->
  blank g0 ->
  Forall (fun b => member ident b = true) name ->
  member ident d = false ->
  (name = [] -> member spaces d = false) ->
  exists l',
    asciiFileHeader l = Done (Some fnAsciiFacet, l') /\
    standsAt l' (g0 ++ name) (d :: rest) /\
    input l' = input l /\ items l' = items l /\ error l' = error l.
Proof.
  intros Hat Hstart Hg0 Hname Hd Hempty.
  set (l1 := set_pos (pos l + Z.of_nat (length g0)) l).
  set (l2 := set_pos (pos l1 + Z.of_nat (length name)) l1).
  assert (Hat1 : standsAt l1 ([] ++ g0) (name ++ d :: rest))
    by exact (standsAt_step l [] g0 _ Hat).
  assert (Hat2 : standsAt l2 (([] ++ g0) ++ name) (d :: rest))
    by exact (standsAt_step l1 _ name _ Hat1).
  assert (Hspaces : acceptRun spaces l = Done (negb (isNil g0), l1)).
  { destruct name as [|n0 name'].
    - apply (acceptRun_at spaces g0 l [] d rest Hat Hg0). now apply Hempty.
    - apply (acceptRun_at spaces g0 l [] n0 (name' ++ d :: rest) Hat Hg0).
      apply ident_not_space. now inversion Hname. }
  assert (Hrun : asciiFileHeader l =
                 (if bytes_Equal (g0 ++ name) (bytes "facet")
                  then Done (Some fnAsciiFacet, set_start (pos l2) l2)
                  else Done (Some fnAsciiFacet, set_meshName (g0 ++ name) l2))).
  { unfold asciiFileHeader, bind. rewrite Hspaces.
    rewrite (acceptRun_at ident name l1 _ d rest Hat1 Hname Hd).
    fold l2. unfold get.
    assert (Hstart2 : start l2 = Z.of_nat (length (@nil byte))) by exact Hstart.
    rewrite Hstart2.
    rewrite (inputSlice_at l2 [] (g0 ++ name) (d :: rest) Hat2).
    now destruct (bytes_Equal _ _). }
  rewrite app_nil_l in Hat2.
  destruct (bytes_Equal _ _);
    eexists; (split; [exact Hrun|]); (split; [exact Hat2|]); repeat split.
Qed.

(** The facet state at bytes that are neither of its keywords. *)
Lemma asciiFacet_expects_facet l pre w found rest :
  standsAt l pre (w ++ found ++ rest) ->
  blank w ->
  length found = 8%nat ->
  nonSpaceHead found ->
  firstn 5 found <> bytes "facet" ->
  found <> bytes "endsolid" ->
  asciiFacet l =
  Done (None,
        set_error (Some (expectedFacet (Z.of_nat (length (pre ++ w)))
                                       (firstn 5 found)))
                  (set_pos (pos l + Z.of_nat (length w)) l)).
Proof.
  intros Hat Hw Hlen (c & r & Hfound & Hc) Hfacet Hendsolid.
  assert (Hat1 := standsAt_step l pre w _ Hat).
  set (l1 := set_pos (pos l + Z.of_nat (length w)) l) in *.
  unfold asciiFacet. unfold bind at 1.
  rewrite Hfound in Hat. cbn [app] in Hat.
  rewrite (acceptRun_at spaces w l pre c (r ++ rest) Hat Hw Hc). fold l1.
  assert (Hsplit : found ++ rest = firstn 5 found ++ skipn 5 found ++ rest)
    by now rewrite app_assoc, firstn_skipn.
  assert (Hat5 : standsAt l1 (pre ++ w) (firstn 5 found ++ skipn 5 found ++ rest))
    by now rewrite <- Hsplit.
  assert (Hlen5 : length (firstn 5 found) = 5%nat)
    by (rewrite length_firstn; lia).
  unfold bind at 1.
  rewrite (acceptKeyword_miss (bytes "facet") l1 _ _ _ Hat5 Hlen5 Hfacet).
  cbn [negb]. unfold bind at 1.
  rewrite (acceptKeyword_miss (bytes "endsolid") l1 _ _ _ Hat1 Hlen Hendsolid).
  unfold expectedKeyword, bind, get, inputSlice.
  destruct Hat5 as [Hd Hp]. rewrite Hp.
  replace 5 with (Z.of_nat (length (firstn 5 found))) by now rewrite Hlen5.
  rewrite (subslice_at _ _ _ _ Hd).
  reflexivity.
Qed.

(** The parse of a text whose header is followed by neither keyword of
    the facet state. *)
Lemma parseASCII_expects_facet g0 name w found rest extra :
  blank g0 ->
  Forall (fun b => member ident b = true) name ->
  blank w -> (name = [] -> w = []) ->
  (w = [] -> exists c r, found = c :: r /\ member ident c = false) ->
  length found = 8%nat ->
  nonSpaceHead found ->
  firstn 5 found <> bytes "facet" ->
  found <> bytes "endsolid" ->
  parseASCII (mkSlice (g0 ++ name ++ w ++ found ++ rest) extra) =
  Done ([], Some (LexerError
                    (expectedFacet (Z.of_nat (length (g0 ++ name ++ w)))
                                   (firstn 5 found)))).
Proof.
  intros Hg0 Hname Hw Hnamed Hident Hlen Hhead Hfacet Hendsolid.
  set (stl := mkSlice _ extra).
  set (l0 := lex "ASCII STL" stl fnAsciiFileHeader).
  assert (Hat0 : standsAt l0 [] (g0 ++ name ++ w ++ found ++ rest))
    by (split; reflexivity).
  assert (Hd : exists d tail, w ++ found ++ rest = d :: tail /\
                              member ident d = false /\
                              (name = [] -> member spaces d = false)).
  { destruct w as [|s w'].
    - destruct (Hident eq_refl) as (c & r & -> & Hc).
      destruct Hhead as (c' & r' & Heq & Hc'). injection Heq as <- <-.
      exists c, (r ++ rest). now repeat split.
    - exists s, (w' ++ found ++ rest). split; [reflexivity|]. split.
      + apply space_not_ident. now inversion Hw.
      + intros ->. now discriminate (Hnamed eq_refl). }
  destruct Hd as (d & tail & Htail & Hd & Hempty).
  rewrite Htail in Hat0.
  destruct (asciiFileHeader_at l0 g0 name d tail Hat0 eq_refl Hg0 Hname Hd Hempty)
    as (l1 & Hheader & Hat1 & Hi1 & Hq1 & He1).
  rewrite <- Htail in Hat1.
  set (l1' := set_state (Some fnAsciiFacet) l1).
  assert (Hat1' : standsAt l1' (g0 ++ name) (w ++ found ++ rest)) by exact Hat1.
  unfold parseASCII, pullAll. fold l0. unfold bind at 1.
  rewrite (nextFacet_call 3 l0 eq_refl). unfold bind at 1.
  change (callState (state l0) l0) with (asciiFileHeader l0).
  rewrite Hheader. unfold bind at 1, modify at 1. fold l1'.
  rewrite (nextFacet_call 2 l1' Hq1). unfold bind at 1.
  change (callState (state l1') l1') with (asciiFacet l1').
  rewrite (asciiFacet_expects_facet l1' _ w found rest Hat1' Hw Hlen Hhead
             Hfacet Hendsolid).
  cbn. now rewrite <- app_assoc.
Qed.

(** The dispatcher on a buffer that starts with the sentinel. *)
Lemma ParseSTLBytes_solid text extra :
  ParseSTLBytes (mkSlice (bytes "solid" ++ text) extra) =
  match parseASCII (mkSlice text extra) with
  | Done (facets, Some err) =>
      match parseBinary (mkSlice (bytes "solid" ++ text) extra) with
      | (_, Some _) => Done (failure err)
      | (facets, None) => Done (success facets)
      end
  | Done (facets, None) => Done (success facets)
  | Panics p => Panics p
  | Exhausted => Exhausted
  end.
Proof.
  unfold ParseSTLBytes.
  destruct (Z.ltb_spec (len (mkSlice (bytes "solid" ++ text) extra)) 5) as [Hlt|_].
  - unfold len in Hlt. cbn [data] in Hlt. rewrite length_app in Hlt.
    change (length (bytes "solid")) with 5%nat in Hlt. lia.
  - change (firstn 5 (data (mkSlice (bytes "solid" ++ text) extra)))
      with (bytes "solid").
    rewrite bytes_Equal_refl. reflexivity.
Qed.

Lemma not_ident_head c r kw0 kw :
  member ident c = false -> member ident kw0 = true -> c :: r <> kw0 :: kw.
Proof. intros Hc Hk Heq. injection Heq as -> _. congruence. Qed.

(** X6: a binary file whose header starts with the sentinel.  Let the
    buffer be "solid", a byte that is neither white space nor a character
    of names, 74 more header bytes, a count, as many 50-byte records and
    anything after them.  The ASCII attempt fails at its first keyword,
    and [ParseSTLBytes] returns what the binary reader decodes from the
    whole buffer: one facet per record. *)
Theorem ParseSTLBytes_solid_header_binary c header count recs trailing extra :
  member spaces c = false ->
  member ident c = false ->
  length header = 74%nat ->
  length count = 4%nat ->
  Binary.Uint32 count = Z.of_nat (length recs) ->
  Forall (fun r => length r = 50%nat) recs ->
  parseASCII (mkSlice (c :: header ++ count ++ concat recs ++ trailing) extra) =
    Done ([], Some (LexerError (expectedFacet 0 (c :: firstn 4 header)))) /\
  ParseSTLBytes (mkSlice (bytes "solid" ++ c :: header ++ count ++
                          concat recs ++ trailing) extra) =
    Done (facetsOf (0, 0, 0) recs, None).
Proof.
  intros Hspace Hident Hh Hc Hn Hrecs.
  assert (Hascii :
    parseASCII (mkSlice (c :: header ++ count ++ concat recs ++ trailing) extra) =
    Done ([], Some (LexerError (expectedFacet 0 (c :: firstn 4 header))))).
  { assert (Hsplit : header = firstn 7 header ++ skipn 7 header)
      by now rewrite firstn_skipn.
    assert (Hfound : length (c :: firstn 7 header) = 8%nat)
      by (cbn [length]; rewrite length_firstn; lia).
    pose proof (parseASCII_expects_facet [] [] [] (c :: firstn 7 header)
                  (skipn 7 header ++ count ++ concat recs ++ trailing) extra
                  (Forall_nil _) (Forall_nil _) (Forall_nil _) (fun _ => eq_refl))
      as Hparse.
    cbn [app length] in Hparse.
    rewrite app_assoc, <- Hsplit in Hparse.
    replace (firstn 5 (c :: firstn 7 header)) with (c :: firstn 4 header) in Hparse.
    2:{ change (firstn 5 (c :: firstn 7 header))
          with (c :: firstn 4 (firstn 7 header)).
        now rewrite firstn_firstn. }
    apply Hparse; clear Hparse.
    - intros _. now exists c, (firstn 7 header).
    - exact Hfound.
    - now exists c, (firstn 7 header).
    - apply not_ident_head; [exact Hident | reflexivity].
    - apply not_ident_head; [exact Hident | reflexivity]. }
  split; [exact Hascii|].
  rewrite ParseSTLBytes_solid, Hascii.
  change (bytes "solid" ++ c :: header ++ count ++ concat recs ++ trailing)
    with ((bytes "solid" ++ [c]) ++ header ++ count ++ concat recs ++ trailing).
  rewrite app_assoc.
  rewrite (parseBinary_wellformed ((bytes "solid" ++ [c]) ++ header) count recs
             trailing extra); try assumption; [reflexivity|].
  rewrite !length_app, Hh. reflexivity.
Qed.

Lemma ParseSTLBytes_solid_header_binary_witness :
  ParseSTLBytes (tight nonStandardBinary) = Done ([simpleFacet0; simpleFacet1], None).
Proof.
  refine (proj2 (ParseSTLBytes_solid_header_binary x00 (repeat x00 74)
                   [x02; x00; x00; x00] [cubeRecord0; cubeRecord1] [] []
                   _ _ _ _ _ _)).
  - reflexivity.
  - reflexivity.
  - reflexivity.
  - reflexivity.
  - reflexivity.
  - repeat constructor.
Defined.

(** X7: a solid without a name is rejected.  When a facet block, however
    well formed, follows the sentinel and white space (or none) directly,
    the header state takes its keyword [facet] for the name of the solid,
    and the facet state fails at the keyword [normal], with the position
    of that keyword and the five bytes found there in the message.
    [ParseSTLBytes] then turns to the binary reader. *)
Theorem parseASCII_rejects_nameless g0 f rest extra :
  blank g0 ->
  facetTextOK f ->
  let err := LexerError (expectedFacet (Z.of_nat (length g0 + 5 + length (gNormal f)))
                                       (bytes "norma")) in
  parseASCII (mkSlice (g0 ++ renderFacet f ++ rest) extra) = Done ([], Some err) /\
  ParseSTLBytes (mkSlice (bytes "solid" ++ g0 ++ renderFacet f ++ rest) extra) =
    Done (match parseBinary (mkSlice (bytes "solid" ++ g0 ++ renderFacet f ++ rest)
                                     extra) with
          | (facets, None) => (facets, None)
          | (_, Some _) => ([], Some err)
          end).
Proof.
  intros Hg0 Hf err.
  assert (Hascii : parseASCII (mkSlice (g0 ++ renderFacet f ++ rest) extra) =
                   Done ([], Some err)).
  { destruct Hf as (Hgn & ((Hbx & Hlx & _) & _) & _).
    destruct Hbx as [Hne Hbx].
    destruct (before (cx (tNormal f))) as [|s0 bx] eqn:Ebx; [contradiction|].
    assert (Hs1 : exists s1 tail,
               renderTriple (tNormal f) = s0 :: s1 :: tail).
    { unfold renderTriple, renderCoordinate at 1. rewrite Ebx.
      destruct bx as [|s1 bx].
      - destruct (permissive_head _ Hlx) as (b & t & -> & _).
        now exists b, (t ++ renderCoordinate (cy (tNormal f)) ++
                         renderCoordinate (cz (tNormal f))).
      - now eexists s1, _. }
    destruct Hs1 as (s1 & tail & Htriple).
    pose proof (parseASCII_expects_facet g0 (bytes "facet") (gNormal f)
                  (bytes "normal" ++ [s0; s1])
                  (tail ++ gOuter f ++ bytes "outer" ++ gLoop f ++ bytes "loop"
                     ++ renderLoop f ++ rest) extra
                  Hg0) as Hparse.
    unfold renderFacet, renderHead. rewrite Htriple.
    replace (length (g0 ++ bytes "facet" ++ gNormal f))
      with (length g0 + 5 + length (gNormal f))%nat in Hparse
      by (rewrite !length_app; change (length (bytes "facet")) with 5%nat; lia).
    change (firstn 5 (bytes "normal" ++ [s0; s1])) with (bytes "norma") in Hparse.
    fold err in Hparse.
    rewrite <- Hparse; clear Hparse.
    - do 2 f_equal. rewrite <- !app_assoc. reflexivity.
    - repeat constructor.
    - apply Hgn.
    - discriminate.
    - intros Hnil. now destruct Hgn.
    - reflexivity.
    - now exists x6e, (bytes "ormal" ++ [s0; s1]).
    - discriminate.
    - discriminate. }
  split; [exact Hascii|].
  rewrite ParseSTLBytes_solid, Hascii.
  now destruct (parseBinary _) as [facets [e|]].
Qed.

Lemma parseASCII_rejects_nameless_witness :
  parseASCII (mkSlice (indent 2 ++ renderFacet simpleText0 ++ bytes "endsolid") []) =
  Done ([], Some (LexerError (expectedFacet 9 (bytes "norma")))).
Proof.
  refine (proj1 (parseASCII_rejects_nameless (indent 2) simpleText0
                   (bytes "endsolid") [] _ _)).
  - repeat constructor.
  - block_ok.
Defined.

(** * Errors and facets *)

Lemma parseBinary_error stl facets e :
  parseBinary stl = (facets, Some e) -> facets = [] /\ binaryError e.
Proof.
  intros Hrun.
  destruct (Z.lt_ge_cases (len stl) 84) as [Hshort|Hlong].
  - rewrite (parseBinary_short stl Hshort) in Hrun. injection Hrun as <- <-.
    split; [reflexivity|]. destruct (len stl <? 80); [now left | now right; left].
  - destruct (parseBinary_spec stl Hlong) as [Hfail Hok].
    destruct (Nat.lt_ge_cases (length (recordBytes stl)) (50 * declaredCount stl))
      as [Hlt|Hge].
    + destruct (Hfail Hlt) as (e' & He' & Heof). rewrite He' in Hrun.
      injection Hrun as <- <-. split; [reflexivity | now right; right].
    + rewrite (Hok Hge) in Hrun. discriminate.
Qed.

(** X8: an error comes without facets, and the shape of the buffer tells
    its kind.  Whenever [ParseSTLBytes] returns an error, it returns no
    facet with it; the error is the too-small message for a buffer of
    fewer than five bytes, a lexer error for a longer buffer that starts
    with the sentinel (the binary reader has then failed as well, and its
    error is dropped), and an error of the binary reader otherwise. *)
Theorem ParseSTLBytes_error stl facets e :
  ParseSTLBytes stl = Done (facets, Some e) ->
  facets = [] /\
  if len stl <? 5 then e = errors_New "STL file too small (<5 bytes)"
  else if bytes_Equal (firstn 5 (data stl)) (bytes "solid")
       then (exists m, e = LexerError m) /\
            (exists e2, snd (parseBinary stl) = Some e2 /\ binaryError e2)
       else binaryError e.
Proof.
  unfold ParseSTLBytes.
  destruct (len stl <? 5).
  { intros Hrun. injection Hrun as <- <-. now split. }
  destruct (bytes_Equal _ _).
  - unfold parseASCII. destruct (pullAll _) as [[pulled l]| |]; try discriminate.
    destruct (error l) as [m|].
    + cbn. destruct (parseBinary stl) as [binaryFacets [e2|]] eqn:Ebinary.
      * intros Hrun. injection Hrun as <- <-. split; [reflexivity|].
        split; [now exists m|]. exists e2. split; [reflexivity|].
        exact (proj2 (parseBinary_error _ _ _ Ebinary)).
      * discriminate.
    + discriminate.
  - intros Hrun. injection Hrun as Hrun. exact (parseBinary_error _ _ _ Hrun).
Qed.

Lemma ParseSTLBytes_error_witness :
  @nil Facet = [] /\
  (exists m, LexerError (expectedFacet 3 (bytes "bcdef")) = LexerError m) /\
  (exists e2, snd (parseBinary (tight (bytes "solid a bcdefghijk"))) = Some e2 /\
              binaryError e2).
Proof.
  apply (ParseSTLBytes_error (tight (bytes "solid a bcdefghijk")) []
           (LexerError (expectedFacet 3 (bytes "bcdef")))).
  reflexivity.
Defined.

(** * The panics of the lexer, and how a parse ends *)

Lemma holds_ret {A} (a : A) l (Q : A -> lexer -> Prop) : Q a l -> holds (ret a) l Q.
Proof. exact (fun H => H). Qed.

Lemma holds_bind {A B} (m : M A) (k : A -> M B) l (Q : B -> lexer -> Prop) :
  holds m l (fun a l' => holds (k a) l' Q) -> holds (bind m k) l Q.
Proof. unfold holds, bind. now destruct (m l) as [[a l']| |]. Qed.

Lemma holds_weaken {A} (m : M A) l (Q Q' : A -> lexer -> Prop) :
  holds m l Q -> (forall a l', Q a l' -> Q' a l') -> holds m l Q'.
Proof. unfold holds. destruct (m l) as [[a l']| |]; auto. Qed.

Lemma failed_after l l1 l2 : kept l l1 -> failed l1 l2 -> failed l l2.
Proof. intros (Hi & _) (Hi' & He). split; congruence. Qed.

Lemma stepped_after {A} l l1 (r : orReturn A) l2 :
  kept l l1 -> stepped l1 r l2 -> stepped l r l2.
Proof.
  intros Hk. destruct r as [st|a]; cbn.
  - intros [-> Hf]. split; [reflexivity | exact (failed_after _ _ _ Hk Hf)].
  - exact (kept_trans _ _ _ Hk).
Qed.

(** One step of a method: its specification, then the rest. *)
Tactic Notation "after" uconstr(lem) "as" ident(a) ident(l) ident(H) :=
  apply holds_bind; eapply holds_weaken; [apply lem | cbv beta; intros a l H].

(** What has been kept so far, put together. *)
Ltac keeps :=
  cbv beta in *;
  repeat match goal with
         | H : _ /\ _ |- _ => destruct H
         | H : ?l' = ?l |- _ => is_var l'; subst l'
         end;
  repeat match goal with
         | H1 : kept ?l0 ?l1, H2 : kept ?l1 ?l2 |- _ =>
             pose proof (kept_trans _ _ _ H1 H2); clear H1 H2
         end;
  try assumption; try apply kept_refl.

Lemma holds_get {A} (f : lexer -> A) l :
  holds (get f) l (fun a l' => a = f l /\ l' = l).
Proof. now split. Qed.

Lemma holds_inputSlice lo hi l :
  holds (inputSlice lo hi) l
        (fun found l' => l' = l /\ subslice (input l) lo hi = Some found).
Proof. unfold holds, inputSlice. now destruct (subslice _ _ _). Qed.

Lemma holds_next l : holds next l (fun _ l' => kept l l').
Proof.
  unfold holds, next. destruct (len (input l) <=? pos l); [apply kept_refl|].
  destruct (index _ _); [apply kept_set_pos | exact I].
Qed.

Lemma holds_backup l : holds backup l (fun _ l' => kept l l').
Proof. apply kept_set_pos. Qed.

Lemma holds_ignore l : holds ignore l (fun _ l' => kept l l').
Proof. repeat split. Qed.

Lemma holds_accept valid l : holds (accept valid) l (fun _ l' => kept l l').
Proof.
  unfold accept. after holds_next as r l1 H1.
  destruct (0 <=? IndexRune valid r).
  - apply holds_ret. exact H1.
  - after holds_backup as u l2 H2. apply holds_ret. keeps.
Qed.

Lemma holds_acceptRunLoop valid fuel :
  forall l result,
    holds (acceptRunLoop fuel valid result) l (fun _ l' => kept l l').
Proof.
  induction fuel as [|fuel IH]; intros l result; [exact I|].
  cbn [acceptRunLoop]. after holds_next as r l1 H1.
  destruct (0 <=? IndexRune valid r).
  - eapply holds_weaken; [apply IH|]. intros b l2 H2. keeps.
  - apply holds_ret. exact H1.
Qed.

Lemma holds_acceptRun valid l : holds (acceptRun valid) l (fun _ l' => kept l l').
Proof.
  unfold acceptRun. after holds_acceptRunLoop as result l1 H1.
  after holds_backup as u l2 H2. apply holds_ret. keeps.
Qed.

Lemma subslice_keywordIn s lo hi found :
  subslice s lo hi = Some found -> keywordIn s found.
Proof.
  unfold subslice. destruct (_ && _); [|discriminate]. intros [= <-].
  exists (firstn (Z.to_nat lo) (data s ++ spare s)),
         (skipn (Z.to_nat (hi - lo)) (skipn (Z.to_nat lo) (data s ++ spare s))).
  now rewrite !firstn_skipn.
Qed.

(** A keyword is accepted only where the backing array holds it. *)
Lemma holds_acceptKeyword keyword l :
  holds (acceptKeyword keyword) l
        (fun ok l' => kept l l' /\ (ok = true -> keywordIn (input l) keyword)).
Proof.
  unfold acceptKeyword. after holds_get as p l1 H1. destruct H1 as [-> ->].
  after holds_inputSlice as found l2 H2. destruct H2 as [-> Hfound].
  destruct (bytes_Equal found keyword) eqn:Heq.
  - apply bytes_Equal_eq in Heq. subst found.
    apply holds_bind. unfold holds at 1, modify. apply holds_ret.
    split; [apply kept_set_pos|]. intros _.
    exact (subslice_keywordIn _ _ _ _ Hfound).
  - apply holds_ret. split; [apply kept_refl | discriminate].
Qed.

Lemma holds_keyword keyword l :
  holds (acceptKeyword keyword) l (fun _ l' => kept l l').
Proof. eapply holds_weaken; [apply holds_acceptKeyword|]. now intros ok l' [H _]. Qed.

Lemma holds_acceptNumber l : holds acceptNumber l (fun _ l' => kept l l').
Proof.
  unfold acceptNumber.
  after holds_accept as sign l1 H1. after holds_acceptRun as digits l2 H2.
  destruct digits; cbn [negb].
  - after holds_accept as e l3 H3. destruct e.
    + after holds_accept as sign' l4 H4. after holds_acceptRun as digits' l5 H5.
      destruct digits'; cbn [negb]; apply holds_ret; keeps.
    + apply holds_ret. keeps.
  - apply holds_ret. keeps.
Qed.

Lemma holds_errorf fmt args l :
  holds (errorf fmt args) l (fun st l' => st = None /\ failed l l').
Proof. split; [reflexivity|]. split; [reflexivity | discriminate]. Qed.

Lemma holds_expectedKeyword fmt n l :
  holds (expectedKeyword fmt n) l (fun st l' => st = None /\ failed l l').
Proof.
  unfold expectedKeyword.
  after holds_get as p l1 H1. destruct H1 as [-> ->].
  after holds_inputSlice as saw l2 H2. destruct H2 as [-> _].
  apply holds_errorf.
Qed.

Lemma holds_Return {A} (m : M (option stateFn)) l :
  holds m l (fun st l' => st = None /\ failed l l') ->
  holds (@Return A m) l (stepped l).
Proof.
  intros H. unfold Return. apply holds_bind.
  eapply holds_weaken; [exact H|]. intros st l' HQ. now apply holds_ret.
Qed.

Lemma holds_vertexCoordinate l : holds vertexCoordinate l (stepped l).
Proof.
  unfold vertexCoordinate.
  after holds_acceptRun as sp l1 H1. after holds_get as c l2 H2.
  after holds_acceptNumber as ok l3 H3.
  destruct ok; cbn [negb].
  - after holds_get as p l4 H4. after holds_inputSlice as text l5 H5.
    destruct (strconv.ParseFloat _).
    + apply holds_ret. cbn. keeps.
    + eapply holds_weaken; [apply holds_Return, holds_errorf|].
      intros r l6. apply stepped_after. keeps.
  - eapply holds_weaken; [apply holds_Return, holds_expectedKeyword|].
    intros r l6. apply stepped_after. keeps.
Qed.

Lemma holds_normalCoordinate l : holds normalCoordinate l (stepped l).
Proof.
  unfold normalCoordinate.
  after holds_acceptRun as sp l1 H1. after holds_ignore as u l2 H2.
  after holds_acceptNumber as ok l3 H3.
  destruct ok; cbn [negb].
  - after holds_get as s l4 H4. after holds_get as p l5 H5.
    after holds_inputSlice as text l6 H6.
    destruct (strconv.ParseFloat _).
    + apply holds_ret. cbn. keeps.
    + eapply holds_weaken; [apply holds_Return, holds_errorf|].
      intros r l7. apply stepped_after. keeps.
  - eapply holds_weaken; [apply holds_Return, holds_expectedKeyword|].
    intros r l7. apply stepped_after. keeps.
Qed.

Lemma holds_bindBody {A B} (m : M (orReturn A)) (k : A -> M (orReturn B)) l :
  holds m l (stepped l) ->
  (forall a l', kept l l' -> holds (k a) l' (stepped l')) ->
  holds (bindBody m k) l (stepped l).
Proof.
  intros Hm Hk. unfold bindBody. apply holds_bind.
  eapply holds_weaken; [exact Hm|]. intros [st|a] l' H; cbv beta.
  - now apply holds_ret.
  - eapply holds_weaken; [exact (Hk a l' H)|].
    intros r l''. now apply stepped_after.
Qed.

Lemma holds_bindFn {A} (m : M (orReturn A)) (k : A -> M (option stateFn)) l
      (Q : option stateFn -> lexer -> Prop) :
  holds m l (stepped l) ->
  (forall l', failed l l' -> Q None l') ->
  (forall a l', kept l l' -> holds (k a) l' Q) ->
  holds (bindFn m k) l Q.
Proof.
  intros Hm Hfail Hk. unfold bindFn. apply holds_bind.
  eapply holds_weaken; [exact Hm|]. intros [st|a] l' H; cbv beta.
  - destruct H as [-> Hf]. apply holds_ret. now apply Hfail.
  - now apply Hk.
Qed.

Lemma holds_Done {A} (m : M A) l (Q : A -> lexer -> Prop) a l' :
  holds m l Q -> m l = Done (a, l') -> Q a l'.
Proof. unfold holds. intros H Hrun. now rewrite Hrun in H. Qed.

Lemma holds_and {A} (m : M A) l (Q Q' : A -> lexer -> Prop) :
  holds m l Q -> holds m l Q' -> holds m l (fun a l' => Q a l' /\ Q' a l').
Proof. unfold holds. destruct (m l) as [[a l']| |]; auto. Qed.

Lemma holds_Return_inl {A} (m : M (option stateFn)) l (Q : A -> Prop) :
  holds m l (fun _ _ => True) ->
  holds (@Return A m) l (fun r _ => match r with inl _ => True | inr a => Q a end).
Proof.
  intros H. unfold Return. apply holds_bind.
  eapply holds_weaken; [exact H|]. intros st l' _. now apply holds_ret.
Qed.

(** A coordinate that is read is the conversion of bytes of the buffer. *)
Lemma holds_vertexCoordinate_converted l :
  holds vertexCoordinate l
        (fun r _ => match r with
                    | inl _ => True
                    | inr x => converted (input l) x
                    end).
Proof.
  unfold vertexCoordinate.
  after holds_acceptRun as sp l1 H1. after holds_get as c l2 H2.
  after holds_acceptNumber as ok l3 H3.
  destruct ok; cbn [negb].
  - after holds_get as p l4 H4. after holds_inputSlice as text l5 H5.
    destruct H2 as [-> ->]. destruct H4 as [-> ->]. destruct H5 as [-> Htext].
    destruct (strconv.ParseFloat text) as [x|] eqn:Hx.
    + apply holds_ret. exists (pos l1), (pos l3), text.
      destruct H1 as [<- _]. destruct H3 as [<- _]. now split.
    + apply holds_Return_inl. eapply holds_weaken; [apply holds_errorf|]. auto.
  - apply holds_Return_inl.
    eapply holds_weaken; [apply holds_expectedKeyword|]. auto.
Qed.

Lemma holds_vertexCoordinate_read l :
  holds vertexCoordinate l
        (fun r l' => match r with
                     | inl _ => True
                     | inr x => kept l l' /\ converted (input l) x
                     end).
Proof.
  eapply holds_weaken;
    [exact (holds_and _ _ _ _ (holds_vertexCoordinate l)
              (holds_vertexCoordinate_converted l))|].
  intros [st|x] l' [H1 H2]; [exact I | now split].
Qed.

(** A vertex that is read has its coordinates from the buffer. *)
Lemma vertexLine_converted l v l' :
  vertexLine l = Done (inr v, l') -> vertexConverted (input l) v.
Proof.
  apply (holds_Done vertexLine l
           (fun r _ => match r with
                       | inl _ => True
                       | inr v => vertexConverted (input l) v
                       end)).
  unfold vertexLine.
  after holds_acceptRun as sp l1 H1. after holds_keyword as ok l2 H2.
  assert (Hi2 : input l2 = input l) by (destruct H1, H2; congruence).
  clear H1 H2. rewrite <- Hi2.
  destruct ok; cbn [negb].
  - unfold bindBody.
    after holds_vertexCoordinate_read as rx l3 H3.
    destruct rx as [st|x]; [now apply holds_ret|]. destruct H3 as [[Hi3 _] Hx].
    after holds_vertexCoordinate_read as ry l4 H4.
    destruct ry as [st|y]; [now apply holds_ret|]. destruct H4 as [[Hi4 _] Hy].
    after holds_vertexCoordinate_read as rz l5 H5.
    destruct rz as [st|z]; [now apply holds_ret|]. destruct H5 as [_ Hz].
    apply holds_ret. rewrite Hi4, Hi3 in Hz. rewrite Hi3 in Hy.
    now repeat split.
  - apply holds_Return_inl.
    eapply holds_weaken; [apply holds_expectedKeyword|]. auto.
Qed.

(** [holds_bindFn], with what the body has returned. *)
Lemma holds_bindFn_run {A} (m : M (orReturn A)) (k : A -> M (option stateFn)) l
      (Q : option stateFn -> lexer -> Prop) :
  holds m l (stepped l) ->
  (forall l', failed l l' -> Q None l') ->
  (forall a l', kept l l' -> m l = Done (inr a, l') -> holds (k a) l' Q) ->
  holds (bindFn m k) l Q.
Proof.
  intros Hm Hfail Hk. unfold holds, bindFn, bind in *.
  destruct (m l) as [[[st|a] l']| |]; auto.
  - destruct Hm as [-> Hf]. now apply Hfail.
  - now apply Hk.
Qed.

Lemma holds_vertexLine l : holds vertexLine l (stepped l).
Proof.
  unfold vertexLine.
  after holds_acceptRun as sp l1 H1. after holds_keyword as ok l2 H2.
  assert (Hk : kept l l2) by keeps.
  apply holds_weaken with (Q := stepped l2);
    [|intros r l'; now apply stepped_after].
  destruct ok; cbn [negb].
  - apply holds_bindBody; [apply holds_vertexCoordinate | intros x l3 H3].
    apply holds_bindBody; [apply holds_vertexCoordinate | intros y l4 H4].
    apply holds_bindBody; [apply holds_vertexCoordinate | intros z l5 H5].
    apply holds_ret. apply kept_refl.
  - apply holds_Return, holds_expectedKeyword.
Qed.

Lemma holds_asciiFileHeader l :
  holds asciiFileHeader l (fun st l' => st = Some fnAsciiFacet /\ kept l l').
Proof.
  unfold asciiFileHeader.
  after holds_acceptRun as sp l1 H1. after holds_acceptRun as id l2 H2.
  after holds_get as s l3 H3. after holds_get as p l4 H4.
  after holds_inputSlice as c l5 H5.
  assert (Hk : kept l l5) by keeps.
  destruct (bytes_Equal c _).
  - after holds_ignore as u l6 H6. apply holds_ret. split; [reflexivity|].
    exact (kept_trans _ _ _ Hk H6).
  - apply holds_bind. unfold holds at 1, modify. apply holds_ret.
    split; [reflexivity|]. apply (kept_trans _ _ _ Hk). repeat split.
Qed.

Lemma facetSpec_failed l l1 st l2 :
  kept l l1 -> st = None /\ failed l1 l2 -> facetSpec l st l2.
Proof. intros Hk [-> Hf]. left. exact (failed_after _ _ _ Hk Hf). Qed.

(** The facet state ends the parse with an error or at [endsolid], and
    goes on to the vertex state only with the pending facet set. *)
Lemma holds_asciiFacet l : holds asciiFacet l (facetSpec l).
Proof.
  unfold asciiFacet.
  after holds_acceptRun as sp1 l1 H1. after holds_keyword as facet l2 H2.
  assert (Hk2 : kept l l2) by keeps. clear H1 H2.
  destruct facet; cbn [negb].
  2:{ after holds_acceptKeyword as done l3 H3. destruct H3 as [H3 Hin].
      destruct done.
      - apply holds_ret. right. split; [keeps|].
        destruct Hk2 as [<- _]. now apply Hin.
      - eapply holds_weaken; [apply holds_expectedKeyword|].
        intros st l4. apply facetSpec_failed. keeps. }
  after holds_acceptRun as sp2 l3 H3. after holds_keyword as normal l4 H4.
  assert (Hk4 : kept l l4) by keeps. clear Hk2 H3 H4.
  destruct normal; cbn [negb].
  2:{ eapply holds_weaken; [apply holds_expectedKeyword|].
      intros st l5. now apply facetSpec_failed. }
  apply holds_bindFn;
    [apply holds_normalCoordinate
    | intros l' Hf; left; exact (failed_after _ _ _ Hk4 Hf)
    | intros ni l5 H5].
  assert (Hk5 : kept l l5) by keeps. clear Hk4 H5.
  apply holds_bindFn;
    [apply holds_normalCoordinate
    | intros l' Hf; left; exact (failed_after _ _ _ Hk5 Hf)
    | intros nj l6 H6].
  assert (Hk6 : kept l l6) by keeps. clear Hk5 H6.
  apply holds_bindFn;
    [apply holds_normalCoordinate
    | intros l' Hf; left; exact (failed_after _ _ _ Hk6 Hf)
    | intros nk l7 H7].
  assert (Hk7 : kept l l7) by keeps. clear Hk6 H7.
  after holds_acceptRun as sp3 l8 H8. after holds_keyword as outer l9 H9.
  assert (Hk9 : kept l l9) by keeps. clear Hk7 H8 H9.
  destruct outer; cbn [negb].
  2:{ eapply holds_weaken; [apply holds_expectedKeyword|].
      intros st l10. now apply facetSpec_failed. }
  after holds_acceptRun as sp4 l10 H10. after holds_keyword as loop l11 H11.
  assert (Hk11 : kept l l11) by keeps. clear Hk9 H10 H11.
  destruct loop; cbn [negb].
  2:{ eapply holds_weaken; [apply holds_expectedKeyword|].
      intros st l12. now apply facetSpec_failed. }
  apply holds_bind. unfold holds at 1, modify. apply holds_ret.
  destruct Hk11 as (Hi & Hs & Hq & He & Hp).
  cbn. repeat split; try assumption. discriminate.
Qed.

Lemma vertexSpec_failed l l1 st l2 :
  kept l l1 -> st = None /\ failed l1 l2 -> vertexSpec l st l2.
Proof. intros Hk [-> Hf]. exact (failed_after _ _ _ Hk Hf). Qed.

(** With a pending facet and room in the channel, the vertex state ends
    the parse with an error or sends one complete facet. *)
Lemma holds_asciiVertex l :
  pendingFacet l <> None ->
  (length (items l) < 2)%nat ->
  holds asciiVertex l (vertexSpec l).
Proof.
  intros Hpending Hroom. unfold asciiVertex.
  apply holds_bindFn_run;
    [apply holds_vertexLine | intros l' Hf; exact Hf | intros v0 l1 Hk1 Hv0].
  apply holds_bindFn_run;
    [apply holds_vertexLine
    | intros l' Hf; exact (failed_after _ _ _ Hk1 Hf)
    | intros v1 l2 H2 Hv1].
  assert (Hk2 : kept l l2) by keeps.
  apply holds_bindFn_run;
    [apply holds_vertexLine
    | intros l' Hf; exact (failed_after _ _ _ Hk2 Hf)
    | intros v2 l3 H3 Hv2].
  assert (Hk3 : kept l l3) by keeps.
  assert (Hread : readByLexer (input l)
                    (mkFacet (v0, v1, v2) true zeroVertex)).
  { exists l, l1, l2, l3, v0, v1, v2.
    pose proof (vertexLine_converted _ _ _ Hv0) as C0.
    pose proof (vertexLine_converted _ _ _ Hv1) as C1.
    pose proof (vertexLine_converted _ _ _ Hv2) as C2.
    destruct Hk1 as [Hi1 _]. destruct Hk2 as [Hi2 _].
    rewrite Hi1 in C1. rewrite Hi2 in C2.
    repeat (split; [assumption || reflexivity|]). assumption. }
  clear Hk1 H2 Hk2 H3 Hv0 Hv1 Hv2.
  after holds_acceptRun as sp1 l4 H4. after holds_keyword as endloop l5 H5.
  assert (Hk5 : kept l l5) by keeps. clear Hk3 H4 H5.
  destruct endloop; cbn [negb].
  2:{ eapply holds_weaken; [apply holds_expectedKeyword|].
      intros st l6. now apply vertexSpec_failed. }
  after holds_acceptRun as sp2 l6 H6. after holds_keyword as endfacet l7 H7.
  assert (Hk7 : kept l l7) by keeps. clear Hk5 H6 H7.
  destruct endfacet; cbn [negb].
  2:{ eapply holds_weaken; [apply holds_expectedKeyword|].
      intros st l8. now apply vertexSpec_failed. }
  after holds_acceptRun as sp3 l8 H8. after holds_get as pending l9 H9.
  destruct H9 as [-> ->].
  assert (Hk8 : kept l l8) by keeps. clear Hk7 H8.
  destruct Hk8 as (Hi & Hs & Hq & He & Hp).
  destruct (pendingFacet l8) as [f|]; [|congruence].
  unfold holds, bind, emit, modify, ret. rewrite Hq.
  destruct (Nat.leb_spec 2 (length (items l))) as [Hfull|_]; [lia|].
  cbn. repeat split; try assumption. eexists. split; [reflexivity|].
  split; [reflexivity|].
  destruct Hread as (a0 & a1 & a2 & a3 & w0 & w1 & w2 & Hread).
  exists a0, a1, a2, a3, w0, w1, w2. exact Hread.
Qed.

(** From the facet state, with the channel empty, [nextFacet] pulls a
    complete facet or ends the parse. *)
Lemma holds_nextFacet_facet fuel l :
  items l = [] -> state l = Some fnAsciiFacet ->
  holds (nextFacet fuel) l (pulled l).
Proof.
  intros Hq Hs. destruct fuel as [|fuel]; [exact I|].
  unfold holds. rewrite (nextFacet_call fuel l Hq), Hs. cbn [callState].
  fold (holds (bind asciiFacet
                 (fun st => bind (modify (set_state st))
                              (fun _ => match st with
                                        | None => ret None
                                        | Some _ => nextFacet fuel
                                        end))) l (pulled l)).
  after holds_asciiFacet as st l1 H1.
  apply holds_bind. unfold holds at 1, modify.
  destruct st as [fn|]; cbn [facetSpec] in H1.
  2:{ apply holds_ret. split; cbn.
      - destruct H1 as [[Hi _] | [[Hi _] _]]; exact Hi.
      - destruct H1 as [[_ He] | [_ Hin]]; [now left | now right]. }
  destruct H1 as (-> & Hp1 & Hi1 & Hq1 & He1).
  set (l1' := set_state (Some fnAsciiVertex) l1).
  destruct fuel as [|fuel]; [exact I|].
  assert (Hq1' : items l1' = []) by (cbn; congruence).
  unfold holds. rewrite (nextFacet_call fuel l1' Hq1').
  cbn [state set_state l1' callState]. fold l1'.
  fold (holds (bind asciiVertex
                 (fun st => bind (modify (set_state st))
                              (fun _ => match st with
                                        | None => ret None
                                        | Some _ => nextFacet fuel
                                        end))) l1' (pulled l)).
  apply holds_bind. eapply holds_weaken.
  { apply holds_asciiVertex; [exact Hp1 | rewrite Hq1'; cbn; lia]. }
  intros st l2 H2. cbv beta.
  apply holds_bind. unfold holds at 1, modify.
  destruct st as [fn|]; cbn [vertexSpec] in H2.
  2:{ apply holds_ret. destruct H2 as [Hi2 He2]. split; cbn.
      - cbn in Hi2. congruence.
      - now left. }
  destruct H2 as (-> & Hi2 & He2 & f & Hq2 & Hdone).
  rewrite Hq1' in Hq2. cbn [app] in Hq2.
  destruct fuel as [|fuel]; [exact I|].
  unfold holds.
  rewrite (nextFacet_receive fuel (set_state (Some fnAsciiFacet) l2) f [])
    by exact Hq2.
  cbn in Hi2, Hdone. rewrite Hi1 in Hi2, Hdone.
  split; [exact Hi2|]. split; [exact Hdone | split; reflexivity].
Qed.

(** From the header state it does the same. *)
Lemma holds_nextFacet_header fuel l :
  items l = [] -> state l = Some fnAsciiFileHeader ->
  holds (nextFacet fuel) l (pulled l).
Proof.
  intros Hq Hs. destruct fuel as [|fuel]; [exact I|].
  unfold holds. rewrite (nextFacet_call fuel l Hq), Hs. cbn [callState].
  fold (holds (bind asciiFileHeader
                 (fun st => bind (modify (set_state st))
                              (fun _ => match st with
                                        | None => ret None
                                        | Some _ => nextFacet fuel
                                        end))) l (pulled l)).
  after holds_asciiFileHeader as st l1 H1. destruct H1 as [-> H1].
  apply holds_bind. unfold holds at 1, modify.
  destruct H1 as (Hi1 & Hs1 & Hq1 & He1 & Hp1).
  eapply holds_weaken.
  { apply holds_nextFacet_facet; [cbn; congruence | reflexivity]. }
  intros r l2 [Hi2 H2]. cbn in Hi2, H2. rewrite Hi1 in Hi2, H2.
  split; [exact Hi2|]. exact H2.
Qed.

(** The loop of [parseASCII] ends with an error recorded or after the
    keyword [endsolid] has been read. *)
Lemma holds_pullFacets fuel :
  forall facets f l,
    match f with
    | None => error l <> None \/ keywordIn (input l) (bytes "endsolid")
    | Some f' => Valid f' = true /\ items l = [] /\ state l = Some fnAsciiFacet
    end ->
    holds (pullFacets fuel facets f) l
          (fun _ l' => input l' = input l /\
                       (error l' <> None \/ keywordIn (input l) (bytes "endsolid"))).
Proof.
  induction fuel as [|fuel IH]; intros facets f l H;
    destruct f as [f|]; cbn [pullFacets];
    try (now apply holds_ret);
    destruct H as (-> & Hq & Hs); [exact I|].
  after (holds_nextFacet_facet 4 l Hq Hs) as f' l1 H1.
  destruct H1 as [Hi1 H1].
  eapply holds_weaken; [apply IH|].
  - destruct f'; [|now rewrite Hi1].
    destruct H1 as ([Hvalid _] & Hq1 & Hs1). now repeat split.
  - intros fs l2 [Hi2 H2]. rewrite Hi1 in *. now split.
Qed.

Lemma holds_pullAll stl :
  holds (bind (nextFacet 4) (fun f => pullFacets (S (Z.to_nat (cap stl))) [] f))
        (lex "ASCII STL" stl fnAsciiFileHeader)
        (fun _ l' => error l' <> None \/ keywordIn stl (bytes "endsolid")).
Proof.
  after (holds_nextFacet_header 4 (lex "ASCII STL" stl fnAsciiFileHeader)
           eq_refl eq_refl) as f l1 H1.
  destruct H1 as [Hi1 H1].
  eapply holds_weaken; [apply holds_pullFacets|].
  - destruct f; [|now rewrite Hi1].
    destruct H1 as ([Hvalid _] & Hq1 & Hs1). now repeat split.
  - intros fs l2 [_ H2]. now rewrite Hi1 in H2.
Qed.

(** X9: the lexer panics on a bound only.  Whatever the buffer, the ASCII
    parse returns or panics on an index or a slice expression out of
    range: its loops end, a send on the channel of capacity 2 never finds
    the channel full, and the vertex state never finds the pending facet
    nil. *)
Theorem parseASCII_panics_on_bounds_only stl :
  (exists result, parseASCII stl = Done result) \/
  (exists i, parseASCII stl = Panics (IndexOutOfRange i)) \/
  (exists lo hi, parseASCII stl = Panics (SliceBoundsOutOfRange lo hi)).
Proof.
  pose proof (parseASCII_budget stl) as Hbudget.
  pose proof (holds_pullAll stl) as H.
  unfold parseASCII, pullAll in *. unfold holds in H.
  destruct (bind _ _ _) as [[facets l]|p|].
  - left. destruct (error l); eexists; reflexivity.
  - right. destruct p; cbn in H; try contradiction.
    + left. now eexists.
    + right. now eexists _, _.
  - contradiction.
Qed.

(** X10: a parse succeeds only at [endsolid].  When the ASCII parse
    returns facets and no error, the keyword [endsolid] stands somewhere
    in the backing array of the buffer (within its capacity, which may
    lie beyond its length): a text that is cut off before the keyword is
    never taken for a complete one. *)
Theorem parseASCII_success_read_endsolid stl facets :
  parseASCII stl = Done (facets, None) ->
  keywordIn stl (bytes "endsolid").
Proof.
  pose proof (holds_pullAll stl) as H.
  unfold parseASCII, pullAll. unfold holds in H.
  destruct (bind _ _ _) as [[pulled l]|p|]; try discriminate.
  destruct (error l) as [e|]; [discriminate|].
  intros _. destruct H as [He|Hin]; [congruence | exact Hin].
Qed.

Lemma parseASCII_success_read_endsolid_witness :
  keywordIn (mkSlice (bytes " a e") (bytes "ndsolid")) (bytes "endsolid").
Proof.
  apply (parseASCII_success_read_endsolid _ []). reflexivity.
Defined.

(** * Texts that end before [endsolid] *)

Lemma next_at_end l pre : standsAt l pre [] -> next l = Done (-1, l).
Proof.
  intros [Hd Hp]. unfold next.
  assert (H : (len (input l) <=? pos l) = true).
  { apply Z.leb_le. unfold len. rewrite Hd, Hp, app_nil_r. lia. }
  now rewrite H.
Qed.

Lemma acceptRunLoop_at_end valid run :
  forall fuel l pre result,
    standsAt l pre run ->
    Forall (fun b => member valid b = true) run ->
    (length run < fuel)%nat ->
    acceptRunLoop fuel valid result l =
    Done (result || negb (isNil run),
          set_pos (pos l + Z.of_nat (length run)) l).
Proof.
  induction run as [|b run IH]; intros fuel l pre result Hat Hrun Hfuel;
    (destruct fuel as [|fuel]; [simpl in Hfuel; lia|]);
    cbn [acceptRunLoop]; unfold bind.
  - rewrite (next_at_end l pre Hat).
    change (0 <=? IndexRune valid (-1)) with false.
    cbn [length isNil negb ret Z.of_nat]. rewrite orb_false_r.
    unfold ret. rewrite set_pos_same by lia. reflexivity.
  - rewrite (next_at l pre b run Hat).
    inversion Hrun as [|? ? Hb Hrun']; subst.
    unfold member in Hb. rewrite Hb.
    apply (standsAt_step l pre [b]) in Hat.
    change (Z.of_nat (length [b])) with 1 in Hat.
    rewrite (IH fuel _ _ true Hat Hrun') by (simpl in Hfuel; lia).
    rewrite set_pos_set_pos, orb_true_r. cbn [pos set_pos isNil negb length].
    apply Done_set_pos. lia.
Qed.

(** [acceptRun] over a run that ends the input: the call of [next] that
    finds the end does not move on, the [backup] after it moves back, and
    the last byte of the run is left to be read again. *)
Lemma acceptRun_at_end valid run l pre :
  standsAt l pre run ->
  Forall (fun b => member valid b = true) run ->
  acceptRun valid l =
  Done (negb (isNil run), set_pos (pos l + Z.of_nat (length run) - 1) l).
Proof.
  intros Hat Hrun. unfold acceptRun, bind.
  rewrite (acceptRunLoop_at_end valid run _ l pre false Hat Hrun).
  - unfold backup, modify, ret. cbn [pos set_pos orb].
    rewrite set_pos_set_pos. reflexivity.
  - destruct Hat as [Hdata Hp]. unfold len. rewrite Hdata, Hp, !length_app. lia.
Qed.

Lemma runs_spaces_end l pre init s :
  standsAt l pre (init ++ [s]) -> blank (init ++ [s]) ->
  runs (acceptRun spaces) l (fun _ l' => readTo (pre ++ init) [s] l l').
Proof.
  intros Hat Hg. eexists _, _.
  split; [apply (acceptRun_at_end spaces _ l pre Hat Hg)|].
  split; [|apply kept_set_pos].
  replace (pos l + Z.of_nat (length (init ++ [s])) - 1)
    with (pos l + Z.of_nat (length init))
    by (rewrite length_app; cbn [length]; lia).
  now apply standsAt_step.
Qed.

(** The facet state where only white space is left, in a buffer with
    fewer than four bytes of capacity to spare. *)
Lemma asciiFacet_at_end l pre w :
  standsAt l pre w -> gap w ->
  cap (input l) < len (input l) + 4 ->
  asciiFacet l =
  Panics (SliceBoundsOutOfRange (len (input l) - 1) (len (input l) - 1 + 5)).
Proof.
  intros Hat [Hne Hw] Hcap. unfold asciiFacet. unfold bind at 1.
  rewrite (acceptRun_at_end spaces w l pre Hat Hw).
  assert (Hpos : pos l + Z.of_nat (length w) - 1 = len (input l) - 1).
  { destruct Hat as [Hd Hp]. unfold len. rewrite Hd, Hp, length_app. lia. }
  rewrite Hpos.
  unfold bind at 1. unfold acceptKeyword. unfold bind at 1, get.
  unfold bind at 1, inputSlice, subslice. cbn [pos set_pos input].
  change (Z.of_nat (length (bytes "facet"))) with 5.
  destruct (Z.leb_spec (len (input l) - 1 + 5) (cap (input l))) as [Hle|_]; [lia|].
  rewrite andb_false_r. reflexivity.
Qed.

(** The vertex state over the rest of the last block of a text. *)
Lemma runs_asciiVertex_end l pre f pending :
  standsAt l pre (renderLoop f) ->
  facetTextOK f ->
  pendingFacet l = Some pending -> items l = [] ->
  runs asciiVertex l
       (fun st l' =>
          st = Some fnAsciiFacet /\
          (exists p s, member spaces s = true /\ standsAt l' p [s]) /\
          input l' = input l /\ state l' = state l /\ error l' = error l /\
          items l' = [mkFacet (vertexOfTriple (tVertex0 f),
                               vertexOfTriple (tVertex1 f),
                               vertexOfTriple (tVertex2 f))
                              true (Normal pending)] /\
          pendingFacet l' = None).
Proof.
  intros Hat (_ & _ & _ & _ & Hg0 & Ht0 & Hg1 & Ht1 & Hg2 & Ht2 & HgE & HgF & HgA)
         Hpending Hitems.
  unfold asciiVertex, renderLoop in *.
  eapply runs_bindFn;
    [apply (runs_vertexLine _ _ _ _ _ Hat (proj2 Hg0) Ht0); heads
    | intros l1 [Hat1 K1]].
  eapply runs_bindFn;
    [apply (runs_vertexLine _ _ _ _ _ Hat1 (proj2 Hg1) Ht1); heads
    | intros l2 [Hat2 K2]].
  eapply runs_bindFn;
    [apply (runs_vertexLine _ _ _ _ _ Hat2 (proj2 Hg2) Ht2); heads
    | intros l3 [Hat3 K3]].
  run (runs_spaces _ _ _ _ Hat3 (proj2 HgE)) as sp l4 H4; [heads|].
  destruct H4 as [Hat4 K4].
  run (runs_keyword _ _ _ _ Hat4) as ok l5 H5.
  destruct H5 as (-> & Hat5 & K5). cbn [negb].
  run (runs_spaces _ _ _ _ Hat5 (proj2 HgF)) as sp2 l6 H6; [heads|].
  destruct H6 as [Hat6 K6].
  run (runs_keyword _ _ _ _ Hat6) as ok l7 H7.
  destruct H7 as (-> & Hat7 & K7). cbn [negb].
  destruct HgA as [HgAne HgA].
  destruct (exists_last HgAne) as (init & s & Hlast).
  rewrite Hlast in Hat7, HgA.
  run (runs_spaces_end _ _ _ _ Hat7 HgA) as sp3 l8 H8.
  destruct H8 as [Hat8 K8].
  assert (K : kept l l8) by eauto 12 using kept_trans.
  destruct K as (Ki & Ks & Kq & Ke & Kp).
  run runs_get as p l9 H9. destruct H9 as [-> ->].
  rewrite Kp, Hpending.
  unfold runs, bind, emit, modify, ret. rewrite Kq, Hitems. cbn [length Nat.leb].
  eexists _, _. split; [reflexivity|]. cbn.
  split; [reflexivity|]. split; [|repeat split; assumption].
  eexists _, s. split; [|exact Hat8].
  apply Forall_app in HgA. destruct HgA as [_ Hs]. now inversion Hs.
Qed.

(** One pull over the last block of a text. *)
Lemma nextFacet_block_end fuel l pre w f :
  ready l ->
  standsAt l pre (w ++ renderFacet f) ->
  blank w -> facetTextOK f ->
  exists l' p s,
    nextFacet (3 + fuel) l = Done (Some (facetOfText f), l') /\
    ready l' /\ member spaces s = true /\ standsAt l' p [s] /\
    input l' = input l.
Proof.
  intros (Hs & Hq & He) Hat Hw Hf.
  unfold renderFacet in Hat.
  destruct (runs_asciiFacet l pre w f _ Hat Hw Hf)
    as (st & l1 & Hfacet & -> & Hat1 & Hi1 & Hs1 & Hq1 & He1 & Hp1).
  cbn [Nat.add]. rewrite (nextFacet_call _ l Hq), Hs.
  unfold bind at 1. cbn [callState]. rewrite Hfacet.
  unfold bind at 1, modify at 1.
  set (l1' := set_state (Some fnAsciiVertex) l1).
  assert (Hq1' : items l1' = []) by (cbn; congruence).
  destruct (runs_asciiVertex_end l1' _ f _ Hat1 Hf Hp1 Hq1')
    as (st & l2 & Hvertex & -> & (p & s & Hspace & Hat2) & Hi2 & Hs2 & He2 & Hq2 & Hp2).
  rewrite (nextFacet_call _ l1' Hq1'). unfold bind at 1.
  cbn [state set_state l1' callState]. fold l1'. rewrite Hvertex.
  unfold bind at 1, modify at 1.
  set (l2' := set_state (Some fnAsciiFacet) l2).
  rewrite (nextFacet_receive fuel l2' _ [] Hq2).
  eexists _, p, s. split; [reflexivity|]. split; [|split; [exact Hspace|split]].
  - repeat split. unfold l1' in He2. cbn in *. congruence.
  - exact Hat2.
  - unfold l1' in Hi2. cbn in *. congruence.
Qed.

Lemma blocks_head f fs :
  nonSpaceHead (renderFacet f ++ concat (map renderFacet fs)).
Proof.
  unfold renderFacet, renderHead. rewrite <- !app_assoc.
  now apply keyword_nonSpaceHead.
Qed.

(** The loop of [parseASCII] over the facet blocks left, up to the end
    of the text. *)
Lemma pullFacets_blocks_end fs :
  forall l pre w acc f0 fuel,
    Valid f0 = true -> ready l ->
    standsAt l pre (w ++ concat (map renderFacet fs)) ->
    blank w -> (fs = [] -> w <> []) ->
    Forall facetTextOK fs ->
    cap (input l) < len (input l) + 4 ->
    (length fs < fuel)%nat ->
    pullFacets fuel acc (Some f0) l =
    Panics (SliceBoundsOutOfRange (len (input l) - 1) (len (input l) - 1 + 5)).
Proof.
  induction fs as [|f fs IH];
    intros l pre w acc f0 fuel Hvalid Hready Hat Hw Hne Hok Hcap Hfuel;
    (destruct fuel as [|fuel]; [simpl in Hfuel; lia|]);
    cbn [pullFacets]; rewrite Hvalid; unfold bind.
  - cbn [map concat] in Hat. rewrite app_nil_r in Hat.
    destruct Hready as (Hs & Hq & He).
    rewrite (nextFacet_call 3 l Hq), Hs. unfold bind at 1. cbn [callState].
    now rewrite (asciiFacet_at_end l pre w Hat (conj (Hne eq_refl) Hw) Hcap).
  - inversion Hok as [|? ? Hf Hok']; subst.
    destruct fs as [|f2 fs].
    + cbn [map concat] in Hat. rewrite app_nil_r in Hat.
      destruct (nextFacet_block_end 1 l pre w f Hready Hat Hw Hf)
        as (l1 & p & s & Hnext & Hready1 & Hspace & Hat1 & Hi1).
      cbn [Nat.add] in Hnext. rewrite Hnext.
      rewrite <- Hi1.
      apply (IH l1 p [s] (acc ++ [f0]) (facetOfText f) fuel eq_refl Hready1 Hat1
               (Forall_cons _ Hspace (Forall_nil _)) ltac:(discriminate) Hok');
        [now rewrite Hi1 | simpl in *; lia].
    + cbn [map concat] in Hat.
      destruct (nextFacet_block 1 l pre w f _ Hready Hat Hw Hf
                  (blocks_head f2 fs))
        as (l1 & Hnext & Hready1 & Hat1 & Hi1).
      cbn [Nat.add] in Hnext. rewrite Hnext.
      rewrite <- Hi1.
      apply (IH l1 (pre ++ w ++ renderFacet f) [] (acc ++ [f0]) (facetOfText f)
               fuel eq_refl Hready1 Hat1 (Forall_nil _) ltac:(discriminate) Hok');
        [now rewrite Hi1 | simpl in *; lia].
Qed.

(** X11: a text that is cut off before [endsolid] makes the parse panic.
    Let the bytes after the sentinel be white space (or none), a name,
    white space and any number of well-formed facet blocks, and let the
    buffer end there, with fewer than four bytes of capacity to spare.
    The white space that ends the text is left one byte short by
    [acceptRun], and the facet state then slices five bytes from the last
    byte of the text: no facet and no error is returned, the parse panics
    on the bounds of that slice. *)
Theorem parseASCII_panics_without_endsolid g0 name g1 fs extra :
  blank g0 ->
  name <> [] -> Forall (fun b => member ident b = true) name ->
  gap g1 ->
  Forall facetTextOK fs ->
  (length extra < 4)%nat ->
  let text := g0 ++ name ++ g1 ++ concat (map renderFacet fs) in
  let n := Z.of_nat (length text) in
  parseASCII (mkSlice text extra) = Panics (SliceBoundsOutOfRange (n - 1) (n + 4)) /\
  ParseSTLBytes (mkSlice (bytes "solid" ++ text) extra) =
    Panics (SliceBoundsOutOfRange (n - 1) (n + 4)).
Proof.
  intros Hg0 Hne Hname Hg1 Hok Hextra text n.
  assert (Hascii : parseASCII (mkSlice text extra) =
                   Panics (SliceBoundsOutOfRange (n - 1) (n + 4))).
  { set (stl := mkSlice text extra).
    set (l0 := lex "ASCII STL" stl fnAsciiFileHeader).
    assert (Hat0 : standsAt l0 [] (g0 ++ name ++ g1 ++ concat (map renderFacet fs)))
      by (split; reflexivity).
    destruct (runs_asciiFileHeader l0 g0 name g1 _ Hat0 eq_refl Hg0 Hne Hname Hg1)
      as (st & l1 & Hheader & -> & Hat1 & Hi1 & Hq1 & He1).
    set (l1' := set_state (Some fnAsciiFacet) l1).
    assert (Hready : ready l1') by (repeat split; assumption).
    assert (Hi1' : input l1' = stl) by exact Hi1.
    assert (Hcap : cap stl < len stl + 4).
    { unfold cap, len, stl. cbn [data spare]. rewrite length_app. lia. }
    assert (Hend : Panics (SliceBoundsOutOfRange (len stl - 1) (len stl - 1 + 5)) =
                   Panics (SliceBoundsOutOfRange (n - 1) (n + 4)) :> outcome (list Facet * lexer)).
    { unfold len, stl, n. cbn [data]. do 2 f_equal. lia. }
    assert (Hpull : pullAll stl = Panics (SliceBoundsOutOfRange (n - 1) (n + 4))).
    { unfold pullAll. fold l0. unfold bind at 1.
      rewrite (nextFacet_call 3 l0 eq_refl). unfold bind at 1.
      change (callState (state l0) l0) with (asciiFileHeader l0).
      rewrite Hheader. unfold bind at 1, modify at 1. fold l1'.
      destruct fs as [|f fs'].
      - cbn [map concat] in Hat1. rewrite app_nil_r in Hat1.
        rewrite (nextFacet_call 2 l1' Hq1). unfold bind at 1.
        change (callState (state l1') l1') with (asciiFacet l1').
        rewrite (asciiFacet_at_end l1' _ g1 Hat1 Hg1) by (now rewrite Hi1').
        now rewrite Hi1'.
      - inversion Hok as [|? ? Hf Hok']; subst.
        pose proof (length_blocks fs') as Hlen.
        assert (Hfuel : (length fs' < S (Z.to_nat (cap stl)))%nat).
        { unfold cap, stl, text. cbn [data map concat].
          rewrite !length_app. lia. }
        destruct fs' as [|f2 fs''].
        + cbn [map concat] in Hat1. rewrite app_nil_r in Hat1.
          destruct (nextFacet_block_end 0 l1' _ g1 f Hready Hat1 (proj2 Hg1) Hf)
            as (l2 & p & s & Hnext & Hready2 & Hspace & Hat2 & Hi2).
          cbn [Nat.add] in Hnext. rewrite Hnext.
          rewrite (pullFacets_blocks_end [] l2 p [s] [] (facetOfText f) _ eq_refl
                     Hready2 Hat2 (Forall_cons _ Hspace (Forall_nil _))
                     ltac:(discriminate) Hok');
            rewrite ?Hi2, ?Hi1'; auto.
        + cbn [map concat] in Hat1.
          destruct (nextFacet_block 0 l1' _ g1 f _ Hready Hat1 (proj2 Hg1) Hf
                      (blocks_head f2 fs''))
            as (l2 & Hnext & Hready2 & Hat2 & Hi2).
          cbn [Nat.add] in Hnext. rewrite Hnext.
          rewrite (pullFacets_blocks_end (f2 :: fs'') l2 _ [] [] (facetOfText f) _
                     eq_refl Hready2 Hat2 (Forall_nil _) ltac:(discriminate) Hok');
            rewrite ?Hi2, ?Hi1'; auto. }
    unfold parseASCII. now rewrite Hpull. }
  split; [exact Hascii|].
  now rewrite ParseSTLBytes_solid, Hascii.
Qed.

Lemma parseASCII_panics_without_endsolid_witness :
  parseASCII (tight (bytes " a " ++
                     concat (map renderFacet [simpleText0; simpleText1]))) =
  Panics (SliceBoundsOutOfRange 266 271).
Proof.
  refine (proj1 (parseASCII_panics_without_endsolid
                   (bytes " ") (bytes "a") (bytes " ")
                   [simpleText0; simpleText1] [] _ _ _ _ _ _)).
  - repeat constructor.
  - discriminate.
  - repeat constructor.
  - run_of.
  - constructor; [block_ok | constructor; [block_ok | constructor]].
  - cbn. lia.
Defined.

(** * An error in the course of a parse *)

Lemma pullAll_budget stl : pullAll stl <> Exhausted.
Proof.
  intros H. apply (parseASCII_budget stl). unfold parseASCII. now rewrite H.
Qed.

(** Up to where the parse stands, no error has been recorded. *)
Lemma visits_error stl l : visits stl l -> error l = None.
Proof.
  induction 1 as [|l st l' Hv IH Hq Hcall|l item rest Hv IH Hq Hvalid].
  - reflexivity.
  - destruct (state l) as [fn|] eqn:Hs; [|discriminate].
    cbn [error set_state].
    now rewrite (error_ends_state fn l st l' Hcall).
  - exact IH.
Qed.

Lemma resume_call n p acc l st l' :
  items l = [] ->
  callState (state l) l = Done (st, l') ->
  resume (S n) p acc l =
  match st with
  | None => pullFacets p acc None (set_state None l')
  | Some _ => resume n p acc (set_state st l')
  end.
Proof.
  intros Hq Hcall. unfold resume. unfold bind at 1.
  rewrite (nextFacet_call n l Hq). unfold bind at 1. rewrite Hcall.
  unfold bind at 1, modify at 1. now destruct st.
Qed.

(** Where the parse stands, the rest of it decides its result. *)
Lemma visits_resume stl l :
  visits stl l -> exists n p acc, pullAll stl = resume n p acc l.
Proof.
  induction 1 as [|l st l' Hv IH Hq Hcall|l item rest Hv IH Hq Hvalid].
  - now exists 4%nat, (S (Z.to_nat (cap stl))), [].
  - destruct IH as (n & p & acc & Hrun).
    destruct n as [|n]; [now destruct (pullAll_budget stl)|].
    exists n, p, acc. now rewrite Hrun, (resume_call n p acc l _ l' Hq Hcall).
  - destruct IH as (n & p & acc & Hrun).
    destruct n as [|n]; [now destruct (pullAll_budget stl)|].
    unfold resume in Hrun. unfold bind at 1 in Hrun.
    rewrite (nextFacet_receive n l item rest Hq) in Hrun.
    destruct p as [|p].
    + cbn [pullFacets] in Hrun. rewrite Hvalid in Hrun.
      now destruct (pullAll_budget stl).
    + cbn [pullFacets] in Hrun. rewrite Hvalid in Hrun.
      now exists 4%nat, p, (acc ++ [item]).
Qed.

(** C6: an error recorded by a state transition fails the whole parse.
    Let the parse of [stl] stand at the lexer [l] with the channel empty,
    however many facets it has emitted and appended before, and let the
    call of the state function there leave the error [e] recorded.  Then
    [parseASCII] returns that error as a [LexerError] and no facets at
    all. *)
Theorem parseASCII_error_discards_facets stl l st l' e :
  visits stl l ->
  items l = [] ->
  callState (state l) l = Done (st, l') ->
  error l' = Some e ->
  parseASCII stl = Done ([], Some (LexerError e)).
Proof.
  intros Hv Hq Hcall He.
  assert (Hst : st = None).
  { destruct st as [fn'|]; [|reflexivity].
    destruct (state l) as [fn|] eqn:Hs; [|discriminate].
    rewrite (error_ends_state fn l fn' l' Hcall), (visits_error stl l Hv) in He.
    discriminate. }
  subst st.
  destruct (visits_resume stl l Hv) as (n & p & acc & Hrun).
  destruct n as [|n]; [now destruct (pullAll_budget stl)|].
  rewrite (resume_call n p acc l None l' Hq Hcall), pullFacets_ends in Hrun.
  unfold parseASCII. rewrite Hrun. cbn [error set_state]. now rewrite He.
Qed.

Lemma parseASCII_error_discards_facets_witness :
  (exists l, pullAll (tight omitsEndloop) = Done ([oneFacet], l)) /\
  parseASCII (tight omitsEndloop) =
    Done ([], Some (LexerError
                      (Sprintf "Expected keyword 'endloop' at %v. Saw %q instead"
                               [argInt 158; argBytes (bytes "endface")]))) /\
  parseASCII (tight omitsEndfacet) =
    Done ([], Some (LexerError
                      (Sprintf "Expected keyword 'endfacet' at %v. Saw %q instead"
                               [argInt 80; argBytes (bytes "endsolid")]))).
Proof.
  split; [eexists; vm_compute; reflexivity|]. split.
  - eapply (parseASCII_error_discards_facets (tight omitsEndloop)).
    + eapply visits_call;
        [eapply visits_receive;
           [eapply visits_call;
              [eapply visits_call;
                 [eapply visits_call;
                    [apply visits_lex | reflexivity | lazy; reflexivity]
                 | reflexivity | lazy; reflexivity]
              | reflexivity | lazy; reflexivity]
           | reflexivity | reflexivity]
        | reflexivity | lazy; reflexivity].
    + reflexivity.
    + lazy. reflexivity.
    + reflexivity.
  - eapply (parseASCII_error_discards_facets (tight omitsEndfacet)).
    + eapply visits_call;
        [eapply visits_call;
           [apply visits_lex | reflexivity | lazy; reflexivity]
        | reflexivity | lazy; reflexivity].
    + reflexivity.
    + lazy. reflexivity.
    + reflexivity.
Defined.

(** * The facets handed back *)








(** * The gate at the end of the input *)

(** C9, at the end of the input.  The literal 1.. is of the permissive
    grammar and no floating-point literal.  With a white-space byte
    behind it the tokenizer takes it whole and the parse fails in the
    conversion.  Where it ends the input, [acceptRun] steps back onto its
    last byte, the text captured is 1. and the conversion accepts it: the
    gate is passed, and the parse goes on to panic on a slice bound, or,
    with capacity to spare, to fail at the keyword [outer]. *)
Theorem conversion_gate_is_missed_at_end_of_input :
  let l := lex "ASCII STL" (tight cutLiteral) fnAsciiFacet in
  permissiveNumber (bytes "1..") /\
  strconv.ParseFloat (bytes "1..") = None /\
  ParseSTLBytes (tight (bytes "solid" ++ cutLiteral ++ bytes " ")) =
    Done ([], Some (LexerError (unableToParse (bytes "1..")))) /\
  acceptNumber (set_start 20 (set_pos 20 l)) =
    Done (true, set_start 20 (set_pos 22 l)) /\
  subslice (tight cutLiteral) 20 22 = Some (bytes "1.") /\
  strconv.ParseFloat (bytes "1.") = Some 1065353216 /\
  ParseSTLBytes (tight (bytes "solid" ++ cutLiteral)) =
    Panics (SliceBoundsOutOfRange 22 27) /\
  ParseSTLBytes (mkSlice (bytes "solid" ++ cutLiteral) (repeat x00 8)) =
    Done ([], Some (LexerError
                      (Sprintf "Expected keyword 'outer' at %v. Saw %q instead"
                               [argInt 22; argBytes [x2e; x00; x00; x00; x00]]))).
Proof.
  intros l. repeat split; try (vm_compute; reflexivity).
  exists [], (bytes "1.."), []. repeat split.
  - now left.
  - discriminate.
  - repeat constructor.
  - now left.
Qed.
